(** * fantasy-predictor: scoring, valuation, turn order and the mock-draft engine

    A shallow embedding of the TypeScript sources
    - [utils/scoring.ts] and [utils/csv.ts]      (module [Scoring]),
    - [app/draft/types.ts]          (modules [DraftPlayer], [DraftPick],
                                     [TeamRoster], and [DraftPhase]),
    - [app/draft/constants.ts]                   (module [Constants]),
    - [app/draft/utils.ts]                       (module [Utils]),
    - [app/draft/hooks.ts], the [useDraft] hook  (module [Hooks]),
    - [app/draft/page.tsx], which wires the hook to the three screens
                                                 (module [DraftPage]),
    - the single-file variant of the page, for its [loadAll]
                                                 (module [LegacyPage]),
    followed by the vocabulary of the specification and by its properties,
    stated on these definitions.

    State is passed explicitly: every [useState] cell the draft logic
    touches is a field of [Hooks.State], and every handler is a function
    from state to state.  A handler that can raise a [TypeError] returns
    an [option].  [Math.random] is an argument of the heuristic.

    JavaScript numbers are modelled by exact rationals ([Q]); integer-valued
    numbers (pick numbers, indices, counts, tiers) by [Z].  Rounding error of
    IEEE doubles is outside the model. *)

From stdpp Require Import gmap strings list pretty.
From Stdlib Require Import Ascii ZArith QArith Qround Qabs Lia Lqa Sorted.

(** ** JavaScript built-ins used by the sources *)

Module Js.

(** The result of [parseFloat]: a finite value or one of the three
    non-finite doubles. *)
Inductive number :=
| Finite (q : Q)
| PosInfinity
| NegInfinity
| NaN.

(** [Number.isFinite] *)
Definition isFinite (n : number) : bool :=
  match n with Finite _ => true | _ => false end.

(** [Math.round]: nearest integer, ties towards +infinity. *)
Definition round (x : Q) : Z := Qfloor (x + (1 # 2))%Q.

(** [Math.floor (a / b)] on integer-valued numbers, [b <> 0]. *)
Definition floorDiv (a b : Z) : Z := (a / b)%Z.

(** The [%] operator on integer-valued numbers: the remainder takes the
    sign of the dividend. *)
Definition remainder (a b : Z) : Z := Z.rem a b.

Section Sort.
Context {A : Type} (compareFn : A -> A -> Q).

(** [x] goes in front of the first element it must not follow. *)
Fixpoint place (x : A) (sorted : list A) : list A :=
  match sorted with
  | [] => [x]
  | y :: rest =>
      if Qle_bool (compareFn x y) 0 then x :: sorted else y :: place x rest
  end.

(** [Array.prototype.sort (compareFn)]: a stable sort; elements that
    compare equal keep their relative order. *)
Definition sort (l : list A) : list A := foldr place [] l.
End Sort.

(** [arr.slice (start, end)] and [arr.slice (start)] for in-range
    non-negative arguments. *)
Definition slice {A} (start stop : nat) (l : list A) : list A :=
  take (stop - start) (drop start l).
Definition sliceFrom {A} (start : nat) (l : list A) : list A := drop start l.

(** *** [parseFloat] on decimal literals *)

Definition isWhiteSpace (c : ascii) : bool :=
  let n := nat_of_ascii c in
  (n =? 32)%nat || ((9 <=? n)%nat && (n <=? 13)%nat).

Fixpoint trimStart (s : string) : string :=
  match s with
  | String c rest => if isWhiteSpace c then trimStart rest else s
  | EmptyString => s
  end.

Definition digitOf (c : ascii) : option Z :=
  let n := Z.of_nat (nat_of_ascii c) in
  if ((48 <=? n) && (n <=? 57))%Z then Some (n - 48)%Z else None.

(** Longest run of decimal digits: its value on top of [acc], how many were
    read on top of [n], and the rest of the text. *)
Fixpoint digits (s : string) (acc : Z) (n : nat) : Z * nat * string :=
  match s with
  | String c rest =>
      match digitOf c with
      | Some d => digits rest (10 * acc + d)%Z (S n)
      | None => (acc, n, s)
      end
  | EmptyString => (acc, n, s)
  end.

Fixpoint startsWith (p s : string) : bool :=
  match p, s with
  | EmptyString, _ => true
  | String a p', String b s' => Ascii.eqb a b && startsWith p' s'
  | String _ _, EmptyString => false
  end.

(** An optional sign: [true] when negative. *)
Definition signOf (s : string) : bool * string :=
  match s with
  | String "-"%char rest => (true, rest)
  | String "+"%char rest => (false, rest)
  | _ => (false, s)
  end.

(** The exponent part, [0] when there is none or it has no digit. *)
Definition exponentOf (s : string) : Z :=
  match s with
  | String c rest =>
      if Ascii.eqb c "e"%char || Ascii.eqb c "E"%char then
        let '(neg, rest') := signOf rest in
        let '(e, n, _) := digits rest' 0%Z 0%nat in
        if (n =? 0)%nat then 0%Z else if neg then (- e)%Z else e
      else 0%Z
  | EmptyString => 0%Z
  end.

(** [parseFloat]: leading white space is skipped, the longest prefix that
    is a decimal literal is read, anything after it is ignored. *)
Definition parseFloat (input : string) : number :=
  let '(neg, s) := signOf (trimStart input) in
  if startsWith "Infinity"%string s then (if neg then NegInfinity else PosInfinity)
  else
    let '(ip, ni, s1) := digits s 0%Z 0%nat in
    let '(fp, nf, s2) :=
      match s1 with
      | String "."%char rest => digits rest 0%Z 0%nat
      | _ => (0%Z, 0%nat, s1)
      end in
    if (ni + nf =? 0)%nat then NaN
    else
      let scale := (10 ^ Z.of_nat nf)%Z in
      let mantissa := (inject_Z (ip * scale + fp) / inject_Z scale)%Q in
      let magnitude := (mantissa * Qpower 10 (exponentOf s2))%Q in
      Finite (if neg then (- magnitude)%Q else magnitude).

(** [s.replace (/,/g, "")] *)
Fixpoint removeCommas (s : string) : string :=
  match s with
  | String c rest =>
      if Ascii.eqb c ","%char then removeCommas rest else String c (removeCommas rest)
  | EmptyString => EmptyString
  end.

(** [s.trimEnd ()] and [s.trim ()], on the white space of [isWhiteSpace]. *)
Fixpoint trimEnd (s : string) : string :=
  match s with
  | EmptyString => EmptyString
  | String c rest =>
      match trimEnd rest with
      | EmptyString =>
          if isWhiteSpace c then EmptyString else String c EmptyString
      | kept => String c kept
      end
  end.

Definition trim (s : string) : string := trimEnd (trimStart s).

(** [s.includes (sub)]: [sub] occurs in [s] as a contiguous run. *)
Fixpoint includes (s sub : string) : bool :=
  startsWith sub s
  || match s with
     | EmptyString => false
     | String _ rest => includes rest sub
     end.

(** [arr[i]] for an integer [i]: [undefined] outside the array. *)
Definition at_ {A} (arr : list A) (i : Z) : option A :=
  if (i <? 0)%Z then None else arr !! Z.to_nat i.

(** [a || b] where [a] is a string or [undefined]: the empty string and
    [undefined] are falsy. *)
Definition orElse (a b : option string) : option string :=
  match a with
  | None => b
  | Some EmptyString => b
  | Some _ => a
  end.

Definition LF : ascii := "010"%char.
Definition CR : ascii := "013"%char.

(** [text.split (/\r?\n/)]: the text is cut at every line feed, and a
    carriage return right before a line feed goes with it. *)
Fixpoint splitLines (text : string) : list string :=
  match text with
  | EmptyString => [EmptyString]
  | String c rest =>
      let sameLine :=
        match splitLines rest with
        | first :: others => String c first :: others
        | [] => [String c EmptyString]
        end in
      if Ascii.eqb c LF then EmptyString :: splitLines rest
      else if Ascii.eqb c CR then
        match rest with
        | String c' rest' =>
            if Ascii.eqb c' LF then EmptyString :: splitLines rest'
            else sameLine
        | EmptyString => sameLine
        end
      else sameLine
  end.

End Js.

(** ** [utils/csv.ts] and [utils/scoring.ts] *)

Module Scoring.

Inductive Position := QB | RB | WR | TE.
Inductive Scoring := STANDARD | HALF_PPR | PPR.

#[export] Instance Position_eq_dec : EqDecision Position.
Proof. solve_decision. Defined.

(** [CSVRow = Record<string, string>] *)
Abbreviation CSVRow := (gmap string string).

(** [toNumber (value, fallback = 0)] on what a [CSVRow] holds: a string, or
    [undefined] for an absent column. *)
Definition toNumber (value : option string) (fallback : Q) : Q :=
  match value with
  | None => fallback
  | Some text =>
      match Js.parseFloat (Js.removeCommas text) with
      | Js.Finite n => n
      | _ => fallback
      end
  end.

Definition computeFantasyPoints
    (row : CSVRow) (position : Position) (scoring : Scoring) : Q :=
  let passYds := toNumber (row !! "PassingYDS_pred"%string) 0 in
  let passTD := toNumber (row !! "PassingTD_pred"%string) 0 in
  let passInt := toNumber (row !! "PassingInt_pred"%string) 0 in
  let rushYds := toNumber (row !! "RushingYDS_pred"%string) 0 in
  let rushTD := toNumber (row !! "RushingTD_pred"%string) 0 in
  let rec := toNumber (row !! "ReceivingRec_pred"%string) 0 in
  let recYds := toNumber (row !! "ReceivingYDS_pred"%string) 0 in
  let recTD := toNumber (row !! "ReceivingTD_pred"%string) 0 in
  let scoringPassYd := (1 / 25)%Q in
  let scoringPassTD := 4%Q in
  let scoringINT := (- 2)%Q in
  let scoringRushRecYd := (1 / 10)%Q in
  let scoringRushRecTD := 6%Q in
  let pprFactor :=
    match scoring with PPR => 1%Q | HALF_PPR => 0.5%Q | STANDARD => 0%Q end in
  let points := 0%Q in
  let points :=
    (points
     + (passYds * scoringPassYd + passTD * scoringPassTD + passInt * scoringINT))%Q in
  let points :=
    (points + (rushYds * scoringRushRecYd + rushTD * scoringRushRecTD))%Q in
  let points :=
    (points
     + (recYds * scoringRushRecYd + recTD * scoringRushRecTD + rec * pprFactor))%Q in
  (inject_Z (Js.round (points * 100)) / 100)%Q.


Section NameKey.
(** [String.prototype.toLowerCase], whatever it does to each text. *)
Variable toLowerCase : string -> string.

Definition nameCandidates : list string :=
  ["PlayerName"; "player"; "player_name"; "name"; "playername"; "full_name"]%string.

(** [detectPlayerNameKey (row)], on [keys = Object.keys (row)]. *)
Definition detectPlayerNameKey (keys : list string) : option string :=
  match List.find (fun c => bool_decide (c ∈ keys)) nameCandidates with
  | Some c => Some c
  | None =>
      List.find
        (fun k =>
           Js.includes (toLowerCase k) "name"
           || Js.includes (toLowerCase k) "player")
        keys
  end.
End NameKey.
End Scoring.

(** ** [utils/csv.ts]: [parseCSV] *)

Module Csv.
Import Scoring.

Definition QUOTE : ascii := "034"%char.
Definition COMMA : ascii := ","%char.

(** [current += char] *)
Definition push (current : string) (char : ascii) : string :=
  String.append current (String char EmptyString).

(** The loop of [parseLine] over what is left of the line, with its three
    variables. *)
Fixpoint parseLineFrom (line : string) (result : list string)
    (current : string) (inQuotes : bool) : list string :=
  match line with
  | EmptyString => result ++ [current]
  | String char rest =>
      if Ascii.eqb char QUOTE then
        match rest with
        | String next rest' =>
            if inQuotes && Ascii.eqb next QUOTE
            then parseLineFrom rest' result (push current QUOTE) inQuotes
            else parseLineFrom rest result current (negb inQuotes)
        | EmptyString => parseLineFrom rest result current (negb inQuotes)
        end
      else if Ascii.eqb char COMMA && negb inQuotes then
        parseLineFrom rest (result ++ [current]) EmptyString inQuotes
      else parseLineFrom rest result (push current char) inQuotes
  end.

Definition parseLine (line : string) : list string :=
  Js.trim <$> parseLineFrom line [] EmptyString false.

(** [row[h] = v] on a plain object: the inherited setter of ["__proto__"]
    ignores a string, every other key becomes an own property. *)
Definition assign (row : CSVRow) (h v : string) : CSVRow :=
  if String.eqb h "__proto__" then row else <[h := v]> row.

(** [headers.forEach ((h, idx) => { row[h] = values[idx] ?? empty })],
    where [empty] is the empty string, from header number [idx] on. *)
Fixpoint fillRow (headers : list string) (idx : nat) (values : list string)
    (row : CSVRow) : CSVRow :=
  match headers with
  | [] => row
  | h :: later =>
      fillRow later (S idx) values
        (assign row h (default EmptyString (values !! idx)))
  end.

Record Parsed := mkParsed { headers : list string; rows : list CSVRow }.

Definition nonBlank (l : string) : bool :=
  (0 <? String.length (Js.trim l))%nat.

Definition parseCSV (text : string) : Parsed :=
  let lines := List.filter nonBlank (Js.splitLines text) in
  match lines with
  | [] => {| headers := []; rows := [] |}
  | first :: others =>
      let headers := Js.trim <$> parseLine first in
      {| headers := headers;
         rows := (fun line => fillRow headers 0 (parseLine line) ∅) <$> others |}
  end.
End Csv.

(** ** [app/draft/types.ts] *)

Module DraftPlayer.
Record t := mk {
  id : string;
  name : string;
  position : Scoring.Position;
  points : Q;
  vor : Q;
  tier : Z;
  raw : Scoring.CSVRow
}.
End DraftPlayer.
Abbreviation DraftPlayer := DraftPlayer.t.

Module DraftPick.
Record t := mk {
  round : Z;
  pick : Z;
  overall : Z;
  teamIndex : Z;
  player : DraftPlayer
}.
End DraftPick.
Abbreviation DraftPick := DraftPick.t.

Module TeamRoster.
Record t := mk {
  QB : list DraftPlayer;
  RB : list DraftPlayer;
  WR : list DraftPlayer;
  TE : list DraftPlayer
}.

(** [roster[position]] *)
Definition get (position : Scoring.Position) (roster : t) : list DraftPlayer :=
  match position with
  | Scoring.QB => QB roster
  | Scoring.RB => RB roster
  | Scoring.WR => WR roster
  | Scoring.TE => TE roster
  end.

(** [{ ...roster, [position]: bucket }] *)
Definition set (position : Scoring.Position) (bucket : list DraftPlayer)
    (roster : t) : t :=
  match position with
  | Scoring.QB => mk bucket (RB roster) (WR roster) (TE roster)
  | Scoring.RB => mk (QB roster) bucket (WR roster) (TE roster)
  | Scoring.WR => mk (QB roster) (RB roster) bucket (TE roster)
  | Scoring.TE => mk (QB roster) (RB roster) (WR roster) bucket
  end.
End TeamRoster.
Abbreviation TeamRoster := TeamRoster.t.

Module UpcomingPick.
Record t := mk { pick : Z; team : Z; isUser : bool }.
End UpcomingPick.
Abbreviation UpcomingPick := UpcomingPick.t.

Module TeamRanking.
Record t := mk {
  teamIndex : Z;
  name : option string;
  roster : TeamRoster;
  totalPoints : Q;
  starterPoints : Q;
  isUser : bool
}.
End TeamRanking.
Abbreviation TeamRanking := TeamRanking.t.

Inductive DraftPhase := setup | drafting | complete.

#[export] Instance DraftPhase_eq_dec : EqDecision DraftPhase.
Proof. solve_decision. Defined.

(** ** [app/draft/constants.ts] *)

Module Constants.
Import Scoring.

Definition NUM_TEAMS : Z := 12.
Definition ROUNDS : Z := 15.
Definition ROSTER_SIZE : Z := 15.

Record Target := { min : Z; max : Z }.

Definition ROSTER_TARGETS (pos : Position) : Target :=
  match pos with
  | QB => {| min := 1; max := 2 |}
  | RB => {| min := 4; max := 6 |}
  | WR => {| min := 4; max := 6 |}
  | TE => {| min := 1; max := 2 |}
  end.

Definition POSITION_VALUE (pos : Position) : Q :=
  match pos with
  | RB => 1.15
  | WR => 1.1
  | TE => 1.0
  | QB => 0.95
  end.

Definition REPLACEMENT_RANK (pos : Position) : Z :=
  match pos with
  | QB => 12
  | RB => 24
  | WR => 24
  | TE => 12
  end.

Definition TEAM_NAMES : list string :=
  ["Your Team"; "CPU Team 2"; "CPU Team 3"; "CPU Team 4"; "CPU Team 5";
   "CPU Team 6"; "CPU Team 7"; "CPU Team 8"; "CPU Team 9"; "CPU Team 10";
   "CPU Team 11"; "CPU Team 12"]%string.
End Constants.

(** ** [app/draft/utils.ts] *)

Module Utils.
Import Scoring.

(** [list.reduce ((sum, p) => sum + p.points, 0)] *)
Definition sumPoints (players : list DraftPlayer) : Q :=
  foldl (fun sum p => (sum + DraftPlayer.points p)%Q) 0%Q players.

Definition getTeamTotalPoints (roster : TeamRoster) : Q :=
  let allPlayers :=
    TeamRoster.QB roster ++ TeamRoster.RB roster
    ++ TeamRoster.WR roster ++ TeamRoster.TE roster in
  sumPoints allPlayers.

(** The comparator [(a, b) => b.points - a.points]. *)
Definition byPointsDesc (a b : DraftPlayer) : Q :=
  (DraftPlayer.points b - DraftPlayer.points a)%Q.

Definition getStarterPoints (roster : TeamRoster) : Q :=
  let qb := Js.slice 0 1 (TeamRoster.QB roster) in
  let rb := Js.slice 0 2 (TeamRoster.RB roster) in
  let wr := Js.slice 0 2 (TeamRoster.WR roster) in
  let te := Js.slice 0 1 (TeamRoster.TE roster) in
  let flexCandidates :=
    Js.sort byPointsDesc
      (Js.sliceFrom 2 (TeamRoster.RB roster)
       ++ Js.sliceFrom 2 (TeamRoster.WR roster)
       ++ Js.sliceFrom 1 (TeamRoster.TE roster)) in
  let flex := Js.slice 0 1 flexCandidates in
  sumPoints (qb ++ rb ++ wr ++ te ++ flex).

Definition getSnakeDraftTeamIndex (pickNumber numTeams : Z) : Z :=
  let round := Js.floorDiv pickNumber numTeams in
  let pickInRound := Js.remainder pickNumber numTeams in
  if (Js.remainder round 2 =? 0)%Z then pickInRound
  else (numTeams - 1 - pickInRound)%Z.

(** [countRosterPositions]: the count of one position. *)
Definition countRosterPositions (roster : TeamRoster) (pos : Position) : Z :=
  Z.of_nat (length (TeamRoster.get pos roster)).

Definition createEmptyRoster : TeamRoster := TeamRoster.mk [] [] [] [].

Definition isStarterSlot (position : Position) (index : Z) : bool :=
  match position with
  | QB | TE => (index =? 0)%Z
  | RB | WR => (index <=? 1)%Z
  end.

(** [getOrdinalSuffix]: [s[(v - 20) % 10] || s[v] || s[0]]; [None] stands
    for [undefined]. *)
Definition getOrdinalSuffix (n : Z) : option string :=
  let s := ["th"; "st"; "nd"; "rd"]%string in
  let v := Js.remainder n 100 in
  Js.orElse
    (Js.orElse (Js.at_ s (Js.remainder (v - 20) 10)) (Js.at_ s v))
    (Js.at_ s 0).
End Utils.

(** ** [app/draft/hooks.ts]: the [useDraft] hook *)

Module Hooks.
Import Scoring Constants Utils.

(** A value of [byName]: one listing per athlete after deduplication. *)
Module Entry.
Record t := mk { row : CSVRow; points : Q; name : string }.
End Entry.

Definition positionName (pos : Position) : string :=
  match pos with
  | QB => "QB"
  | RB => "RB"
  | WR => "WR"
  | TE => "TE"
  end.

(** The object pushed onto [playersByPosition[pos]] for an entry. *)
Definition newPlayer (pos : Position) (entry : Entry.t) : DraftPlayer :=
  DraftPlayer.mk
    (String.append (positionName pos) (String.append "-" (Entry.name entry)))
    (Entry.name entry) pos (Entry.points entry) 0%Q 0%Z (Entry.row entry).

(** First loop of [loadPlayers] for one position, after the fetch: push
    every entry, then sort by points descending.  A failed fetch leaves
    the position with no entry. *)
Definition sortedPool (pos : Position) (entries : list Entry.t)
    : list DraftPlayer :=
  Js.sort byPointsDesc (newPlayer pos <$> entries).

(** [p.vor = ...; p.tier = ...] *)
Definition assign (p : DraftPlayer) (vor : Q) (tier : Z) : DraftPlayer :=
  DraftPlayer.mk (DraftPlayer.id p) (DraftPlayer.name p)
    (DraftPlayer.position p) (DraftPlayer.points p) vor tier
    (DraftPlayer.raw p).

(** [players[REPLACEMENT_RANK[pos] - 1]?.points ?? 0] *)
Definition replacementValue (pos : Position) (players : list DraftPlayer) : Q :=
  match players !! Z.to_nat (REPLACEMENT_RANK pos - 1) with
  | Some p => DraftPlayer.points p
  | None => 0%Q
  end.

(** Second loop of [loadPlayers] for one position. *)
Definition calculateVOR (pos : Position) (players : list DraftPlayer)
    : list DraftPlayer :=
  let replacementValue := replacementValue pos players in
  imap (fun idx p =>
          assign p (DraftPlayer.points p - replacementValue)%Q
            (Js.floorDiv (Z.of_nat idx) 4 + 1)%Z)
       players.

(** [playersByPosition[pos]] once both loops have run. *)
Definition valuedPool (pos : Position) (entries : list Entry.t)
    : list DraftPlayer :=
  calculateVOR pos (sortedPool pos entries).

(** The comparator [(a, b) => b.vor - a.vor]. *)
Definition byVorDesc (a b : DraftPlayer) : Q :=
  (DraftPlayer.vor b - DraftPlayer.vor a)%Q.

(** [loadPlayers]: the list stored as [allPlayers] and
    [availablePlayers]. *)
Definition loadPlayers (byName : Position -> list Entry.t) : list DraftPlayer :=
  let all :=
    valuedPool QB (byName QB) ++ valuedPool RB (byName RB)
    ++ valuedPool WR (byName WR) ++ valuedPool TE (byName TE) in
  Js.sort byVorDesc all.

(** The state cells of the hook that the draft logic reads or writes. *)
Record State := mkState {
  allPlayers : list DraftPlayer;
  availablePlayers : list DraftPlayer;
  draftPicks : list DraftPick;
  teamRosters : list TeamRoster;
  draftPhase : DraftPhase;
  userPickPosition : Z;
  autopick : bool
}.

(** Derived values *)
Definition currentPick (st : State) : Z := Z.of_nat (length (draftPicks st)).
Definition currentRound (st : State) : Z :=
  (Js.floorDiv (currentPick st) NUM_TEAMS + 1)%Z.
Definition currentTeamIndex (st : State) : Z :=
  getSnakeDraftTeamIndex (currentPick st) NUM_TEAMS.
Definition userTeamIndex (st : State) : Z := (userPickPosition st - 1)%Z.
Definition isUserTurn (st : State) : bool :=
  (currentTeamIndex st =? userTeamIndex st)%Z.
Definition isDraftComplete (st : State) : bool :=
  (currentPick st >=? ROUNDS * NUM_TEAMS)%Z.

(** The score [getCPUPick] gives a candidate; [rand] is the value
    [Math.random ()] returns for it. *)
Definition candidateScore (counts : Position -> Z)
    (neededPositions : list Position) (round : Z) (rand : Q)
    (p : DraftPlayer) : Q :=
  let pos := DraftPlayer.position p in
  let score := (DraftPlayer.vor p * POSITION_VALUE pos)%Q in
  let score :=
    if bool_decide (pos ∈ neededPositions) then (score * 1.3)%Q else score in
  let score := if (DraftPlayer.tier p <=? 2)%Z then (score * 1.1)%Q else score in
  let score :=
    if (round >=? 8)%Z
       && (bool_decide (pos = QB) || bool_decide (pos = TE))
       && (counts pos =? 0)%Z
    then (score * 1.25)%Q else score in
  (score * (0.95 + rand * 0.1))%Q.

(** [getCPUPick]; [random i] is the result of the [i]-th call of
    [Math.random] (one call per candidate, in order). *)
Definition getCPUPick (random : nat -> Q) (available : list DraftPlayer)
    (teamRoster : TeamRoster) (round : Z) : option DraftPlayer :=
  if (length available =? 0)%nat then None
  else
    let counts := countRosterPositions teamRoster in
    let totalPicks := (counts QB + counts RB + counts WR + counts TE)%Z in
    let picksRemaining := (ROSTER_SIZE - totalPicks)%Z in
    let neededPositions :=
      filter (fun pos => (counts pos < min (ROSTER_TARGETS pos))%Z)
             [QB; RB; WR; TE] in
    let candidates :=
      filter (fun p => (counts (DraftPlayer.position p)
                        < max (ROSTER_TARGETS (DraftPlayer.position p)))%Z)
             available in
    let candidates :=
      if (length candidates =? 0)%nat then available else candidates in
    let candidates :=
      if (0 <? length neededPositions)%nat
         && (picksRemaining <=? Z.of_nat (length neededPositions) + 2)%Z
      then
        let urgentCandidates :=
          filter (fun p => DraftPlayer.position p ∈ neededPositions)
                 candidates in
        if (0 <? length urgentCandidates)%nat then urgentCandidates
        else candidates
      else candidates in
    let scored :=
      imap (fun i p =>
              (p, candidateScore counts neededPositions round (random i) p))
           candidates in
    let scored := Js.sort (fun a b => (snd b - snd a)%Q) scored in
    match head scored with
    | Some first => Some (fst first)
    | None => head available
    end.

(** [makePick].  [None] stands for the [TypeError] raised when
    [updated[teamIndex]] is [undefined]. *)
Definition makePick (st : State) (player : DraftPlayer) : option State :=
  let pickNumber := Z.of_nat (length (draftPicks st)) in
  let round := (Js.floorDiv pickNumber NUM_TEAMS + 1)%Z in
  let pickInRound := (Js.remainder pickNumber NUM_TEAMS + 1)%Z in
  let teamIndex := getSnakeDraftTeamIndex pickNumber NUM_TEAMS in
  let pick := DraftPick.mk round pickInRound (pickNumber + 1)%Z teamIndex player in
  match teamRosters st !! Z.to_nat teamIndex with
  | None => None
  | Some roster =>
      let position := DraftPlayer.position player in
      Some {|
        allPlayers := allPlayers st;
        availablePlayers :=
          filter (fun p => DraftPlayer.id p ≠ DraftPlayer.id player)
                 (availablePlayers st);
        draftPicks := draftPicks st ++ [pick];
        teamRosters :=
          <[Z.to_nat teamIndex :=
              TeamRoster.set position
                (TeamRoster.get position roster ++ [player]) roster]>
            (teamRosters st);
        draftPhase :=
          if (pickNumber + 1 >=? ROUNDS * NUM_TEAMS)%Z then complete
          else draftPhase st;
        userPickPosition := userPickPosition st;
        autopick := autopick st
      |}
  end.

Definition handleUserPick (st : State) (player : DraftPlayer) : option State :=
  if negb (isUserTurn st) || negb (bool_decide (draftPhase st = drafting))
  then Some st
  else makePick st player.

(** The auto-draft effect once its timer fires.  [None] as in [makePick],
    and when [teamRosters[currentTeamIndex]] is [undefined]. *)
Definition autoDraft (random : nat -> Q) (st : State) : option State :=
  if negb (bool_decide (draftPhase st = drafting)) then Some st
  else if isUserTurn st && negb (autopick st) then Some st
  else if (length (availablePlayers st) =? 0)%nat then Some st
  else
    match teamRosters st !! Z.to_nat (currentTeamIndex st) with
    | None => None
    | Some teamRoster =>
        match getCPUPick random (availablePlayers st) teamRoster
                (currentRound st) with
        | Some pick => makePick st pick
        | None => Some st
        end
    end.

(** [Array.from ({ length: NUM_TEAMS }, createEmptyRoster)] *)
Definition emptyRosters : list TeamRoster :=
  replicate (Z.to_nat NUM_TEAMS) createEmptyRoster.

Definition startDraft (st : State) : State :=
  {| allPlayers := allPlayers st;
     availablePlayers := allPlayers st;
     draftPicks := [];
     teamRosters := emptyRosters;
     draftPhase := drafting;
     userPickPosition := userPickPosition st;
     autopick := autopick st |}.

Definition resetDraft (st : State) : State :=
  {| allPlayers := allPlayers st;
     availablePlayers := allPlayers st;
     draftPicks := [];
     teamRosters := emptyRosters;
     draftPhase := setup;
     userPickPosition := userPickPosition st;
     autopick := false |}.

(** The hook once mounted: the [useState] defaults, with the rosters set
    by the mount effect. *)
Definition mounted : State :=
  {| allPlayers := [];
     availablePlayers := [];
     draftPicks := [];
     teamRosters := emptyRosters;
     draftPhase := setup;
     userPickPosition := 1;
     autopick := false |}.

(** The end of [loadPlayers]: [setAllPlayers (all)] and
    [setAvailablePlayers (all)]. *)
Definition playersLoaded (all : list DraftPlayer) (st : State) : State :=
  {| allPlayers := all;
     availablePlayers := all;
     draftPicks := draftPicks st;
     teamRosters := teamRosters st;
     draftPhase := draftPhase st;
     userPickPosition := userPickPosition st;
     autopick := autopick st |}.

Definition setUserPickPosition (pos : Z) (st : State) : State :=
  {| allPlayers := allPlayers st;
     availablePlayers := availablePlayers st;
     draftPicks := draftPicks st;
     teamRosters := teamRosters st;
     draftPhase := draftPhase st;
     userPickPosition := pos;
     autopick := autopick st |}.

Definition setAutopick (v : bool) (st : State) : State :=
  {| allPlayers := allPlayers st;
     availablePlayers := availablePlayers st;
     draftPicks := draftPicks st;
     teamRosters := teamRosters st;
     draftPhase := draftPhase st;
     userPickPosition := userPickPosition st;
     autopick := v |}.

(** The loop of [getUpcomingPicks] from [i] on, [steps] iterations at
    most. *)
Fixpoint upcomingFrom (st : State) (i : Z) (steps : nat) : list UpcomingPick :=
  match steps with
  | O => []
  | S steps' =>
      let pickNum := (currentPick st + i)%Z in
      if (pickNum >=? ROUNDS * NUM_TEAMS)%Z then []
      else
        let teamIdx := getSnakeDraftTeamIndex pickNum NUM_TEAMS in
        UpcomingPick.mk (pickNum + 1)%Z (teamIdx + 1)%Z
          (teamIdx =? userTeamIndex st)%Z
        :: upcomingFrom st (i + 1)%Z steps'
  end.

(** [getUpcomingPicks (count)] for an integer [count]. *)
Definition getUpcomingPicks (st : State) (count : Z) : list UpcomingPick :=
  upcomingFrom st 0 (Z.to_nat count).

(** The comparator [(a, b) => b.starterPoints - a.starterPoints]. *)
Definition byStarterPointsDesc (a b : TeamRanking) : Q :=
  (TeamRanking.starterPoints b - TeamRanking.starterPoints a)%Q.

(** [teamRankings] *)
Definition teamRankings (st : State) : list TeamRanking :=
  Js.sort byStarterPointsDesc
    (imap (fun idx roster =>
             TeamRanking.mk (Z.of_nat idx)
               (if (Z.of_nat idx =? userTeamIndex st)%Z
                then Some "Your Team"%string
                else Js.at_ TEAM_NAMES (Z.of_nat idx))
               roster (getTeamTotalPoints roster) (getStarterPoints roster)
               (Z.of_nat idx =? userTeamIndex st)%Z)
          (teamRosters st)).

(** [teamRosters[userTeamIndex] ?? createEmptyRoster ()] *)
Definition userRoster (st : State) : TeamRoster :=
  default createEmptyRoster (Js.at_ (teamRosters st) (userTeamIndex st)).

Section PlayerFilter.
(** [String.prototype.toLowerCase], whatever it does to each text. *)
Variable toLowerCase : string -> string.

(** [usePlayerFilter]: [filterPosition] is a position, or [None] for
    ["ALL"]. *)
Definition filteredPlayers (availablePlayers : list DraftPlayer)
    (searchQuery : string) (filterPosition : option Position)
    : list DraftPlayer :=
  List.filter
    (fun p =>
       let matchesSearch :=
         Js.includes (toLowerCase (DraftPlayer.name p))
                     (toLowerCase searchQuery) in
       let matchesPosition :=
         match filterPosition with
         | None => true
         | Some pos => bool_decide (DraftPlayer.position p = pos)
         end in
       matchesSearch && matchesPosition)
    availablePlayers.
End PlayerFilter.
End Hooks.

(** ** [app/draft/page.tsx]: what the page lets happen to the hook *)

Module DraftPage.
Import Scoring Constants Utils Hooks.

Inductive Event :=
| PlayersLoaded (byName : Position -> list Entry.t)
    (* [loadPlayers] finishes: on mount, and after the scoring format is
       changed on the setup screen *)
| SetUserPickPosition (pos : Z)  (* one of the buttons 1..12, setup screen *)
| StartDraft                     (* [onStartDraft], setup screen *)
| PlayerClick (row : nat)        (* [onPlayerClick] on a row of the board *)
| SetAutopick (v : bool)         (* the toggle of the draft header *)
| Exit                           (* [onExit], draft header *)
| DraftAgain                     (* [onDraftAgain], results screen *)
| TimerFires (random : nat -> Q) (* the timeout of the auto-draft effect *).

(** The page renders one screen per phase, so an event can only come from
    the screen of the current phase; the board lists available players
    only.  [None]: the event is not on offer, or a [TypeError] was
    raised. *)
Definition dispatch (st : State) (ev : Event) : option State :=
  match ev, draftPhase st with
  | PlayersLoaded byName, setup => Some (playersLoaded (loadPlayers byName) st)
  | SetUserPickPosition pos, setup =>
      if ((1 <=? pos) && (pos <=? 12))%Z then Some (setUserPickPosition pos st)
      else None
  | StartDraft, setup => Some (startDraft st)
  | PlayerClick row, drafting =>
      match availablePlayers st !! row with
      | Some player => handleUserPick st player
      | None => None
      end
  | SetAutopick v, drafting => Some (setAutopick v st)
  | Exit, drafting => Some (resetDraft st)
  | DraftAgain, complete => Some (resetDraft st)
  | TimerFires random, _ => autoDraft random st
  | _, _ => None
  end.

Fixpoint run (st : State) (events : list Event) : option State :=
  match events with
  | [] => Some st
  | ev :: rest =>
      match dispatch st ev with
      | Some st' => run st' rest
      | None => None
      end
  end.

Definition reachable (st : State) : Prop :=
  exists events, run mounted events = Some st.
End DraftPage.

(** ** [app/draft/components]: what [DraftResults] derives *)

Module Components.

(** [teamRankings.findIndex ((t) => t.isUser) + 1] *)
Fixpoint findIndexFrom (rankings : list TeamRanking) (i : Z) : Z :=
  match rankings with
  | [] => (-1)%Z
  | t :: rest => if TeamRanking.isUser t then i else findIndexFrom rest (i + 1)%Z
  end.

Definition userRank (teamRankings : list TeamRanking) : Z :=
  (findIndexFrom teamRankings 0 + 1)%Z.

(** [teamRankings.find ((t) => t.isUser)] *)
Definition userTeam (teamRankings : list TeamRanking) : option TeamRanking :=
  List.find TeamRanking.isUser teamRankings.
End Components.

(** ** The single-file variant of the draft page *)

Module LegacyPage.
Import Scoring Constants Utils.

(** The comparator of [loadAll]:
    [bValue - aValue] with [xValue = x.vor * POSITION_VALUE[x.position]]. *)
Definition byValueDesc (a b : DraftPlayer) : Q :=
  let aValue := (DraftPlayer.vor a * POSITION_VALUE (DraftPlayer.position a))%Q in
  let bValue := (DraftPlayer.vor b * POSITION_VALUE (DraftPlayer.position b))%Q in
  (bValue - aValue)%Q.

(** [loadAll]: its two loops are those of [Hooks.loadPlayers], statement
    for statement; only the final comparator differs. *)
Definition loadAll (byName : Position -> list Hooks.Entry.t) : list DraftPlayer :=
  let all :=
    Hooks.valuedPool QB (byName QB) ++ Hooks.valuedPool RB (byName RB)
    ++ Hooks.valuedPool WR (byName WR) ++ Hooks.valuedPool TE (byName TE) in
  Js.sort byValueDesc all.
End LegacyPage.

(** ** [app/my-team/page.tsx]: the team builder *)

Module MyTeam.
Import Scoring.

Module Player.
Record t := mk {
  id : string;
  name : string;
  position : Position;
  points : Q;
  raw : CSVRow
}.
End Player.
Abbreviation Player := Player.t.

Inductive RosterSlot := starter | bench.

#[export] Instance RosterSlot_eq_dec : EqDecision RosterSlot.
Proof. solve_decision. Defined.

(** [RosterPlayer = Player & { slot }] *)
Module RosterPlayer.
Record t := mk {
  id : string;
  name : string;
  position : Position;
  points : Q;
  raw : CSVRow;
  slot : RosterSlot
}.

(** [{ ...p, slot }] *)
Definition withSlot (p : t) (slot : RosterSlot) : t :=
  mk (id p) (name p) (position p) (points p) (raw p) slot.

(** [{ ...p, points }] *)
Definition withPoints (p : t) (points : Q) : t :=
  mk (id p) (name p) (position p) points (raw p) (slot p).
End RosterPlayer.
Abbreviation RosterPlayer := RosterPlayer.t.

Definition POSITION_LIMITS (pos : Position) : Z :=
  match pos with
  | QB => 2
  | RB => 5
  | WR => 5
  | TE => 4
  end.

Definition STARTER_LIMITS (pos : Position) : Z :=
  match pos with
  | QB => 1
  | RB => 2
  | WR => 2
  | TE => 1
  end.

(** [rosterCounts[pos]]: one increment per rostered player of the
    position. *)
Definition rosterCounts (roster : list RosterPlayer) (pos : Position) : Z :=
  Z.of_nat
    (length (filter (fun p => RosterPlayer.position p = pos) roster)).

(** [starterCounts[pos]]: the same over the starters. *)
Definition starterCounts (roster : list RosterPlayer) (pos : Position) : Z :=
  Z.of_nat
    (length
       (filter (fun p => RosterPlayer.position p = pos)
          (filter (fun p => RosterPlayer.slot p = starter) roster))).

Definition canAddPlayer (roster : list RosterPlayer) (player : Player) : bool :=
  let isOnRoster :=
    existsb (fun p => String.eqb (RosterPlayer.id p) (Player.id player)) roster in
  if isOnRoster then false
  else (rosterCounts roster (Player.position player)
        <? POSITION_LIMITS (Player.position player))%Z.

Definition canSetStarter (roster : list RosterPlayer) (player : RosterPlayer)
    : bool :=
  if bool_decide (RosterPlayer.slot player = starter) then true
  else (starterCounts roster (RosterPlayer.position player)
        <? STARTER_LIMITS (RosterPlayer.position player))%Z.

Definition addPlayer (roster : list RosterPlayer) (player : Player)
    : list RosterPlayer :=
  if negb (canAddPlayer roster player) then roster
  else
    let isStarter :=
      (starterCounts roster (Player.position player)
       <? STARTER_LIMITS (Player.position player))%Z in
    roster
    ++ [RosterPlayer.mk (Player.id player) (Player.name player)
          (Player.position player) (Player.points player) (Player.raw player)
          (if isStarter then starter else bench)].

Definition removePlayer (roster : list RosterPlayer) (playerId : string)
    : list RosterPlayer :=
  filter (fun p => RosterPlayer.id p ≠ playerId) roster.

Definition toggleSlot (roster : list RosterPlayer) (playerId : string)
    : list RosterPlayer :=
  (fun p =>
     if negb (String.eqb (RosterPlayer.id p) playerId) then p
     else if bool_decide (RosterPlayer.slot p = starter)
     then RosterPlayer.withSlot p bench
     else
       let currentStarters :=
         Z.of_nat
           (length
              (filter (fun x => RosterPlayer.position x = RosterPlayer.position p
                                /\ RosterPlayer.slot x = starter)
                      roster)) in
       if (currentStarters <? STARTER_LIMITS (RosterPlayer.position p))%Z
       then RosterPlayer.withSlot p starter
       else p)
  <$> roster.

(** The effect that recomputes the points of the roster when the scoring
    format changes. *)
Definition rescore (scoring : Scoring) (roster : list RosterPlayer)
    : list RosterPlayer :=
  (fun p =>
     RosterPlayer.withPoints p
       (computeFantasyPoints (RosterPlayer.raw p) (RosterPlayer.position p)
          scoring))
  <$> roster.

(** [list.reduce ((sum, p) => sum + p.points, 0)] *)
Definition sumPoints (players : list RosterPlayer) : Q :=
  foldl (fun sum p => (sum + RosterPlayer.points p)%Q) 0%Q players.

Definition starterPoints (roster : list RosterPlayer) : Q :=
  sumPoints (filter (fun p => RosterPlayer.slot p = starter) roster).

Definition totalPoints (roster : list RosterPlayer) : Q := sumPoints roster.

(** What the page lets happen to the roster. *)
Inductive Event :=
| AddPlayer (player : Player)
| RemovePlayer (playerId : string)
| ToggleSlot (playerId : string)
| SetScoring (scoring : Scoring)
| ClearRoster.

Definition dispatch (roster : list RosterPlayer) (ev : Event)
    : list RosterPlayer :=
  match ev with
  | AddPlayer player => addPlayer roster player
  | RemovePlayer playerId => removePlayer roster playerId
  | ToggleSlot playerId => toggleSlot roster playerId
  | SetScoring scoring => rescore scoring roster
  | ClearRoster => []
  end.

(** The roster after a sequence of events, from the empty roster the page
    starts with. *)
Definition run (events : list Event) : list RosterPlayer :=
  foldl dispatch [] events.
End MyTeam.

(** ** The rankings page *)

Module Home.
Import Scoring.

(** A cell of a table row: text from the file, or a computed number. *)
Inductive Value :=
| Text (s : string)
| Num (n : Q).

(** [toNumber (value, fallback = 0)] on any cell. *)
Definition toNumber (value : option Value) (fallback : Q) : Q :=
  match value with
  | Some (Num n) => n
  | None => fallback
  | Some (Text text) =>
      match Js.parseFloat (Js.removeCommas text) with
      | Js.Finite n => n
      | _ => fallback
      end
  end.

(** [TableRow]: the columns of the file with [__points] and [__rank]. *)
Module TableRow.
Record t := mk { row : CSVRow; points : Q; rank : Z }.

(** [r[key]]: the two computed columns hide columns of the same name. *)
Definition get (r : t) (key : string) : option Value :=
  if String.eqb key "__points" then Some (Num (points r))
  else if String.eqb key "__rank" then Some (Num (inject_Z (rank r)))
  else Text <$> row r !! key.
End TableRow.
Abbreviation TableRow := TableRow.t.

(** The comparator [(a, b) => b.__points - a.__points]. *)
Definition byPointsDesc (a b : TableRow) : Q :=
  (TableRow.points b - TableRow.points a)%Q.

(** The rows [load] stores: scored, sorted, ranked. *)
Definition load (r : list CSVRow) (position : Position) (scoring : Scoring)
    : list TableRow :=
  let computed :=
    (fun row =>
       TableRow.mk row (computeFantasyPoints row position scoring) 0%Z)
    <$> r in
  let computed := Js.sort byPointsDesc computed in
  imap (fun idx row =>
          TableRow.mk (TableRow.row row) (TableRow.points row)
            (Z.of_nat idx + 1)%Z)
       computed.

Inductive Direction := asc | desc.

#[export] Instance Direction_eq_dec : EqDecision Direction.
Proof. solve_decision. Defined.

Record SortConfig := mkSortConfig { key : string; direction : Direction }.

(** The initial sort configuration. *)
Definition defaultSort : SortConfig :=
  {| key := "__points"; direction := desc |}.

(** The comparator of [sortedRows]. *)
Definition bySortConfig (sortConfig : SortConfig) (a b : TableRow) : Q :=
  let aVal := toNumber (TableRow.get a (key sortConfig)) 0 in
  let bVal := toNumber (TableRow.get b (key sortConfig)) 0 in
  match direction sortConfig with
  | desc => (bVal - aVal)%Q
  | asc => (aVal - bVal)%Q
  end.

Definition sortedRows (rows : list TableRow) (sortConfig : SortConfig)
    : list TableRow :=
  Js.sort (bySortConfig sortConfig) rows.

Definition handleSort (prev : SortConfig) (key' : string) : SortConfig :=
  {| key := key';
     direction :=
       if String.eqb (key prev) key' && bool_decide (direction prev = desc)
       then asc else desc |}.
End Home.

(** ** Plain objects used as dictionaries *)

Module PlainObject.

(** The own properties of an object created as [{}]: string keys in the
    order of their creation.  [Object.prototype] stands behind them. *)
Definition t (V : Type) : Type := list (string * V).

(** The property names of [Object.prototype]. *)
Definition prototypeNames : list string :=
  ["constructor"; "__defineGetter__"; "__defineSetter__"; "hasOwnProperty";
   "__lookupGetter__"; "__lookupSetter__"; "isPrototypeOf";
   "propertyIsEnumerable"; "toString"; "valueOf"; "__proto__";
   "toLocaleString"]%string.

(** What [o[k]] finds: an own property, a property of [Object.prototype]
    (a function, or the prototype itself for ["__proto__"]), or nothing. *)
Inductive Lookup (V : Type) : Type :=
| Own (v : V)
| Inherited
| Undefined.
Arguments Own {V} v.
Arguments Inherited {V}.
Arguments Undefined {V}.

Fixpoint getOwn {V} (o : t V) (k : string) : option V :=
  match o with
  | [] => None
  | (k', v) :: rest => if String.eqb k' k then Some v else getOwn rest k
  end.

(** [o[k]] *)
Definition get {V} (o : t V) (k : string) : Lookup V :=
  match getOwn o k with
  | Some v => Own v
  | None => if bool_decide (k ∈ prototypeNames) then Inherited else Undefined
  end.

(** [o[k] = v] for a key other than ["__proto__"]: an own property keeps
    its place, a new one comes last. *)
Fixpoint set {V} (o : t V) (k : string) (v : V) : t V :=
  match o with
  | [] => [(k, v)]
  | (k', v') :: rest =>
      if String.eqb k' k then (k', v) :: rest else (k', v') :: set rest k v
  end.

(** The array index a key stands for: the decimal numeral, without
    leading zero, of an integer from 0 to 2^32 - 2. *)
Definition arrayIndex (k : string) : option Z :=
  match k with
  | EmptyString => None
  | String c rest =>
      let '(value, _, tail) := Js.digits k 0%Z 0%nat in
      if match tail with EmptyString => true | _ => false end
         && (negb (Ascii.eqb c "0"%char)
             || match rest with EmptyString => true | _ => false end)
         && (value <? 2 ^ 32 - 1)%Z
      then Some value else None
  end.

Fixpoint insertByIndex {V} (i : Z) (kv : string * V)
    (l : list (Z * (string * V))) : list (Z * (string * V)) :=
  match l with
  | [] => [(i, kv)]
  | (j, kv') :: rest =>
      if (i <? j)%Z then (i, kv) :: l else (j, kv') :: insertByIndex i kv rest
  end.

(** The properties whose key is an array index, in ascending order of
    the index. *)
Fixpoint indexed {V} (o : t V) : list (Z * (string * V)) :=
  match o with
  | [] => []
  | kv :: rest =>
      match arrayIndex (fst kv) with
      | Some i => insertByIndex i kv (indexed rest)
      | None => indexed rest
      end
  end.

(** The order in which [Object.keys] and [Object.values] go through the
    own properties: array indices first, ascending, then the other keys in
    the order of their creation. *)
Definition ordered {V} (o : t V) : t V :=
  (snd <$> indexed o)
  ++ List.filter (fun kv => match arrayIndex (fst kv) with
                            | Some _ => false
                            | None => true
                            end) o.

Definition keys {V} (o : t V) : list string := fst <$> ordered o.
Definition values {V} (o : t V) : list V := snd <$> ordered o.
End PlainObject.

(** ** [app/draft/hooks.ts]: the files behind [loadPlayers] *)

Module Loader.
Import Scoring.

Section Load.
(** [String.prototype.toLowerCase], whatever it does to each text. *)
Variable toLowerCase : string -> string.
Variable scoring : Scoring.

(** [Object.keys (rows[0])] for a row of [parseCSV]: every header became
    a property when it first occurred, ["__proto__"] apart. *)
Definition rowKeys (headers : list string) : list string :=
  PlainObject.keys
    (foldl (fun (o : PlainObject.t unit) h =>
              if String.eqb h "__proto__" then o else PlainObject.set o h tt)
           [] headers).

(** [rows.length > 0 ? detectPlayerNameKey (rows[0]) : null] *)
Definition nameKeyOf (parsed : Csv.Parsed) : option string :=
  match Csv.rows parsed with
  | [] => None
  | _ :: _ => detectPlayerNameKey toLowerCase (rowKeys (Csv.headers parsed))
  end.

(** [nameKey ? String (row[nameKey]) : `Player ${idx}`]; an empty key is
    falsy.  Every row of [parseCSV] has the key of its first row, so
    [row[nameKey]] is a string. *)
Definition rawNameOf (nameKey : option string) (row : CSVRow) (idx : nat)
    : string :=
  match nameKey with
  | Some (String _ _ as k) => default "undefined"%string (row !! k)
  | _ => String.append "Player " (pretty idx)
  end.

(** One round of [rows.forEach]: the row is stored under its key when the
    key is new ([!byName[key]]) or the row has more points than the entry
    stored ([points > byName[key].points]).  Under a property name of
    [Object.prototype], [byName[key]] is truthy and its [points] are
    [undefined]: the row is not stored. *)
Definition visit (position : Position) (nameKey : option string)
    (byName : PlainObject.t Hooks.Entry.t) (idx : nat) (row : CSVRow)
    : PlainObject.t Hooks.Entry.t :=
  let rawName := rawNameOf nameKey row idx in
  let key := Js.trim (toLowerCase rawName) in
  let points := computeFantasyPoints row position scoring in
  let stores :=
    match PlainObject.get byName key with
    | PlainObject.Undefined => true
    | PlainObject.Own entry => negb (Qle_bool points (Hooks.Entry.points entry))
    | PlainObject.Inherited => false
    end in
  if stores then PlainObject.set byName key (Hooks.Entry.mk row points rawName)
  else byName.

(** [rows.forEach] from row number [idx] on. *)
Fixpoint dedupeFrom (position : Position) (nameKey : option string)
    (rows : list CSVRow) (idx : nat) (byName : PlainObject.t Hooks.Entry.t)
    : PlainObject.t Hooks.Entry.t :=
  match rows with
  | [] => byName
  | row :: later =>
      dedupeFrom position nameKey later (S idx)
        (visit position nameKey byName idx row)
  end.

(** The entries pushed for one position.  [response] is the text of the
    file, or [None] when the fetch fails or is not [ok]: the position is
    then left without a player. *)
Definition entriesOf (position : Position) (response : option string)
    : list Hooks.Entry.t :=
  match response with
  | None => []
  | Some text =>
      let parsed := Csv.parseCSV text in
      let nameKey := nameKeyOf parsed in
      PlainObject.values (dedupeFrom position nameKey (Csv.rows parsed) 0 [])
  end.

(** [loadPlayers], from the four responses to the list stored as
    [allPlayers] and [availablePlayers]. *)
Definition loadPlayers (responses : Position -> option string)
    : list DraftPlayer :=
  Hooks.loadPlayers (fun position => entriesOf position (responses position)).
End Load.
End Loader.

(** * The vocabulary of the specification, and the scenarios *)

Section Vocabulary.
Import Scoring Constants Utils Hooks DraftPage.

(** The specification's reading of a stat field: absent or unparsable
    counts as 0. *)
Definition statValue_spec (row : CSVRow) (field : string) : Q :=
  match row !! field with
  | None => 0%Q
  | Some text =>
      let parsed := Js.parseFloat (Js.removeCommas text) in
      if Js.isFinite parsed
      then match parsed with Js.Finite n => n | _ => 0%Q end
      else 0%Q
  end.

Definition receptionWeight_spec (scoring : Scoring) : Q :=
  match scoring with
  | STANDARD => 0%Q
  | HALF_PPR => 0.5%Q
  | PPR => 1%Q
  end.

(** The specification's rule, before rounding. *)
Definition scoringRule_spec (row : CSVRow) (scoring : Scoring) : Q :=
  (statValue_spec row "PassingYDS_pred" * 0.04
   + statValue_spec row "PassingTD_pred" * 4
   + statValue_spec row "PassingInt_pred" * -2
   + statValue_spec row "RushingYDS_pred" * 0.1
   + statValue_spec row "RushingTD_pred" * 6
   + statValue_spec row "ReceivingYDS_pred" * 0.1
   + statValue_spec row "ReceivingTD_pred" * 6
   + statValue_spec row "ReceivingRec_pred" * receptionWeight_spec scoring)%Q.

(** [r] is [x] rounded to 2 decimal places: a whole number of hundredths,
    no further than half a hundredth from [x]. *)
Definition roundedTo2 (x r : Q) : Prop :=
  (exists n : Z, r == inject_Z n / 100)%Q /\ (Qabs (r - x) <= 1 # 200)%Q.

(** The scenario row of the specification. *)
Definition scenarioRow : CSVRow :=
  {[ "PassingYDS_pred"%string := "300"%string;
     "PassingTD_pred"%string := "2"%string;
     "PassingInt_pred"%string := "1"%string;
     "RushingYDS_pred"%string := "10"%string ]}.

(** [a] may stand before [b] in descending order of [key]. *)
Definition notBelow {A : Type} (key : A -> Q) (a b : A) : Prop :=
  (key b <= key a)%Q.

(** A bucket in descending order of points. *)
Definition descendingPoints (bucket : list DraftPlayer) : Prop :=
  StronglySorted (notBelow DraftPlayer.points) bucket.

Definition sortedBuckets (roster : TeamRoster) : Prop :=
  forall pos, descendingPoints (TeamRoster.get pos roster).

(** The specification's words: the best [n] of a bucket by points, and
    the players left once they are taken. *)
Definition bestN_spec (n : nat) (bucket : list DraftPlayer) : list DraftPlayer :=
  take n (Js.sort byPointsDesc bucket).
Definition remaining_spec (n : nat) (bucket : list DraftPlayer) : list DraftPlayer :=
  drop n (Js.sort byPointsDesc bucket).

(** The highest points value of a pool, if it has a player. *)
Fixpoint highestPoints (pool : list DraftPlayer) : option Q :=
  match pool with
  | [] => None
  | p :: rest =>
      match highestPoints rest with
      | None => Some (DraftPlayer.points p)
      | Some m =>
          Some (if Qle_bool m (DraftPlayer.points p)
                then DraftPlayer.points p else m)
      end
  end.

(** The flex slot: the single highest-points player of the pool, nothing
    when the pool is empty. *)
Definition flexPoints_spec (pool : list DraftPlayer) : Q :=
  default 0%Q (highestPoints pool).

Definition starterPoints_spec (roster : TeamRoster) : Q :=
  (sumPoints (bestN_spec 1 (TeamRoster.QB roster))
   + sumPoints (bestN_spec 2 (TeamRoster.RB roster))
   + sumPoints (bestN_spec 2 (TeamRoster.WR roster))
   + sumPoints (bestN_spec 1 (TeamRoster.TE roster))
   + flexPoints_spec (remaining_spec 2 (TeamRoster.RB roster)
                      ++ remaining_spec 2 (TeamRoster.WR roster)
                      ++ remaining_spec 1 (TeamRoster.TE roster)))%Q.

Definition playerWithPoints (pos : Position) (name : string) (points : Q)
    : DraftPlayer :=
  DraftPlayer.mk name name pos points 0%Q 1%Z ∅.

(** The scenario roster: running backs worth 20, 15, 10 and 5 points. *)
Definition scenarioRoster : TeamRoster :=
  TeamRoster.mk []
    [playerWithPoints RB "a" 20; playerWithPoints RB "b" 15;
     playerWithPoints RB "c" 10; playerWithPoints RB "d" 5]
    [] [].

(** The position-weighted VOR of the specification. *)
Definition weightedVor (p : DraftPlayer) : Q :=
  (DraftPlayer.vor p * POSITION_VALUE (DraftPlayer.position p))%Q.

(** Every player stands before its successor only if [key] does not
    increase. *)
Definition adjacentDescending (key : DraftPlayer -> Q) (l : list DraftPlayer)
    : Prop :=
  forall i a b, l !! i = Some a -> l !! S i = Some b -> (key b <= key a)%Q.

(** One quarterback worth 10 points and one running back worth 9. *)
Definition twoListings (pos : Position) : list Entry.t :=
  match pos with
  | QB => [Entry.mk ∅ 10 "A"]
  | RB => [Entry.mk ∅ 9 "B"]
  | _ => []
  end.

(** [n] listings named [prefix0], [prefix1], ... worth [top],
    [top - step], ... points. *)
Definition listings (prefix : string) (n : nat) (top step : Z) : list Entry.t :=
  (fun i => Entry.mk ∅ (inject_Z (top - step * Z.of_nat i))
              (String.append prefix (pretty i)))
  <$> seq 0 n.

(** [roster] holds fewer players at the position of [p] than the maximum. *)
Definition belowMax (roster : TeamRoster) (p : DraftPlayer) : Prop :=
  (countRosterPositions roster (DraftPlayer.position p)
   < max (ROSTER_TARGETS (DraftPlayer.position p)))%Z.

Definition ids (players : list DraftPlayer) : list string :=
  DraftPlayer.id <$> players.

(** How the phase and the length of the ledger go together. *)
Definition phaseLedger (st : State) : Prop :=
  match draftPhase st with
  | setup => draftPicks st = []
  | drafting => (Z.of_nat (length (draftPicks st)) < ROUNDS * NUM_TEAMS)%Z
  | complete => (Z.of_nat (length (draftPicks st)) = ROUNDS * NUM_TEAMS)%Z
  end.

(** Ledger and pool together account for every valuated player. *)
Definition conserved (st : State) : Prop :=
  (length (draftPicks st) + length (availablePlayers st)
   = length (allPlayers st))%nat.

Record invariant (st : State) : Prop := {
  inv_rosters : length (teamRosters st) = Z.to_nat NUM_TEAMS;
  inv_phase : phaseLedger st;
  inv_pool :
    NoDup (ids (allPlayers st)) ->
    conserved st /\ NoDup (ids (availablePlayers st))
}.

(** [player] is drawn from [pool], and no other entry of [pool] has its
    id. *)
Definition uniqueIn (player : DraftPlayer) (pool : list DraftPlayer) : Prop :=
  player ∈ pool
  /\ length (filter (fun p => DraftPlayer.id p = DraftPlayer.id player) pool)
     = 1%nat.

(** The drafts obtained from [startDraft] by applying picks, each of a
    player drawn from the available pool and of unique id there. *)
Inductive fairDraft (st0 : State) : State -> Prop :=
| fairDraft_start : fairDraft st0 (startDraft st0)
| fairDraft_pick (st st' : State) (player : DraftPlayer) :
    fairDraft st0 st -> uniqueIn player (availablePlayers st) ->
    makePick st player = Some st' ->
    fairDraft st0 st'.

(** No bucket of the roster is over its maximum. *)
Definition withinMax (roster : TeamRoster) : Prop :=
  forall pos, (countRosterPositions roster pos <= max (ROSTER_TARGETS pos))%Z.

Definition legal (st : State) : Prop := Forall withinMax (teamRosters st).

(** Some available player is at a position where the acting team is
    below its maximum. *)
Definition openCandidate (st : State) : Prop :=
  exists teamRoster p,
    teamRosters st !! Z.to_nat (currentTeamIndex st) = Some teamRoster
    /\ p ∈ availablePlayers st /\ belowMax teamRoster p.

(** Drafts in which the maximum is respected from outside: the auto-draft
    effect picks while an open candidate is available, and the user only
    clicks on a player at a position where the acting team is below its
    maximum. *)
Inductive guardedDraft (st0 : State) : State -> Prop :=
| guardedDraft_start : guardedDraft st0 (startDraft st0)
| guardedDraft_cpu (st st' : State) (random : nat -> Q) :
    guardedDraft st0 st -> openCandidate st ->
    autoDraft random st = Some st' ->
    guardedDraft st0 st'
| guardedDraft_user (st st' : State) (teamRoster : TeamRoster)
    (player : DraftPlayer) :
    guardedDraft st0 st ->
    teamRosters st !! Z.to_nat (currentTeamIndex st) = Some teamRoster ->
    belowMax teamRoster player ->
    handleUserPick st player = Some st' ->
    guardedDraft st0 st'.

(** Three quarterbacks worth 3, 2, 1 points and thirty running backs
    worth 300, 295, ... points. *)
Definition demoListings (pos : Position) : list Entry.t :=
  match pos with
  | QB => listings "Q" 3 3 1
  | RB => listings "R" 30 300 5
  | _ => []
  end.

(** [Math.random] returning 0.5 at every call. *)
Definition alwaysHalf (_ : nat) : Q := 0.5%Q.

(** The user, drafting first, takes a quarterback with each of the first
    three picks of team 0 (picks 0, 23 and 24). *)
Definition overdraftEvents : list Event :=
  [PlayersLoaded demoListings; StartDraft; PlayerClick 23]
  ++ replicate 22 (TimerFires alwaysHalf) ++ [PlayerClick 1; PlayerClick 1].

(** The user takes the 1-point quarterback first and the 3-point one at
    the next turn. *)
Definition unsortedEvents : list Event :=
  [PlayersLoaded demoListings; StartDraft; PlayerClick 25]
  ++ replicate 22 (TimerFires alwaysHalf) ++ [PlayerClick 1].

(** Enough listings for a whole draft: 30 QB, 80 RB, 80 WR, 30 TE. *)
Definition leagueListings (pos : Position) : list Entry.t :=
  match pos with
  | QB => listings "Q" 30 400 7
  | RB => listings "R" 80 300 3
  | WR => listings "W" 80 290 3
  | TE => listings "T" 30 200 5
  end.

(** A whole draft on auto-pick. *)
Definition fullDraftEvents : list Event :=
  [PlayersLoaded leagueListings; StartDraft; SetAutopick true]
  ++ replicate 180 (TimerFires alwaysHalf).

(** A move of a guarded draft: the timer of the auto-draft effect fires,
    or the user clicks on a row of the board. *)
Inductive Move :=
| Timer (random : nat -> Q)
| Click (row : nat).

Definition belowMaxb (roster : TeamRoster) (p : DraftPlayer) : bool :=
  (countRosterPositions roster (DraftPlayer.position p)
   <? max (ROSTER_TARGETS (DraftPlayer.position p)))%Z.

(** One move, refused ([None]) when it is not a move of a guarded draft:
    a timer with no open candidate, a click on a player at a position where
    the acting team is at its maximum. *)
Definition guardedMove (st : State) (move : Move) : option State :=
  match teamRosters st !! Z.to_nat (currentTeamIndex st) with
  | None => None
  | Some teamRoster =>
      match move with
      | Timer random =>
          if existsb (belowMaxb teamRoster) (availablePlayers st)
          then autoDraft random st else None
      | Click row =>
          match availablePlayers st !! row with
          | Some player =>
              if belowMaxb teamRoster player then handleUserPick st player
              else None
          | None => None
          end
      end
  end.

Fixpoint guardedRun (st : State) (moves : list Move) : option State :=
  match moves with
  | [] => Some st
  | move :: rest =>
      match guardedMove st move with
      | Some st' => guardedRun st' rest
      | None => None
      end
  end.

(** A whole draft of the league of [leagueListings] with auto-pick on.
    The user, drafting first, clicks on the top row at each of the first
    three turns of team 0 (picks 0, 23 and 24: two quarterbacks, then a wide
    receiver); every other pick is made by the heuristic. *)
Definition leagueSetup : State :=
  setAutopick true (playersLoaded (loadPlayers leagueListings) mounted).
Definition guardedMoves : list Move :=
  [Click 0] ++ replicate 22 (Timer alwaysHalf) ++ [Click 0; Click 0]
  ++ replicate 155 (Timer alwaysHalf).
Definition guardedLeague : State :=
  default mounted (guardedRun (startDraft leagueSetup) guardedMoves).

(** A draft about to start with the two listings of [twoListings], and a
    player that is not among them. *)
Definition twoPlayerDraft : State :=
  startDraft (playersLoaded (loadPlayers twoListings) mounted).
Definition stranger : DraftPlayer :=
  DraftPlayer.mk "TE-Z" "Z" TE 5 5 1 ∅.
End Vocabulary.

(** ** Further vocabulary and scenarios *)

Section UtilsVocabulary.
Import Scoring Constants Utils Hooks DraftPage.

(** The suffix English gives the ordinal of [n]. *)
Definition ordinalSuffix_spec (n : Z) : string :=
  if ((n mod 10 =? 1) && negb (n mod 100 =? 11))%Z then "st"
  else if ((n mod 10 =? 2) && negb (n mod 100 =? 12))%Z then "nd"
  else if ((n mod 10 =? 3) && negb (n mod 100 =? 13))%Z then "rd"
  else "th".

(** The players of a bucket that [isStarterSlot] marks, and the others. *)
Definition markedStarters (pos : Position) (bucket : list DraftPlayer)
    : list DraftPlayer :=
  snd <$> filter (fun ip => isStarterSlot pos (Z.of_nat (fst ip)) = true)
                 (imap pair bucket).
Definition unmarked (pos : Position) (bucket : list DraftPlayer)
    : list DraftPlayer :=
  snd <$> filter (fun ip => isStarterSlot pos (Z.of_nat (fst ip)) <> true)
                 (imap pair bucket).
End UtilsVocabulary.

Section LedgerVocabulary.
Import Scoring Constants Utils Hooks DraftPage.

(** Entry [i] of the ledger (from 0) carries the numbers of pick [i]. *)
Definition ledgerNumbered (ledger : list DraftPick) : Prop :=
  forall i pick, ledger !! i = Some pick ->
    DraftPick.overall pick = (Z.of_nat i + 1)%Z
    /\ DraftPick.round pick = (Z.of_nat i `div` NUM_TEAMS + 1)%Z
    /\ DraftPick.pick pick = (Z.of_nat i `mod` NUM_TEAMS + 1)%Z
    /\ DraftPick.teamIndex pick
       = getSnakeDraftTeamIndex (Z.of_nat i) NUM_TEAMS.

(** The players the ledger gives to a team at a position, in pick order. *)
Definition picksOf (team : Z) (pos : Position) (ledger : list DraftPick)
    : list DraftPlayer :=
  DraftPick.player
  <$> filter (fun pk => DraftPick.teamIndex pk = team
                        /\ DraftPlayer.position (DraftPick.player pk) = pos)
             ledger.

(** Every bucket of every roster is what the ledger says. *)
Definition rostersFromLedger (st : State) : Prop :=
  forall t roster pos, teamRosters st !! t = Some roster ->
    TeamRoster.get pos roster = picksOf (Z.of_nat t) pos (draftPicks st).

(** The players of the ledger. *)
Definition drafted (st : State) : list DraftPlayer :=
  DraftPick.player <$> draftPicks st.

Definition rosterSize (roster : TeamRoster) : nat :=
  length (TeamRoster.QB roster) + length (TeamRoster.RB roster)
  + length (TeamRoster.WR roster) + length (TeamRoster.TE roster).

(** How many of the picks [0 .. n - 1] are the turn of team [t]. *)
Definition turnsBefore (n t : nat) : nat :=
  length (filter (fun i => getSnakeDraftTeamIndex (Z.of_nat i) NUM_TEAMS
                           = Z.of_nat t)
                 (seq 0 n)).
End LedgerVocabulary.

Section HeuristicVocabulary.
Import Scoring Constants Utils Hooks DraftPage.

(** The roster is short of its minimum at [pos]. *)
Definition needsPosition (roster : TeamRoster) (pos : Position) : Prop :=
  (countRosterPositions roster pos < min (ROSTER_TARGETS pos))%Z.

(** The positions a roster still needs, in the order QB, RB, WR, TE. *)
Definition neededPositions (roster : TeamRoster) : list Position :=
  filter (fun pos => (countRosterPositions roster pos
                      < min (ROSTER_TARGETS pos))%Z)
         [QB; RB; WR; TE].

(** The team is running out of picks to fill what it needs. *)
Definition urgent (roster : TeamRoster) : Prop :=
  neededPositions roster <> []
  /\ (ROSTER_SIZE
      - (countRosterPositions roster QB + countRosterPositions roster RB
         + countRosterPositions roster WR + countRosterPositions roster TE)
      <= Z.of_nat (length (neededPositions roster)) + 2)%Z.

(** The available players at positions where the roster is below its
    maximum. *)
Definition openPlayers (roster : TeamRoster) (available : list DraftPlayer)
    : list DraftPlayer :=
  filter (fun p => (countRosterPositions roster (DraftPlayer.position p)
                    < max (ROSTER_TARGETS (DraftPlayer.position p)))%Z)
         available.

(** A roster of six RB and six WR, with no QB and no TE, and three
    available players. *)
Definition shortRoster : TeamRoster :=
  TeamRoster.mk [] (replicate 6 (playerWithPoints RB "r" 100))
    (replicate 6 (playerWithPoints WR "w" 90)) [].
Definition shortPool : list DraftPlayer :=
  [DraftPlayer.mk "RB-x" "x" RB 80 30 1 ∅;
   DraftPlayer.mk "WR-y" "y" WR 70 20 1 ∅;
   DraftPlayer.mk "QB-z" "z" QB 60 1 3 ∅].
End HeuristicVocabulary.

Section ListingVocabulary.
Import Scoring Constants Utils Hooks DraftPage.

(** What identifies a listing: its position, name and points. *)
Definition listingOf (pos : Position) (entry : Entry.t)
    : Position * string * Q :=
  (pos, Entry.name entry, Entry.points entry).
Definition listingOfPlayer (p : DraftPlayer) : Position * string * Q :=
  (DraftPlayer.position p, DraftPlayer.name p, DraftPlayer.points p).

(** All listings of a load, position by position. *)
Definition allListings (byName : Position -> list Entry.t)
    : list (Position * string * Q) :=
  (listingOf QB <$> byName QB) ++ (listingOf RB <$> byName RB)
  ++ (listingOf WR <$> byName WR) ++ (listingOf TE <$> byName TE).

(** A row with 80 receptions and 1,000 receiving yards. *)
Definition receiverRow : CSVRow :=
  {[ "ReceivingRec_pred"%string := "80"%string;
     "ReceivingYDS_pred"%string := "1,000"%string ]}.
End ListingVocabulary.

Section StandingsVocabulary.
Import Scoring Constants Utils Hooks DraftPage.

(** What the list of upcoming picks shows for the pick [k] places ahead
    of the current one. *)
Definition upcomingEntry (st : State) (k : nat) : UpcomingPick :=
  let pickNum := (currentPick st + Z.of_nat k)%Z in
  UpcomingPick.mk (pickNum + 1)%Z
    (getSnakeDraftTeamIndex pickNum NUM_TEAMS + 1)%Z
    (getSnakeDraftTeamIndex pickNum NUM_TEAMS =? userTeamIndex st)%Z.

(** The league of [leagueListings] drafted to the end on auto-pick, and
    the same draft with one pick to go. *)
Definition draftedLeague : State :=
  default mounted (run mounted fullDraftEvents).
Definition lastTurn : State :=
  default mounted (run mounted (take 182 fullDraftEvents)).
End StandingsVocabulary.

Section BoardVocabulary.
Import Scoring Constants Utils Hooks DraftPage.

(** The position filter of the board on its own. *)
Definition ofPosition (filterPosition : option Position) (p : DraftPlayer)
    : bool :=
  match filterPosition with
  | None => true
  | Some pos => bool_decide (DraftPlayer.position p = pos)
  end.

(** A key that the fuzzy search of [detectPlayerNameKey] accepts. *)
Definition fuzzyName (toLowerCase : string -> string) (k : string) : bool :=
  Js.includes (toLowerCase k) "name" || Js.includes (toLowerCase k) "player".

(** A lower-casing of the letters A to Z, for the scenarios. *)
Fixpoint asciiLower (s : string) : string :=
  match s with
  | EmptyString => EmptyString
  | String c rest =>
      let n := nat_of_ascii c in
      String (if ((65 <=? n) && (n <=? 90))%nat then ascii_of_nat (n + 32) else c)
             (asciiLower rest)
  end.
End BoardVocabulary.

Section CsvVocabulary.
Import Scoring Csv.

(** A cell as a CSV writer puts it on a line: as it is, or between
    quotes with every quote of the text doubled. *)
Inductive Cell :=
| Plain (text : string)
| Quoted (text : string).

Definition cellText (c : Cell) : string :=
  match c with Plain text | Quoted text => text end.

Fixpoint escapeQuotes (s : string) : string :=
  match s with
  | EmptyString => EmptyString
  | String c rest =>
      if Ascii.eqb c QUOTE then String QUOTE (String QUOTE (escapeQuotes rest))
      else String c (escapeQuotes rest)
  end.

Definition render (c : Cell) : string :=
  match c with
  | Plain text => text
  | Quoted text =>
      String QUOTE (String.append (escapeQuotes text) (String QUOTE EmptyString))
  end.

Fixpoint joinCommas (fields : list string) : string :=
  match fields with
  | [] => EmptyString
  | [f] => f
  | f :: rest => String.append f (String COMMA (joinCommas rest))
  end.

(** No comma and no quote. *)
Fixpoint isBare (s : string) : bool :=
  match s with
  | EmptyString => true
  | String c rest =>
      negb (Ascii.eqb c QUOTE) && negb (Ascii.eqb c COMMA) && isBare rest
  end.

(** A plain cell must be bare; a quoted cell may hold any text. *)
Definition writable (c : Cell) : Prop :=
  match c with
  | Plain text => isBare text = true
  | Quoted _ => True
  end.

(** What may follow a closing quote: the end of the line or a comma. *)
Definition afterCell (rest : string) : Prop :=
  rest = EmptyString \/ exists rest', rest = String COMMA rest'.

(** The non-blank lines of a text: what [parseCSV] reads. *)
Definition dataLines (text : string) : list string :=
  List.filter nonBlank (Js.splitLines text).

(** A small file: a header line, a complete line, a short line, and a
    blank line in between. *)
Definition sampleText : string :=
  String.append "Name,Team,Yds"
    (String Js.LF
       (String.append "Ann,KC,10"
          (String Js.CR (String Js.LF
             (String.append "  "
                (String Js.LF "Bob,SF")))))).
End CsvVocabulary.

Section TeamBuilderVocabulary.
Import Scoring MyTeam.

Definition rosterIds (roster : list RosterPlayer) : list string :=
  RosterPlayer.id <$> roster.

(** No player twice, no position over its roster limit, no position with
    more starters than starter slots. *)
Definition withinLimits (roster : list RosterPlayer) : Prop :=
  NoDup (rosterIds roster)
  /\ (forall pos, (rosterCounts roster pos <= POSITION_LIMITS pos)%Z)
  /\ (forall pos, (starterCounts roster pos <= STARTER_LIMITS pos)%Z).

(** What [toggleSlot] does to one entry, [prev] being the whole roster. *)
Definition toggled (prev : list RosterPlayer) (playerId : string)
    (p : RosterPlayer) : RosterPlayer :=
  if negb (String.eqb (RosterPlayer.id p) playerId) then p
  else if bool_decide (RosterPlayer.slot p = starter)
  then RosterPlayer.withSlot p bench
  else
    let currentStarters :=
      Z.of_nat
        (length
           (filter (fun x => RosterPlayer.position x = RosterPlayer.position p
                             /\ RosterPlayer.slot x = starter)
                   prev)) in
    if (currentStarters <? STARTER_LIMITS (RosterPlayer.position p))%Z
    then RosterPlayer.withSlot p starter
    else p.

Definition athlete (id : string) (pos : Position) (points : Q) : Player :=
  Player.mk id id pos points ∅.

(** Three running backs and a quarterback, added in this order. *)
Definition sampleRoster : list RosterPlayer :=
  run [AddPlayer (athlete "r1" RB 200); AddPlayer (athlete "r2" RB 180);
       AddPlayer (athlete "q1" QB 300); AddPlayer (athlete "r3" RB 150)].
End TeamBuilderVocabulary.

Section LineupVocabulary.
Import Scoring Constants Utils.

(** The players [getStarterPoints] adds up, and those
    [getTeamTotalPoints] adds up, in the order of the sums. *)
Definition lineup (roster : TeamRoster) : list DraftPlayer :=
  Js.slice 0 1 (TeamRoster.QB roster) ++ Js.slice 0 2 (TeamRoster.RB roster)
  ++ Js.slice 0 2 (TeamRoster.WR roster) ++ Js.slice 0 1 (TeamRoster.TE roster)
  ++ Js.slice 0 1
       (Js.sort byPointsDesc
          (Js.sliceFrom 2 (TeamRoster.RB roster)
           ++ Js.sliceFrom 2 (TeamRoster.WR roster)
           ++ Js.sliceFrom 1 (TeamRoster.TE roster))).
Definition wholeRoster (roster : TeamRoster) : list DraftPlayer :=
  TeamRoster.QB roster ++ TeamRoster.RB roster
  ++ TeamRoster.WR roster ++ TeamRoster.TE roster.
End LineupVocabulary.

Section LoaderVocabulary.
Import Scoring Hooks.
Variable toLowerCase : string -> string.
Variable scoring : Scoring.

(** The key under which [loadPlayers] stores a name. *)
Definition dedupeKey (name : string) : string := Js.trim (toLowerCase name).

(** The entry made of row [idx] of a file. *)
Definition entryOfRow (pos : Position) (nameKey : option string) (idx : nat)
    (row : CSVRow) : Entry.t :=
  Entry.mk row (computeFantasyPoints row pos scoring)
    (Loader.rawNameOf nameKey row idx).

(** The key of row [idx]. *)
Definition rowKey (nameKey : option string) (idx : nat) (row : CSVRow)
    : string :=
  dedupeKey (Loader.rawNameOf nameKey row idx).

(** Row [idx] is the best of its key: no row with the same key has more
    points, and every earlier one has fewer. *)
Definition bestOfKey (pos : Position) (nameKey : option string)
    (rows : list CSVRow) (idx : nat) (row : CSVRow) : Prop :=
  rows !! idx = Some row
  /\ forall j row', rows !! j = Some row' ->
       rowKey nameKey j row' = rowKey nameKey idx row ->
       (computeFantasyPoints row' pos scoring
        <= computeFantasyPoints row pos scoring)%Q
       /\ ((j < idx)%nat ->
           (computeFantasyPoints row' pos scoring
            < computeFantasyPoints row pos scoring)%Q).

(** What [byName] holds once the rows [done] have been visited. *)
Definition kept (pos : Position) (nameKey : option string)
    (done : list CSVRow) (byName : PlainObject.t Entry.t) : Prop :=
  NoDup (fst <$> byName)
  /\ (forall k e, PlainObject.getOwn byName k = Some e ->
        (k ∉ PlainObject.prototypeNames)
        /\ exists i row, bestOfKey pos nameKey done i row
                         /\ e = entryOfRow pos nameKey i row
                         /\ k = rowKey nameKey i row)
  /\ (forall i row, done !! i = Some row ->
        rowKey nameKey i row ∉ PlainObject.prototypeNames ->
        is_Some (PlainObject.getOwn byName (rowKey nameKey i row))).
End LoaderVocabulary.

Section LoaderScenario.
(** A quarterback file: Ann twice, and a player named Constructor. *)
Definition rosterFile : string :=
  String.append "PlayerName,PassingYDS_pred"
    (String Js.LF
       (String.append "Ann,100"
          (String Js.LF
             (String.append "Constructor,200"
                (String Js.LF "Ann,300"))))).
End LoaderScenario.

(** * Properties *)

(** ** Turn order *)

Section TurnOrder.
Import Utils.

Lemma remainder_nonneg (a b : Z) :
  (0 <= a)%Z -> (0 < b)%Z -> Js.remainder a b = (a mod b)%Z.
Proof. intros Ha Hb. unfold Js.remainder. apply Z.rem_mod_nonneg; lia. Qed.

Lemma round_parity (round : Z) :
  (0 <= round)%Z -> (Js.remainder round 2 =? 0)%Z = Z.even round.
Proof.
  intros Hr. rewrite remainder_nonneg by lia. rewrite Zmod_even.
  destruct (Z.even round); reflexivity.
Qed.

(** The scheduler on its domain: pick numbers from 0, at least one team. *)
Lemma snake_unfold (pickNumber numTeams : Z) :
  (0 <= pickNumber)%Z -> (0 < numTeams)%Z ->
  getSnakeDraftTeamIndex pickNumber numTeams
  = if Z.even (pickNumber / numTeams)
    then (pickNumber mod numTeams)%Z
    else (numTeams - 1 - pickNumber mod numTeams)%Z.
Proof.
  intros Hp Hn. unfold getSnakeDraftTeamIndex, Js.floorDiv.
  rewrite round_parity by (apply Z.div_pos; lia).
  rewrite remainder_nonneg by lia. reflexivity.
Qed.

Lemma snake_range (pickNumber numTeams : Z) :
  (0 <= pickNumber)%Z -> (0 < numTeams)%Z ->
  (0 <= getSnakeDraftTeamIndex pickNumber numTeams < numTeams)%Z.
Proof.
  intros Hp Hn. rewrite snake_unfold by lia.
  pose proof (Z.mod_pos_bound pickNumber numTeams Hn).
  destruct (Z.even _); lia.
Qed.

(** C9. The turn scheduler depends on the 0-based pick index and the team
    count only: with [round = pick div N] and
    [positionInRound = pick mod N], the acting team is [positionInRound]
    in an even round and [N - 1 - positionInRound] in an odd one; either
    way it is one of the [N] teams. *)
Theorem snake_team_index_formula (pick N : Z) :
  (0 <= pick)%Z -> (0 < N)%Z ->
  let round := (pick `div` N)%Z in
  let positionInRound := (pick `mod` N)%Z in
  getSnakeDraftTeamIndex pick N
  = (if Z.even round then positionInRound else (N - 1 - positionInRound)%Z)
  /\ (0 <= getSnakeDraftTeamIndex pick N < N)%Z.
Proof.
  intros Hpick HN. cbv zeta.
  unfold getSnakeDraftTeamIndex, Js.floorDiv, Js.remainder.
  assert (Hround : (0 <= pick `div` N)%Z) by (apply Z.div_pos; lia).
  rewrite (Z.rem_mod_nonneg pick N) by lia.
  rewrite (Z.rem_mod_nonneg (pick `div` N) 2) by lia.
  rewrite Zmod_even.
  pose proof (Z.mod_pos_bound pick N HN) as Hpos.
  destruct (Z.even (pick `div` N)); simpl; split; lia.
Qed.

Lemma snake_team_index_formula_witness :
  getSnakeDraftTeamIndex 17 12 = (12 - 1 - 17 `mod` 12)%Z
  /\ (0 <= getSnakeDraftTeamIndex 17 12 < 12)%Z.
Proof. apply (snake_team_index_formula 17 12); lia. Defined.

(** C4, as the specification words it, fails: the first pick of round 1
    (0-based) of a 12-team draft belongs to team 11, not to team 0. *)
Lemma round_start_counterexample :
  getSnakeDraftTeamIndex (1 * 12) 12 <> 0%Z.
Proof. vm_compute. discriminate. Qed.

(** C4, amended.  For every round [r] from 0 and every team count
    [N >= 1], the first pick of the round, [r * N], belongs to team 0
    when [r] is even and to team [N - 1] when [r] is odd; the last pick,
    [r * N + N - 1], belongs to team [N - 1] when [r] is even and to
    team 0 when [r] is odd. *)
Theorem snake_round_ends (r N : Z) :
  (0 <= r)%Z -> (0 < N)%Z ->
  getSnakeDraftTeamIndex (r * N) N = (if Z.even r then 0 else N - 1)%Z
  /\ getSnakeDraftTeamIndex (r * N + N - 1) N
     = (if Z.even r then N - 1 else 0)%Z.
Proof.
  intros Hr Hn. split.
  - rewrite snake_unfold by nia.
    rewrite Z.div_mul by lia. rewrite Z.mod_mul by lia.
    destruct (Z.even r); lia.
  - rewrite snake_unfold by nia.
    replace (r * N + N - 1)%Z with (r * N + (N - 1))%Z by lia.
    rewrite Z.div_add_l by lia. rewrite Z.div_small by lia.
    rewrite Z.add_0_r.
    rewrite Z.add_comm, Z.mod_add by lia. rewrite Z.mod_small by lia.
    destruct (Z.even r); lia.
Qed.

Lemma snake_round_ends_witness :
  getSnakeDraftTeamIndex (3 * 12) 12 = 11%Z
  /\ getSnakeDraftTeamIndex (3 * 12 + 12 - 1) 12 = 0%Z.
Proof. apply (snake_round_ends 3 12); lia. Defined.
End TurnOrder.

(** ** The scoring function *)

Section ScoringRule.
Import Scoring.

Lemma toNumber_statValue (row : CSVRow) (field : string) :
  toNumber (row !! field) 0 = statValue_spec row field.
Proof.
  unfold toNumber, statValue_spec.
  destruct (row !! field) as [text|]; [|reflexivity].
  cbv zeta. destruct (Js.parseFloat (Js.removeCommas text)); reflexivity.
Qed.

Lemma round_hundredths (x : Q) :
  roundedTo2 x (inject_Z (Js.round (x * 100)) / 100)%Q.
Proof.
  unfold roundedTo2, Js.round. split.
  - eexists. reflexivity.
  - set (y := (x * 100 + (1 # 2))%Q).
    pose proof (Qfloor_le y) as Hlo. pose proof (Qlt_floor y) as Hhi.
    rewrite inject_Z_plus in Hhi. change (inject_Z 1) with 1%Q in Hhi.
    set (n := inject_Z (Qfloor y)) in *. subst y.
    assert (E : (n / 100 - x == (n - x * 100) * (1 # 100))%Q) by field.
    rewrite E. apply Qabs_Qle_condition. split; lra.
Qed.

(** C8. For every stat row, position and ruleset the scoring function
    returns passing yards x 0.04 + passing TD x 4 + interceptions x -2
    + rushing yards x 0.1 + rushing TD x 6 + receiving yards x 0.1
    + receiving TD x 6 + receptions x (0, 0.5 or 1 for STANDARD, HALF_PPR,
    PPR), an absent or unparsable field counting as 0, rounded to two
    decimal places; the row with passing yards 300, passing TD 2, INT 1
    and rushing yards 10 scores 19.00 under STANDARD. *)
Theorem scoring_function_rule (row : CSVRow) (position : Position)
    (scoring : Scoring) :
  roundedTo2 (scoringRule_spec row scoring)
             (computeFantasyPoints row position scoring)
  /\ (computeFantasyPoints scenarioRow position STANDARD == 19)%Q.
Proof.
  split.
  - unfold computeFantasyPoints. cbv zeta.
    rewrite !toNumber_statValue.
    match goal with
    | |- roundedTo2 _ (inject_Z (Js.round (?p * 100)) / 100)%Q =>
        assert (Heq : (p == scoringRule_spec row scoring)%Q)
    end.
    { unfold scoringRule_spec, receptionWeight_spec.
      destruct scoring; field. }
    match goal with
    | |- roundedTo2 _ (inject_Z (Js.round (?p * 100)) / 100)%Q =>
        pose proof (round_hundredths p) as [Hn Hclose]
    end.
    split; [exact Hn|].
    rewrite <- Heq. exact Hclose.
  - destruct position; vm_compute; reflexivity.
Qed.
End ScoringRule.

(** ** [Array.prototype.sort] with a comparator [(a, b) => key (b) - key (a)] *)

Section SortFacts.
Context {A : Type} (key : A -> Q) (compareFn : A -> A -> Q).
Hypothesis compare_key : forall a b, (compareFn a b == key b - key a)%Q.

Lemma compare_le (x y : A) :
  Qle_bool (compareFn x y) 0 = true <-> (notBelow key) x y.
Proof.
  rewrite Qle_bool_iff, compare_key. unfold notBelow. split; intros; lra.
Qed.

Lemma place_Permutation (x : A) (l : list A) : Js.place compareFn x l ≡ₚ x :: l.
Proof.
  induction l as [|y l IH]; simpl; [reflexivity|].
  destruct (Qle_bool _ _); [reflexivity|].
  rewrite IH. apply perm_swap.
Qed.

Lemma sort_Permutation (l : list A) : Js.sort compareFn l ≡ₚ l.
Proof.
  induction l as [|x l IH]; simpl; [reflexivity|].
  rewrite place_Permutation. by rewrite IH.
Qed.

Lemma place_sorted (x : A) (l : list A) :
  StronglySorted (notBelow key) l -> StronglySorted (notBelow key) (Js.place compareFn x l).
Proof.
  induction 1 as [|y l Hs IH Hy]; simpl.
  - repeat constructor.
  - destruct (Qle_bool (compareFn x y) 0) eqn:Hc.
    + apply compare_le in Hc. constructor; [by constructor|].
      constructor; [exact Hc|].
      eapply Forall_impl; [exact Hy|]. unfold notBelow in *. intros z Hz. lra.
    + constructor; [exact IH|].
      rewrite place_Permutation. constructor; [|exact Hy].
      assert (Hn : ~ (notBelow key) x y) by (rewrite <- compare_le, Hc; discriminate).
      unfold notBelow in *. lra.
Qed.

Lemma sort_sorted (l : list A) : StronglySorted (notBelow key) (Js.sort compareFn l).
Proof.
  induction l as [|x l IH]; simpl; [constructor|]. by apply place_sorted.
Qed.

(** A list already in descending order is left as it is. *)
Lemma sort_descending (l : list A) :
  StronglySorted (notBelow key) l -> Js.sort compareFn l = l.
Proof.
  induction 1 as [|x l Hs IH Hx]; simpl; [reflexivity|].
  rewrite IH. destruct Hx as [|y l Hxy _]; simpl; [reflexivity|].
  apply compare_le in Hxy. by rewrite Hxy.
Qed.

Lemma sorted_adjacent (l : list A) (i : nat) (a b : A) :
  StronglySorted (notBelow key) l ->
  l !! i = Some a -> l !! S i = Some b -> (notBelow key) a b.
Proof.
  intros Hs. revert i. induction Hs as [|x l Hs IH Hx]; intros i Ha Hb.
  - discriminate.
  - destruct i as [|i]; simpl in *.
    + injection Ha as <-. rewrite Forall_forall in Hx. apply Hx.
      eapply list_elem_of_lookup_2. exact Hb.
    + eapply IH; eassumption.
Qed.
End SortFacts.

(** ** Starter points *)

Section StarterPoints.
Import Scoring Utils.

Lemma byPointsDesc_key (a b : DraftPlayer) :
  (byPointsDesc a b == DraftPlayer.points b - DraftPlayer.points a)%Q.
Proof. reflexivity. Qed.

Lemma foldl_points (acc : Q) (players : list DraftPlayer) :
  (foldl (fun sum p => sum + DraftPlayer.points p) acc players
   == acc + sumPoints players)%Q.
Proof.
  unfold sumPoints. revert acc.
  induction players as [|p players IH]; intros acc; simpl.
  - lra.
  - rewrite (IH (acc + _)%Q), (IH (0 + _)%Q). lra.
Qed.

Lemma sumPoints_cons (p : DraftPlayer) (players : list DraftPlayer) :
  (sumPoints (p :: players) == DraftPlayer.points p + sumPoints players)%Q.
Proof. unfold sumPoints at 1. simpl. rewrite foldl_points. lra. Qed.

Lemma sumPoints_app (l1 l2 : list DraftPlayer) :
  (sumPoints (l1 ++ l2) == sumPoints l1 + sumPoints l2)%Q.
Proof.
  induction l1 as [|p l1 IH]; simpl.
  - unfold sumPoints at 2. simpl. lra.
  - rewrite !sumPoints_cons, IH. lra.
Qed.

Lemma highestPoints_spec (pool : list DraftPlayer) (m : Q) :
  highestPoints pool = Some m ->
  (exists p, p ∈ pool /\ DraftPlayer.points p = m)
  /\ forall q, q ∈ pool -> (DraftPlayer.points q <= m)%Q.
Proof.
  revert m. induction pool as [|p pool IH]; intros m; simpl; [discriminate|].
  destruct (highestPoints pool) as [m'|] eqn:Hrest.
  - destruct (IH m' eq_refl) as [[w [Hw Hwm]] Hmax]. intros [= <-].
    destruct (Qle_bool m' (DraftPlayer.points p)) eqn:Hc.
    + apply Qle_bool_iff in Hc. split.
      * exists p. split; [left|reflexivity].
      * intros q [->|Hq]%elem_of_cons; [lra|]. specialize (Hmax q Hq). lra.
    + assert (~ (m' <= DraftPlayer.points p)%Q)
        by (rewrite <- Qle_bool_iff, Hc; discriminate).
      split.
      * exists w. split; [by right|exact Hwm].
      * intros q [->|Hq]%elem_of_cons; [lra|]. by apply Hmax.
  - intros [= <-]. destruct pool; [|simpl in Hrest; destruct (highestPoints pool); discriminate].
    split.
    + exists p. split; [left|reflexivity].
    + intros q [->|Hq]%elem_of_cons; [lra|]. by apply elem_of_nil in Hq.
Qed.

(** What [flexCandidates.slice (0, 1)] adds to the sum. *)
Lemma flex_highest (pool : list DraftPlayer) :
  (sumPoints (Js.slice 0 1 (Js.sort byPointsDesc pool)) == flexPoints_spec pool)%Q.
Proof.
  unfold flexPoints_spec, Js.slice. simpl.
  pose proof (sort_Permutation byPointsDesc pool) as Hperm.
  pose proof (sort_sorted DraftPlayer.points byPointsDesc byPointsDesc_key pool) as Hs.
  destruct (Js.sort byPointsDesc pool) as [|h t] eqn:Hsort.
  - apply Permutation_nil_l in Hperm. subst pool. reflexivity.
  - destruct (highestPoints pool) as [m|] eqn:Hm.
    + destruct (highestPoints_spec pool m Hm) as [[w [Hw Hwm]] Hmax].
      simpl. rewrite take_0. rewrite sumPoints_cons. unfold sumPoints at 1. simpl.
      assert (Hh : h ∈ pool) by (rewrite <- Hperm; left).
      assert (Hwh : (DraftPlayer.points w <= DraftPlayer.points h)%Q).
      { rewrite <- Hperm in Hw. apply elem_of_cons in Hw as [->|Hw]; [lra|].
        apply StronglySorted_inv in Hs as [_ Hall].
        rewrite Forall_forall in Hall. exact (Hall w Hw). }
      specialize (Hmax h Hh). subst m. lra.
    + destruct pool; [by apply Permutation_nil_r in Hperm|].
      simpl in Hm. destruct (highestPoints pool); discriminate.
Qed.

Lemma getStarterPoints_unfold (roster : TeamRoster) :
  (getStarterPoints roster
   == sumPoints (take 1 (TeamRoster.QB roster))
      + sumPoints (take 2 (TeamRoster.RB roster))
      + sumPoints (take 2 (TeamRoster.WR roster))
      + sumPoints (take 1 (TeamRoster.TE roster))
      + flexPoints_spec (drop 2 (TeamRoster.RB roster)
                         ++ drop 2 (TeamRoster.WR roster)
                         ++ drop 1 (TeamRoster.TE roster)))%Q.
Proof.
  unfold getStarterPoints. cbv zeta.
  rewrite !sumPoints_app, flex_highest.
  unfold Js.slice, Js.sliceFrom. rewrite !drop_0. simpl Nat.sub. lra.
Qed.

Lemma bestN_descending (n : nat) (bucket : list DraftPlayer) :
  descendingPoints bucket ->
  bestN_spec n bucket = take n bucket /\ remaining_spec n bucket = drop n bucket.
Proof.
  intros Hs. unfold bestN_spec, remaining_spec.
  by rewrite (sort_descending DraftPlayer.points byPointsDesc byPointsDesc_key).
Qed.

(** C2, amended.  For every roster [getStarterPoints] sums the first QB,
    the first two RB, the first two WR and the first TE in bucket order
    and adds the highest points value among the RB after the second, the
    WR after the second and the TE after the first.  When every bucket is
    in descending order of points this is the sum of the best 1 QB, 2 RB,
    2 WR and 1 TE plus the best of the rest.  The roster whose RB are
    worth 20, 15, 10, 5 yields 45. *)
Theorem starter_points_rule (roster : TeamRoster) :
  (getStarterPoints roster
   == sumPoints (take 1 (TeamRoster.QB roster))
      + sumPoints (take 2 (TeamRoster.RB roster))
      + sumPoints (take 2 (TeamRoster.WR roster))
      + sumPoints (take 1 (TeamRoster.TE roster))
      + flexPoints_spec (drop 2 (TeamRoster.RB roster)
                         ++ drop 2 (TeamRoster.WR roster)
                         ++ drop 1 (TeamRoster.TE roster)))%Q
  /\ (sortedBuckets roster ->
      (getStarterPoints roster == starterPoints_spec roster)%Q)
  /\ (getStarterPoints scenarioRoster == 45)%Q.
Proof.
  split; [apply getStarterPoints_unfold|]. split; [|vm_compute; reflexivity].
  intros Hs. rewrite getStarterPoints_unfold. unfold starterPoints_spec.
  destruct (bestN_descending 1 (TeamRoster.QB roster) (Hs QB)) as [-> _].
  destruct (bestN_descending 2 (TeamRoster.RB roster) (Hs RB)) as [-> ->].
  destruct (bestN_descending 2 (TeamRoster.WR roster) (Hs WR)) as [-> ->].
  destruct (bestN_descending 1 (TeamRoster.TE roster) (Hs TE)) as [-> ->].
  reflexivity.
Qed.

Lemma scenarioRoster_sorted : sortedBuckets scenarioRoster.
Proof.
  intros pos. destruct pos; simpl; unfold descendingPoints;
    repeat constructor; try (unfold notBelow; simpl; lra).
Qed.

Lemma starter_points_rule_witness :
  sortedBuckets scenarioRoster
  /\ (getStarterPoints scenarioRoster == starterPoints_spec scenarioRoster)%Q.
Proof.
  split; [exact scenarioRoster_sorted|].
  exact (proj1 (proj2 (starter_points_rule scenarioRoster))
               scenarioRoster_sorted).
Defined.
End StarterPoints.

(** ** Player valuation *)

Section Valuation.
Import Scoring Constants Utils Hooks.

Lemma calculateVOR_lookup (pos : Position) (players : list DraftPlayer) (i : nat) :
  calculateVOR pos players !! i
  = (fun p => assign p (DraftPlayer.points p - replacementValue pos players)%Q
                (Js.floorDiv (Z.of_nat i) 4 + 1)%Z) <$> players !! i.
Proof. unfold calculateVOR. cbv zeta. by rewrite list_lookup_imap. Qed.

Lemma imap_descending (f : nat -> DraftPlayer -> DraftPlayer)
    (players : list DraftPlayer) :
  (forall i p, DraftPlayer.points (f i p) = DraftPlayer.points p) ->
  descendingPoints players -> descendingPoints (imap f players).
Proof.
  intros Hf Hs. revert f Hf.
  induction Hs as [|x l Hs IH Hx]; intros f Hf; simpl; [constructor|].
  constructor.
  - apply IH. intros i p. apply Hf.
  - rewrite Forall_forall in Hx. apply Forall_forall.
    intros y (i & z & -> & Hz)%elem_of_lookup_imap.
    unfold notBelow, compose. rewrite !Hf. apply Hx.
    eapply list_elem_of_lookup_2. exact Hz.
Qed.

Lemma valuedPool_descending (pos : Position) (entries : list Entry.t) :
  descendingPoints (valuedPool pos entries).
Proof.
  unfold valuedPool, calculateVOR. cbv zeta.
  apply imap_descending; [reflexivity|].
  apply (sort_sorted DraftPlayer.points byPointsDesc byPointsDesc_key).
Qed.



Lemma byVorDesc_key (a b : DraftPlayer) :
  (byVorDesc a b == DraftPlayer.vor b - DraftPlayer.vor a)%Q.
Proof. reflexivity. Qed.

Lemma byValueDesc_key (a b : DraftPlayer) :
  (LegacyPage.byValueDesc a b == weightedVor b - weightedVor a)%Q.
Proof. reflexivity. Qed.

(** [useDraft] orders the combined pool by plain VOR. *)
Lemma loadPlayers_order (byName : Position -> list Entry.t) :
  adjacentDescending DraftPlayer.vor (loadPlayers byName).
Proof.
  intros i a b Ha Hb. unfold loadPlayers in *. cbv zeta in *.
  exact (sorted_adjacent DraftPlayer.vor _ i a b
           (sort_sorted DraftPlayer.vor byVorDesc byVorDesc_key _) Ha Hb).
Qed.

(** The single-file page orders it by position-weighted VOR. *)
Lemma loadAll_order (byName : Position -> list Entry.t) :
  adjacentDescending weightedVor (LegacyPage.loadAll byName).
Proof.
  intros i a b Ha Hb. unfold LegacyPage.loadAll in *. cbv zeta in *.
  exact (sorted_adjacent weightedVor _ i a b
           (sort_sorted weightedVor LegacyPage.byValueDesc byValueDesc_key _)
           Ha Hb).
Qed.

(** C3 does not hold of [useDraft]: with one quarterback worth 10 points
    and one running back worth 9, [loadPlayers] puts the quarterback
    (weighted VOR 9.5) before the running back (weighted VOR 10.35); the
    single-file page puts the running back first. *)
Theorem loadPlayers_ignores_position_weight :
  DraftPlayer.id <$> loadPlayers twoListings = ["QB-A"; "RB-B"]%string
  /\ DraftPlayer.id <$> LegacyPage.loadAll twoListings = ["RB-B"; "QB-A"]%string
  /\ ~ adjacentDescending weightedVor (loadPlayers twoListings).
Proof.
  split; [vm_compute; reflexivity|]. split; [vm_compute; reflexivity|].
  intros Hadj.
  assert (Ha : loadPlayers twoListings !! 0%nat
               = Some (DraftPlayer.mk "QB-A" "A" QB 10 (10 - 0) 1 ∅))
    by reflexivity.
  assert (Hb : loadPlayers twoListings !! 1%nat
               = Some (DraftPlayer.mk "RB-B" "B" RB 9 (9 - 0) 1 ∅))
    by reflexivity.
  specialize (Hadj _ _ _ Ha Hb). vm_compute in Hadj. apply Hadj. reflexivity.
Qed.
End Valuation.

(** ** The opponent heuristic *)

Section Heuristic.
Import Scoring Constants Utils Hooks.

Lemma head_sort_elem {A} (compareFn : A -> A -> Q) (l : list A) (x : A) :
  head (Js.sort compareFn l) = Some x -> x ∈ l.
Proof.
  intros Hx. rewrite <- (sort_Permutation compareFn l).
  by apply head_Some_elem_of.
Qed.

Lemma head_sort_None {A} (compareFn : A -> A -> Q) (l : list A) :
  head (Js.sort compareFn l) = None -> l = [].
Proof.
  intros Hx. apply Permutation_nil_r. rewrite <- (sort_Permutation compareFn l).
  by destruct (Js.sort compareFn l).
Qed.

Lemma length_zero_nil {A} (l : list A) : (length l =? 0)%nat = true <-> l = [].
Proof. destruct l; simpl; split; intros; try done. Qed.

(** What [getCPUPick] returns is available, and it is at a position below
    its maximum whenever some available player is. *)
Lemma getCPUPick_pick (random : nat -> Q) (available : list DraftPlayer)
    (teamRoster : TeamRoster) (round : Z) (p : DraftPlayer) :
  getCPUPick random available teamRoster round = Some p ->
  p ∈ available
  /\ ((exists q, q ∈ available /\ belowMax teamRoster q) -> belowMax teamRoster p).
Proof.
  unfold getCPUPick.
  destruct (length available =? 0)%nat eqn:Hempty; [discriminate|].
  cbv zeta.
  set (needed := filter _ [QB; RB; WR; TE]).
  set (open := filter _ available).
  set (cands1 := if (length open =? 0)%nat then available else open).
  set (cands2 := if _ && _ then _ else cands1).
  assert (H1 : forall x, x ∈ cands1 ->
             x ∈ available /\ (open <> [] -> belowMax teamRoster x)).
  { intros x Hx. subst cands1.
    destruct (length open =? 0)%nat eqn:Ho.
    - apply length_zero_nil in Ho. split; [exact Hx|]. intros Hne. done.
    - subst open. apply list_elem_of_filter in Hx as [Hb Hx]. by split. }
  assert (H2 : forall x, x ∈ cands2 -> x ∈ cands1).
  { intros x Hx. subst cands2.
    destruct (_ && _); [|exact Hx].
    destruct (0 <? length _)%nat; [|exact Hx].
    by apply list_elem_of_filter in Hx as [_ Hx]. }
  assert (H3 : cands1 <> [] -> cands2 <> []).
  { intros Hne. subst cands2.
    destruct (_ && _); [|exact Hne].
    destruct (0 <? length _)%nat eqn:Hu; [|exact Hne].
    intros Hnil. rewrite Hnil in Hu. discriminate. }
  assert (Hopen : (exists q, q ∈ available /\ belowMax teamRoster q) -> open <> []).
  { intros (q & Hq & Hb) Hnil.
    assert (Hin : q ∈ open) by (subst open; apply list_elem_of_filter; by split).
    rewrite Hnil in Hin. by apply elem_of_nil in Hin. }
  destruct (head (Js.sort _ _)) as [[w score]|] eqn:Hhead.
  - intros [= <-]. simpl.
    apply head_sort_elem in Hhead.
    apply elem_of_lookup_imap in Hhead as (i & y & [= -> _] & Hy).
    apply list_elem_of_lookup_2 in Hy. apply H2, H1 in Hy as [Hy Hb].
    split; [exact Hy|]. intros Hex. by apply Hb, Hopen.
  - intros Hp. split; [by apply head_Some_elem_of|].
    intros Hex. exfalso.
    apply head_sort_None in Hhead.
    assert (Hc2 : cands2 = []).
    { destruct cands2; [reflexivity|]. simpl in Hhead. discriminate Hhead. }
    apply H3; [|exact Hc2]. subst cands1.
    pose proof (Hopen Hex) as Hne.
    destruct (length open =? 0)%nat eqn:Ho; [|exact Hne].
    by apply length_zero_nil in Ho.
Qed.
End Heuristic.

(** ** The draft state machine *)

Section Draft.
Import Scoring Constants Utils Hooks DraftPage.

Lemma teamIndex_valid (n : nat) :
  (Z.to_nat (getSnakeDraftTeamIndex (Z.of_nat n) NUM_TEAMS)
   < Z.to_nat NUM_TEAMS)%nat.
Proof.
  pose proof (snake_range (Z.of_nat n) NUM_TEAMS) as H.
  unfold NUM_TEAMS in *. lia.
Qed.

Lemma makePick_defined (st : State) (player : DraftPlayer) :
  length (teamRosters st) = Z.to_nat NUM_TEAMS -> is_Some (makePick st player).
Proof.
  intros Hlen. unfold makePick. cbv zeta.
  destruct (lookup_lt_is_Some_2 (teamRosters st)
              (Z.to_nat (getSnakeDraftTeamIndex
                           (Z.of_nat (length (draftPicks st))) NUM_TEAMS)))
    as [roster ->]; [|eauto].
  rewrite Hlen. apply teamIndex_valid.
Qed.

(** The state after an applied pick, field by field. *)
Lemma makePick_Some (st st' : State) (player : DraftPlayer) :
  makePick st player = Some st' ->
  allPlayers st' = allPlayers st
  /\ availablePlayers st'
     = filter (fun p => DraftPlayer.id p ≠ DraftPlayer.id player)
              (availablePlayers st)
  /\ (exists pick, draftPicks st' = draftPicks st ++ [pick]
                   /\ DraftPick.player pick = player
                   /\ DraftPick.overall pick
                      = (Z.of_nat (length (draftPicks st)) + 1)%Z)
  /\ (exists roster,
        teamRosters st !! Z.to_nat (currentTeamIndex st) = Some roster
        /\ teamRosters st'
           = <[Z.to_nat (currentTeamIndex st) :=
                 TeamRoster.set (DraftPlayer.position player)
                   (TeamRoster.get (DraftPlayer.position player) roster
                    ++ [player]) roster]> (teamRosters st))
  /\ length (teamRosters st') = length (teamRosters st)
  /\ draftPhase st'
     = (if (Z.of_nat (length (draftPicks st)) + 1 >=? ROUNDS * NUM_TEAMS)%Z
        then complete else draftPhase st)
  /\ userPickPosition st' = userPickPosition st
  /\ autopick st' = autopick st.
Proof.
  unfold makePick. cbv zeta.
  change (getSnakeDraftTeamIndex (Z.of_nat (length (draftPicks st))) NUM_TEAMS)
    with (currentTeamIndex st).
  destruct (teamRosters st !! _) as [roster|] eqn:Hroster; [|discriminate].
  intros [= <-]. simpl. rewrite length_insert.
  repeat split; try reflexivity.
  - eexists. repeat split; reflexivity.
  - exists roster. split; reflexivity.
Qed.

Lemma handleUserPick_cases (st st' : State) (player : DraftPlayer) :
  handleUserPick st player = Some st' ->
  st' = st
  \/ (draftPhase st = drafting /\ isUserTurn st = true
      /\ makePick st player = Some st').
Proof.
  unfold handleUserPick.
  destruct (isUserTurn st); simpl; [|intros [= <-]; by left].
  case_bool_decide; simpl; [|intros [= <-]; by left].
  intros Hm. right. done.
Qed.

Lemma autoDraft_cases (random : nat -> Q) (st st' : State) :
  autoDraft random st = Some st' ->
  st' = st
  \/ (draftPhase st = drafting
      /\ exists teamRoster pick,
          teamRosters st !! Z.to_nat (currentTeamIndex st) = Some teamRoster
          /\ getCPUPick random (availablePlayers st) teamRoster
               (currentRound st) = Some pick
          /\ makePick st pick = Some st').
Proof.
  unfold autoDraft.
  case_bool_decide; simpl; [|intros [= <-]; by left].
  destruct (isUserTurn st && negb (autopick st)); [intros [= <-]; by left|].
  destruct (length (availablePlayers st) =? 0)%nat; [intros [= <-]; by left|].
  destruct (teamRosters st !! _) as [teamRoster|] eqn:Hr; [|discriminate].
  destruct (getCPUPick _ _ _ _) as [pick|] eqn:Hp; [|intros [= <-]; by left].
  intros Hm. right. split; [done|]. by exists teamRoster, pick.
Qed.

Lemma filter_absent (player : DraftPlayer) (pool : list DraftPlayer) :
  DraftPlayer.id player ∉ ids pool ->
  filter (fun p => DraftPlayer.id p ≠ DraftPlayer.id player) pool = pool.
Proof.
  induction pool as [|q pool IH]; [reflexivity|].
  unfold ids. rewrite fmap_cons, not_elem_of_cons. intros [Hq Hrest].
  rewrite filter_cons_True by congruence. f_equal. by apply IH.
Qed.

Lemma filter_removes_one (player : DraftPlayer) (pool : list DraftPlayer) :
  NoDup (ids pool) -> player ∈ pool ->
  (length (filter (fun p => DraftPlayer.id p ≠ DraftPlayer.id player) pool) + 1
   = length pool)%nat.
Proof.
  induction pool as [|q pool IH]; [intros _ H; by apply elem_of_nil in H|].
  unfold ids. rewrite fmap_cons, NoDup_cons. intros [Hq Hnd].
  intros [->|Hin]%elem_of_cons.
  - rewrite filter_cons_False by (intros H; by apply H).
    rewrite filter_absent by exact Hq. simpl. lia.
  - rewrite filter_cons_True.
    + simpl. rewrite <- (IH Hnd Hin). lia.
    + intros Heq. apply Hq. rewrite Heq.
      apply list_elem_of_fmap. by exists player.
Qed.

Lemma filter_ids_NoDup (P : DraftPlayer -> Prop) `{!forall p, Decision (P p)}
    (pool : list DraftPlayer) :
  NoDup (ids pool) -> NoDup (ids (filter P pool)).
Proof.
  unfold ids. induction pool as [|q pool IH]; [done|].
  rewrite fmap_cons, NoDup_cons. intros [Hq Hnd].
  rewrite filter_cons. destruct (decide (P q)); [|by apply IH].
  rewrite fmap_cons, NoDup_cons. split; [|by apply IH].
  intros (r & Hr & Hin)%list_elem_of_fmap. apply Hq.
  apply list_elem_of_fmap. exists r. split; [done|].
  by apply list_elem_of_filter in Hin as [_ Hin].
Qed.

Lemma makePick_invariant (st st' : State) (player : DraftPlayer) :
  invariant st -> draftPhase st = drafting -> player ∈ availablePlayers st ->
  makePick st player = Some st' -> invariant st'.
Proof.
  intros [Hlen Hphase Hpool] Hdrafting Hin Hpick.
  apply makePick_Some in Hpick
    as (Hall & Havail & (pick & Hpicks & _) & _ & Hros & Hph & _).
  unfold phaseLedger in Hphase. rewrite Hdrafting in Hphase.
  split.
  - by rewrite Hros.
  - unfold phaseLedger. rewrite Hph, Hpicks, length_app. simpl.
    destruct (_ >=? _)%Z eqn:Hge; [|rewrite Hdrafting]; lia.
  - rewrite Hall. intros Hnd. destruct (Hpool Hnd) as [Hcons Hnd'].
    unfold conserved in *. rewrite Hall, Havail, Hpicks, length_app. simpl.
    split; [|by apply filter_ids_NoDup].
    pose proof (filter_removes_one player _ Hnd' Hin). lia.
Qed.

Lemma startDraft_invariant (st : State) : invariant (startDraft st).
Proof.
  split; simpl.
  - reflexivity.
  - unfold phaseLedger. simpl. reflexivity.
  - intros Hnd. split; [reflexivity|exact Hnd].
Qed.

Lemma resetDraft_invariant (st : State) : invariant (resetDraft st).
Proof.
  split; simpl.
  - reflexivity.
  - reflexivity.
  - intros Hnd. split; [reflexivity|exact Hnd].
Qed.

Lemma mounted_invariant : invariant mounted.
Proof.
  split; simpl; [reflexivity|reflexivity|].
  intros Hnd. split; [reflexivity|exact Hnd].
Qed.

Lemma handleUserPick_invariant (st st' : State) (player : DraftPlayer) :
  invariant st -> player ∈ availablePlayers st ->
  handleUserPick st player = Some st' -> invariant st'.
Proof.
  intros Hinv Hin [->|(Hd & _ & Hpick)]%handleUserPick_cases; [exact Hinv|].
  eapply makePick_invariant; eassumption.
Qed.

Lemma autoDraft_invariant (random : nat -> Q) (st st' : State) :
  invariant st -> autoDraft random st = Some st' -> invariant st'.
Proof.
  intros Hinv [->|(Hd & r & p & _ & Hcpu & Hpick)]%autoDraft_cases;
    [exact Hinv|].
  apply getCPUPick_pick in Hcpu as [Hin _].
  eapply makePick_invariant; eassumption.
Qed.

Lemma dispatch_invariant (st st' : State) (ev : Event) :
  invariant st -> dispatch st ev = Some st' -> invariant st'.
Proof.
  intros Hinv. pose proof Hinv as [Hlen Hphase Hpool].
  unfold phaseLedger in Hphase. unfold dispatch.
  destruct ev as [byName|pos| |row|v| | |random];
    try (by apply autoDraft_invariant);
    destruct (draftPhase st) eqn:Hd; try discriminate.
  - intros [= <-]. split; simpl; [exact Hlen|unfold phaseLedger; simpl; by rewrite Hd|].
    intros Hnd. unfold conserved. simpl. rewrite Hphase. by split.
  - destruct (_ && _); [|discriminate]. intros [= <-].
    split; simpl; [exact Hlen|unfold phaseLedger; simpl; by rewrite Hd|exact Hpool].
  - intros [= <-]. apply startDraft_invariant.
  - destruct (availablePlayers st !! row) as [player|] eqn:Hrow; [|discriminate].
    apply handleUserPick_invariant; [exact Hinv|].
    by eapply list_elem_of_lookup_2.
  - intros [= <-].
    split; simpl; [exact Hlen|unfold phaseLedger; simpl; by rewrite Hd|exact Hpool].
  - intros [= <-]. apply resetDraft_invariant.
  - intros [= <-]. apply resetDraft_invariant.
Qed.

Lemma run_invariant (events : list Event) (st st' : State) :
  invariant st -> run st events = Some st' -> invariant st'.
Proof.
  revert st. induction events as [|ev events IH]; intros st Hinv; simpl.
  - by intros [= <-].
  - destruct (dispatch st ev) as [st1|] eqn:Hstep; [|discriminate].
    apply IH. by eapply dispatch_invariant.
Qed.

Lemma reachable_invariant (st : State) : reachable st -> invariant st.
Proof. intros [events Hrun]. by eapply run_invariant, Hrun; apply mounted_invariant. Qed.

(** From a state the page can reach, neither the auto-draft effect nor a
    click of the user raises a [TypeError]. *)
Lemma reachable_progress (st : State) (random : nat -> Q)
    (player : DraftPlayer) :
  reachable st ->
  is_Some (autoDraft random st) /\ is_Some (handleUserPick st player).
Proof.
  intros [Hlen _ _]%reachable_invariant. split.
  - unfold autoDraft.
    destruct (negb _); [eauto|]. destruct (_ && _); [eauto|].
    destruct (_ =? _)%nat; [eauto|].
    destruct (lookup_lt_is_Some_2 (teamRosters st)
                (Z.to_nat (currentTeamIndex st))) as [roster ->].
    { rewrite Hlen. apply teamIndex_valid. }
    destruct (getCPUPick _ _ _ _); [|eauto]. by apply makePick_defined.
  - unfold handleUserPick. destruct (_ || _); [eauto|].
    by apply makePick_defined.
Qed.

(** C6. In every state the page can reach the phase is [complete]
    exactly when the ledger holds [ROUNDS * NUM_TEAMS] = 15 * 12 = 180
    picks.  While the draft is on the ledger holds fewer, and every pick
    that is applied is recorded: [makePick] returns a state whose ledger is
    one entry longer, in phase [complete] when that entry is the 180th and
    still in phase [drafting] otherwise.  Once complete nothing but the
    reset of the results screen changes the state. *)
Theorem draft_completion (st : State) :
  reachable st ->
  (draftPhase st = complete
   <-> (Z.of_nat (length (draftPicks st)) = ROUNDS * NUM_TEAMS)%Z)
  /\ (ROUNDS * NUM_TEAMS = 180)%Z
  /\ (draftPhase st = drafting ->
      (Z.of_nat (length (draftPicks st)) < ROUNDS * NUM_TEAMS)%Z
      /\ forall player, exists st',
           makePick st player = Some st'
           /\ length (draftPicks st') = S (length (draftPicks st))
           /\ draftPhase st'
              = if decide (Z.of_nat (length (draftPicks st'))
                           = ROUNDS * NUM_TEAMS)%Z
                then complete else drafting)
  /\ (forall ev st', draftPhase st = complete -> dispatch st ev = Some st' ->
      st' = st \/ (ev = DraftAgain /\ st' = resetDraft st)).
Proof.
  intros [Hlen Hphase _]%reachable_invariant. unfold phaseLedger in Hphase.
  split; [|split; [reflexivity|split]].
  - destruct (draftPhase st); split; try done.
    + rewrite Hphase. discriminate.
    + unfold ROUNDS, NUM_TEAMS in *. lia.
  - intros Hdrafting. rewrite Hdrafting in Hphase. split; [exact Hphase|].
    intros player.
    destruct (makePick_defined st player Hlen) as [st' Hpick].
    exists st'. split; [exact Hpick|].
    apply makePick_Some
      in Hpick as (_ & _ & (pick & Hledger & _) & _ & _ & Hnext & _).
    rewrite Hledger, length_app, Nat.add_1_r. split; [reflexivity|].
    rewrite Hnext, Hdrafting.
    destruct (_ >=? _)%Z eqn:Hfull; case_decide; try reflexivity;
      [apply Z.geb_le in Hfull|rewrite Z.geb_leb in Hfull;
                               apply Z.leb_gt in Hfull]; lia.
  - intros ev st' Hc. unfold dispatch. rewrite Hc.
    destruct ev; try discriminate.
    + intros [= <-]. right. done.
    + unfold autoDraft. rewrite Hc. simpl. intros [= <-]. by left.
Qed.

Lemma filter_unique (player : DraftPlayer) (pool : list DraftPlayer) :
  uniqueIn player pool ->
  (length (filter (fun p => DraftPlayer.id p ≠ DraftPlayer.id player) pool) + 1
   = length pool)%nat.
Proof.
  intros [_ Hone].
  pose proof (filter_app_complement
                (fun p => DraftPlayer.id p ≠ DraftPlayer.id player) pool)
    as Hsplit.
  apply Permutation_length in Hsplit. rewrite length_app in Hsplit.
  rewrite <- Hsplit. f_equal. rewrite <- Hone. f_equal.
  apply list_filter_iff. intros p. split.
  - intros Heq Hne. exact (Hne Heq).
  - intros Hnn.
    destruct (decide (DraftPlayer.id p = DraftPlayer.id player)) as [Heq|Hne];
      [exact Heq|]. destruct (Hnn Hne).
Qed.

(** C10. Start from [startDraft] and apply any sequence of picks, each of
    a player drawn from the available pool whose id is unique there.
    After every pick the length of the ledger plus the size of the
    available pool is the size of the valuated pool, and every such pick
    takes exactly one player off the available pool. *)
Theorem pool_conservation (st0 st : State) :
  fairDraft st0 st ->
  (length (draftPicks st) + length (availablePlayers st)
   = length (allPlayers st0))%nat
  /\ (forall player st',
        uniqueIn player (availablePlayers st) ->
        makePick st player = Some st' ->
        (length (availablePlayers st') + 1
         = length (availablePlayers st))%nat).
Proof.
  intros Hdraft.
  assert (Hstep : forall s player s',
             uniqueIn player (availablePlayers s) ->
             makePick s player = Some s' ->
             (length (availablePlayers s') + 1
              = length (availablePlayers s))%nat
             /\ length (draftPicks s') = S (length (draftPicks s))).
  { intros s player s' Huniq Hpick.
    apply makePick_Some in Hpick as (_ & -> & (pick & -> & _) & _).
    split; [by apply filter_unique|]. rewrite length_app. simpl. lia. }
  split; [|intros player st' Huniq Hpick; by apply (Hstep st player st')].
  induction Hdraft as [|st st' player _ IH Huniq Hpick]; [reflexivity|].
  destruct (Hstep _ _ _ Huniq Hpick) as [Hpool Hledger]. lia.
Qed.

(** On the page, where every pick is of an available player, it is enough
    that the ids of the valuated pool are pairwise distinct. *)
Lemma reachable_conserved (st : State) :
  reachable st -> NoDup (ids (allPlayers st)) -> conserved st.
Proof.
  intros [_ _ Hpool]%reachable_invariant Hnd. by destruct (Hpool Hnd).
Qed.

(** C5, as the specification words it, fails: in the drafting phase, on
    the user's turn, a pick of a player that is not in the available
    pool is recorded. *)
Lemma absent_player_counterexample :
  draftPhase twoPlayerDraft = drafting
  /\ (DraftPlayer.id stranger ∉ ids (availablePlayers twoPlayerDraft))
  /\ exists st', handleUserPick twoPlayerDraft stranger = Some st'
                 /\ length (draftPicks st') = 1%nat
                 /\ st' <> twoPlayerDraft.
Proof.
  split; [reflexivity|]. split.
  - intros Hin. vm_compute in Hin.
    repeat (apply elem_of_cons in Hin as [Hin|Hin]; [discriminate Hin|]).
    by apply elem_of_nil in Hin.
  - eexists. split; [vm_compute; reflexivity|]. split; [reflexivity|].
    discriminate.
Qed.

Lemma get_set (pos pos' : Position) (bucket : list DraftPlayer)
    (roster : TeamRoster) :
  TeamRoster.get pos' (TeamRoster.set pos bucket roster)
  = if decide (pos' = pos) then bucket else TeamRoster.get pos' roster.
Proof. destruct pos, pos'; reflexivity. Qed.

(** C5, amended.  Outside the drafting phase a pick, by the user or by
    the auto-draft effect, leaves the whole state (ledger, pool, rosters,
    phase) as it is.  In the drafting phase, on the user's turn, a pick
    of a player whose id is not in the available pool leaves the pool as
    it is, and is appended to the ledger and to the bucket of the acting
    team. *)
Theorem pick_protocol (st : State) (player : DraftPlayer) (random : nat -> Q) :
  (draftPhase st <> drafting ->
   handleUserPick st player = Some st /\ autoDraft random st = Some st)
  /\ (draftPhase st = drafting -> isUserTurn st = true ->
      length (teamRosters st) = Z.to_nat NUM_TEAMS ->
      DraftPlayer.id player ∉ ids (availablePlayers st) ->
      exists st' pick before after,
        handleUserPick st player = Some st'
        /\ availablePlayers st' = availablePlayers st
        /\ draftPicks st' = draftPicks st ++ [pick]
        /\ DraftPick.player pick = player
        /\ teamRosters st !! Z.to_nat (currentTeamIndex st) = Some before
        /\ teamRosters st' !! Z.to_nat (currentTeamIndex st) = Some after
        /\ TeamRoster.get (DraftPlayer.position player) after
           = TeamRoster.get (DraftPlayer.position player) before ++ [player]).
Proof.
  split.
  - intros Hphase. unfold handleUserPick, autoDraft.
    rewrite bool_decide_eq_false_2 by exact Hphase. simpl.
    by rewrite orb_true_r.
  - intros Hphase Hturn Hlen Habsent.
    destruct (makePick_defined st player Hlen) as [st' Hpick].
    pose proof (makePick_Some _ _ _ Hpick)
      as (_ & Havail & (pick & Hpicks & Hplayer & _)
          & (before & Hbefore & Hrosters) & _).
    exists st', pick, before. eexists. unfold handleUserPick.
    rewrite Hturn, bool_decide_eq_true_2 by exact Hphase. simpl.
    rewrite Havail, filter_absent by exact Habsent.
    repeat (split; [done|]). split.
    + rewrite Hrosters. apply list_lookup_insert_eq.
      by eapply lookup_lt_Some.
    + rewrite get_set. by rewrite decide_True.
Qed.

Lemma pick_protocol_witness :
  (handleUserPick mounted stranger = Some mounted
   /\ autoDraft alwaysHalf mounted = Some mounted)
  /\ exists st' pick before after,
      handleUserPick twoPlayerDraft stranger = Some st'
      /\ availablePlayers st' = availablePlayers twoPlayerDraft
      /\ draftPicks st' = draftPicks twoPlayerDraft ++ [pick]
      /\ DraftPick.player pick = stranger
      /\ teamRosters twoPlayerDraft
           !! Z.to_nat (currentTeamIndex twoPlayerDraft) = Some before
      /\ teamRosters st' !! Z.to_nat (currentTeamIndex twoPlayerDraft)
         = Some after
      /\ TeamRoster.get (DraftPlayer.position stranger) after
         = TeamRoster.get (DraftPlayer.position stranger) before ++ [stranger].
Proof.
  split.
  - apply (proj1 (pick_protocol mounted stranger alwaysHalf)). discriminate.
  - apply (proj2 (pick_protocol twoPlayerDraft stranger alwaysHalf));
      [reflexivity|reflexivity|reflexivity|].
    intros Hin. vm_compute in Hin.
    repeat (apply elem_of_cons in Hin as [Hin|Hin]; [discriminate Hin|]).
    by apply elem_of_nil in Hin.
Defined.

Lemma makePick_legal (st st' : State) (teamRoster : TeamRoster)
    (player : DraftPlayer) :
  legal st ->
  teamRosters st !! Z.to_nat (currentTeamIndex st) = Some teamRoster ->
  belowMax teamRoster player ->
  makePick st player = Some st' -> legal st'.
Proof.
  intros Hlegal Hroster Hbelow. unfold makePick. cbv zeta.
  change (getSnakeDraftTeamIndex (Z.of_nat (length (draftPicks st))) NUM_TEAMS)
    with (currentTeamIndex st).
  rewrite Hroster. intros [= <-]. unfold legal. simpl.
  apply Forall_insert; [exact Hlegal|].
  assert (Hold : withinMax teamRoster).
  { unfold legal in Hlegal. rewrite Forall_lookup in Hlegal. eauto. }
  intros pos. unfold countRosterPositions. rewrite get_set.
  destruct (decide (pos = DraftPlayer.position player)) as [->|_].
  - rewrite length_app. simpl. unfold belowMax, countRosterPositions in Hbelow.
    lia.
  - apply Hold.
Qed.

(** C1, as the specification words it, fails.  The user's first three
    picks can all be quarterbacks, which leaves team 0 with three
    against a maximum of two; and for a team that already holds two
    quarterbacks the heuristic proposes a third when quarterbacks are
    all that is left. *)
Lemma legality_counterexample :
  (exists st roster,
      run mounted overdraftEvents = Some st
      /\ teamRosters st !! 0%nat = Some roster
      /\ (max (ROSTER_TARGETS QB) < countRosterPositions roster QB)%Z)
  /\ (exists q1 q2 q3,
        getCPUPick alwaysHalf [q3] (TeamRoster.mk [q1; q2] [] [] []) 3 = Some q3
        /\ DraftPlayer.position q3 = QB
        /\ ~ belowMax (TeamRoster.mk [q1; q2] [] [] []) q3).
Proof.
  split.
  - eexists. eexists. split; [vm_compute; reflexivity|].
    split; [reflexivity|]. vm_compute. reflexivity.
  - exists (playerWithPoints QB "x" 3), (playerWithPoints QB "y" 2),
      (playerWithPoints QB "z" 1).
    split; [vm_compute; reflexivity|]. split; [reflexivity|].
    vm_compute. discriminate.
Qed.

(** C1, amended.  The heuristic returns an available player, and one at
    a position below its maximum whenever such a player is available.
    Hence no roster bucket ever exceeds its maximum in a draft where the
    auto-draft effect picks while such a player is available to the acting
    team and the user only picks at positions below the maximum.  (The
    engine itself applies any pick unchecked, and with no such player
    available the heuristic falls back on the whole pool.) *)
Theorem guarded_picks_legal :
  (forall random available teamRoster round p,
      getCPUPick random available teamRoster round = Some p ->
      p ∈ available
      /\ ((exists q, q ∈ available /\ belowMax teamRoster q) ->
          belowMax teamRoster p))
  /\ (forall st0 st, guardedDraft st0 st -> legal st).
Proof.
  split; [apply getCPUPick_pick|].
  intros st0 st Hdraft.
  induction Hdraft
    as [|st st' random _ IH Hopen Hauto
        |st st' teamRoster player _ IH Hroster Hbelow Huser].
  - unfold legal. simpl. apply Forall_replicate.
    intros pos. destruct pos; vm_compute; discriminate.
  - apply autoDraft_cases in Hauto
      as [->|(_ & teamRoster & pick & Hroster & Hcpu & Hpick)]; [exact IH|].
    destruct Hopen as (teamRoster' & q & Hroster' & Hq & Hbelow).
    rewrite Hroster in Hroster'. injection Hroster' as <-.
    apply getCPUPick_pick in Hcpu as [_ Hcpu].
    eapply makePick_legal; [exact IH|exact Hroster| |exact Hpick].
    apply Hcpu. by exists q.
  - apply handleUserPick_cases in Huser as [->|(_ & _ & Hpick)]; [exact IH|].
    eapply makePick_legal; eassumption.
Qed.

Lemma belowMaxb_belowMax (roster : TeamRoster) (p : DraftPlayer) :
  belowMaxb roster p = true -> belowMax roster p.
Proof. apply Z.ltb_lt. Qed.

(** The moves [guardedRun] accepts are those of a guarded draft. *)
Lemma guardedRun_sound (st0 st st' : State) (moves : list Move) :
  guardedDraft st0 st -> guardedRun st moves = Some st' ->
  guardedDraft st0 st'.
Proof.
  revert st. induction moves as [|move moves IH]; intros st Hdraft; simpl.
  - by intros [= <-].
  - destruct (guardedMove st move) as [st1|] eqn:Hmove; [|discriminate].
    apply IH. unfold guardedMove in Hmove.
    destruct (teamRosters st !! _) as [teamRoster|] eqn:Hroster;
      [|discriminate].
    destruct move as [random|row].
    + destruct (existsb _ _) eqn:Hopen; [|discriminate].
      apply existsb_exists in Hopen as (q & Hq & Hbelow).
      apply (guardedDraft_cpu _ st st1 random Hdraft); [|exact Hmove].
      exists teamRoster, q. split; [exact Hroster|].
      split; [by apply list_elem_of_In|by apply belowMaxb_belowMax].
    + destruct (availablePlayers st !! row) as [player|]; [|discriminate].
      destruct (belowMaxb teamRoster player) eqn:Hbelow; [|discriminate].
      apply (guardedDraft_user _ st st1 teamRoster player Hdraft Hroster);
        [by apply belowMaxb_belowMax|exact Hmove].
Qed.

(** The guarded draft of [guardedMoves] runs to the end: 180 picks,
    three of them clicked by the user, and every team is left with two
    quarterbacks and two tight ends, the maximum. *)
Example guarded_league_run :
  exists st,
    guardedRun (startDraft leagueSetup) guardedMoves = Some st
    /\ length (draftPicks st) = 180%nat
    /\ Forall (fun roster =>
                 countRosterPositions roster QB = max (ROSTER_TARGETS QB)
                 /\ countRosterPositions roster TE = max (ROSTER_TARGETS TE))
              (teamRosters st).
Proof.
  eexists. split; [vm_compute; reflexivity|]. split; [reflexivity|].
  repeat constructor.
Qed.

Lemma guarded_picks_legal_witness :
  legal guardedLeague
  /\ length (draftPicks guardedLeague) = 180%nat
  /\ Forall (fun roster =>
               countRosterPositions roster QB = max (ROSTER_TARGETS QB)
               /\ countRosterPositions roster TE = max (ROSTER_TARGETS TE))
            (teamRosters guardedLeague).
Proof.
  destruct guarded_league_run as (st & Hrun & Hlen & Hmax).
  unfold guardedLeague. rewrite Hrun. simpl.
  split; [|by split].
  apply (proj2 guarded_picks_legal leagueSetup st).
  apply (guardedRun_sound leagueSetup (startDraft leagueSetup) st
           guardedMoves); [apply guardedDraft_start|exact Hrun].
Defined.

(** A whole 12-team, 15-round draft on auto-pick ends in [complete] with
    180 picks in the ledger. *)
Example full_draft_completes :
  exists st, run mounted fullDraftEvents = Some st
             /\ draftPhase st = complete
             /\ length (draftPicks st) = 180%nat.
Proof.
  eexists. split; [vm_compute; reflexivity|]. split; reflexivity.
Qed.

(** The same draft with one pick to go: 179 picks in the ledger, the
    draft still on, players still available. *)
Example last_turn_reached :
  exists st, run mounted (take 182 fullDraftEvents) = Some st
             /\ draftPhase st = drafting
             /\ length (draftPicks st) = 179%nat
             /\ length (availablePlayers st) = 41%nat.
Proof.
  eexists. split; [vm_compute; reflexivity|]. repeat split; reflexivity.
Qed.

Lemma draft_completion_witness :
  draftPhase draftedLeague = complete
  /\ exists player st',
       player ∈ availablePlayers lastTurn
       /\ makePick lastTurn player = Some st'
       /\ length (draftPicks st') = 180%nat
       /\ draftPhase st' = complete.
Proof.
  destruct full_draft_completes as (st & Hrun & _ & Hledger).
  destruct last_turn_reached as (st1 & Hrun1 & Hon & Hledger1 & Hcount).
  unfold draftedLeague, lastTurn. rewrite Hrun, Hrun1. simpl. split.
  - apply (draft_completion st); [by exists fullDraftEvents|].
    rewrite Hledger. reflexivity.
  - assert (Hreach : reachable st1) by (by exists (take 182 fullDraftEvents)).
    destruct (draft_completion st1 Hreach) as (_ & _ & Hpicks & _).
    destruct (Hpicks Hon) as [_ Hpick].
    destruct (availablePlayers st1) as [|player rest] eqn:Hpool;
      [discriminate Hcount|].
    destruct (Hpick player) as (st' & Hmake & Hlen & Hphase).
    exists player, st'. rewrite Hledger1 in Hlen. rewrite Hlen in Hphase.
    split; [by left|].
    split; [exact Hmake|]. split; [exact Hlen|exact Hphase].
Defined.

Lemma pool_conservation_witness :
  match makePick twoPlayerDraft (DraftPlayer.mk "RB-B" "B" RB 9 (9 - 0) 1 ∅) with
  | Some st =>
      (length (draftPicks st) + length (availablePlayers st)
       = length (allPlayers (playersLoaded (loadPlayers twoListings) mounted)))%nat
  | None => False
  end.
Proof.
  destruct (makePick twoPlayerDraft _) as [st|] eqn:Hpick.
  - apply (pool_conservation
             (playersLoaded (loadPlayers twoListings) mounted) st).
    eapply fairDraft_pick; [apply fairDraft_start| |exact Hpick].
    split; [|vm_compute; reflexivity].
    apply (list_elem_of_lookup_2 _ 1%nat). vm_compute. reflexivity.
  - vm_compute in Hpick. discriminate Hpick.
Defined.

(** C2, as the specification words it, fails: [makePick] appends to the
    bucket, so after the user drafts the 1-point quarterback and then
    the 3-point one the bucket is not in descending order, and
    [getStarterPoints] counts 1 point where the best quarterback is
    worth 3. *)
Lemma starter_order_counterexample :
  exists st roster,
    run mounted unsortedEvents = Some st
    /\ teamRosters st !! 0%nat = Some roster
    /\ DraftPlayer.points <$> TeamRoster.QB roster = [1; 3]%Q
    /\ (getStarterPoints roster == 1)%Q
    /\ (starterPoints_spec roster == 3)%Q
    /\ ~ (getStarterPoints roster == starterPoints_spec roster)%Q.
Proof.
  eexists. eexists. split; [vm_compute; reflexivity|].
  split; [reflexivity|]. split; [vm_compute; reflexivity|].
  split; [vm_compute; reflexivity|]. split; [vm_compute; reflexivity|].
  vm_compute. discriminate.
Qed.
End Draft.

(** * Further properties of the code *)

Section TurnOrderMore.
Import Utils.

Lemma round_position (q N r : Z) :
  (0 < N)%Z -> (r * N <= q < r * N + N)%Z ->
  (q / N = r)%Z /\ (q mod N = q - r * N)%Z.
Proof.
  intros HN Hq.
  assert (Hd : (q / N = r)%Z).
  { symmetry. apply (Z.div_unique q N r (q - r * N)); lia. }
  split; [exact Hd|].
  pose proof (Z.div_mod q N ltac:(lia)) as Hdm. rewrite Hd in Hdm. lia.
Qed.

(** X1. In every round each team picks exactly once: for a team [t] of an
    [N]-team draft, the pick [r * N + t] (even [r]) or [r * N + N - 1 - t]
    (odd [r]) is the only pick of round [r] that the scheduler gives to
    [t]; and the team that picks last in a round picks first in the
    next. *)
Theorem snake_once_per_round (N r t : Z) :
  (0 < N)%Z -> (0 <= r)%Z -> (0 <= t < N)%Z ->
  let p := (r * N + (if Z.even r then t else N - 1 - t))%Z in
  (r * N <= p < r * N + N)%Z
  /\ getSnakeDraftTeamIndex p N = t
  /\ (forall q, (r * N <= q < r * N + N)%Z ->
                getSnakeDraftTeamIndex q N = t -> q = p)
  /\ getSnakeDraftTeamIndex (r * N + N - 1) N
     = getSnakeDraftTeamIndex ((r + 1) * N) N.
Proof.
  intros HN Hr Ht. cbv zeta.
  assert (Hsnake : forall q, (r * N <= q < r * N + N)%Z ->
             getSnakeDraftTeamIndex q N
             = if Z.even r then (q - r * N)%Z else (N - 1 - (q - r * N))%Z).
  { intros q Hq. rewrite snake_unfold by nia.
    destruct (round_position q N r HN Hq) as [-> ->]. reflexivity. }
  split; [destruct (Z.even r); lia|]. split; [|split].
  - rewrite Hsnake by (destruct (Z.even r); lia). destruct (Z.even r); lia.
  - intros q Hq. rewrite (Hsnake q Hq). destruct (Z.even r); lia.
  - rewrite Hsnake by lia.
    rewrite snake_unfold by nia.
    destruct (round_position ((r + 1) * N) N (r + 1) HN ltac:(lia)) as [-> ->].
    replace (r + 1)%Z with (Z.succ r) by lia. rewrite Z.even_succ.
    rewrite <- Z.negb_even. destruct (Z.even r); simpl; lia.
Qed.

Lemma snake_once_per_round_witness :
  (1 * 12 <= 1 * 12 + (12 - 1 - 4) < 1 * 12 + 12)%Z
  /\ getSnakeDraftTeamIndex (1 * 12 + (12 - 1 - 4)) 12 = 4%Z
  /\ (forall q, (1 * 12 <= q < 1 * 12 + 12)%Z ->
                getSnakeDraftTeamIndex q 12 = 4%Z -> q = (1 * 12 + (12 - 1 - 4))%Z)
  /\ getSnakeDraftTeamIndex (1 * 12 + 12 - 1) 12
     = getSnakeDraftTeamIndex ((1 + 1) * 12) 12.
Proof. apply (snake_once_per_round 12 1 4); lia. Defined.

(** X2. [getOrdinalSuffix] gives every integer from 0 the suffix of its
    English ordinal: "st", "nd", "rd" after a last digit 1, 2, 3, except
    in 11, 12, 13 (and 111, 112, ...), and "th" otherwise; negative
    integers get "th". *)
Theorem ordinal_suffix_english (n : Z) :
  ((0 <= n)%Z -> getOrdinalSuffix n = Some (ordinalSuffix_spec n))
  /\ ((n < 0)%Z -> getOrdinalSuffix n = Some "th"%string).
Proof.
  assert (Htable : forallb
            (fun v => bool_decide
               (Js.orElse
                  (Js.orElse (Js.at_ ["th"; "st"; "nd"; "rd"]%string
                                (Js.remainder (v - 20) 10))
                             (Js.at_ ["th"; "st"; "nd"; "rd"]%string v))
                  (Js.at_ ["th"; "st"; "nd"; "rd"]%string 0)
                = Some (if (0 <=? v)%Z then ordinalSuffix_spec v else "th"%string)))
            ((fun i => (Z.of_nat i - 99)%Z) <$> seq 0 199) = true)
    by (vm_compute; reflexivity).
  rewrite forallb_forall in Htable.
  assert (Hv : forall v, (-100 < v < 100)%Z ->
             Js.orElse
               (Js.orElse (Js.at_ ["th"; "st"; "nd"; "rd"]%string
                             (Js.remainder (v - 20) 10))
                          (Js.at_ ["th"; "st"; "nd"; "rd"]%string v))
               (Js.at_ ["th"; "st"; "nd"; "rd"]%string 0)
             = Some (if (0 <=? v)%Z then ordinalSuffix_spec v else "th"%string)).
  { intros v Hrange. eapply bool_decide_eq_true_1, Htable.
    apply list_elem_of_In, list_elem_of_fmap.
    exists (Z.to_nat (v + 99)). cbv beta. split; [lia|].
    apply elem_of_seq. lia. }
  unfold getOrdinalSuffix. cbv zeta.
  change (Js.remainder n 100) with (Z.rem n 100).
  split; intros Hn.
  - pose proof (Z.rem_bound_pos n 100 Hn ltac:(lia)) as Hb.
    rewrite Hv by lia.
    replace (0 <=? Z.rem n 100)%Z with true by (symmetry; apply Z.leb_le; lia).
    f_equal. unfold ordinalSuffix_spec.
    rewrite Z.rem_mod_nonneg by lia.
    rewrite Z.mod_mod by lia.
    rewrite (Z.mod_mod_divide n 100 10) by (exists 10%Z; reflexivity).
    reflexivity.
  - pose proof (Z.rem_bound_pos_neg n 100 ltac:(lia) ltac:(lia)) as Hb.
    destruct (Z.eq_dec (Z.rem n 100) 0) as [H0|H0].
    + rewrite H0. reflexivity.
    + rewrite Hv by lia.
      replace (0 <=? Z.rem n 100)%Z with false
        by (symmetry; apply Z.leb_gt; lia).
      reflexivity.
Qed.

Lemma ordinal_suffix_english_witness :
  getOrdinalSuffix 112 = Some (ordinalSuffix_spec 112)
  /\ getOrdinalSuffix (-1) = Some "th"%string.
Proof.
  split.
  - apply (proj1 (ordinal_suffix_english 112)). lia.
  - apply (proj2 (ordinal_suffix_english (-1))). lia.
Defined.
End TurnOrderMore.

Section RosterPoints.
Import Scoring Constants Utils.

Lemma lineup_unfold (roster : TeamRoster) :
  lineup roster
  = take 1 (TeamRoster.QB roster) ++ take 2 (TeamRoster.RB roster)
    ++ take 2 (TeamRoster.WR roster) ++ take 1 (TeamRoster.TE roster)
    ++ take 1 (Js.sort byPointsDesc
                 (drop 2 (TeamRoster.RB roster) ++ drop 2 (TeamRoster.WR roster)
                  ++ drop 1 (TeamRoster.TE roster))).
Proof. reflexivity. Qed.

(** X3. The starter points count players of the roster only, and none
    twice: the players [getStarterPoints] adds up, at most 7, are a
    sub-multiset of the players [getTeamTotalPoints] adds up. *)
Theorem starters_are_roster_players (roster : TeamRoster) :
  getStarterPoints roster = sumPoints (lineup roster)
  /\ getTeamTotalPoints roster = sumPoints (wholeRoster roster)
  /\ lineup roster ⊆+ wholeRoster roster
  /\ (length (lineup roster) <= 7)%nat.
Proof.
  split; [reflexivity|]. split; [reflexivity|].
  rewrite lineup_unfold. unfold wholeRoster.
  set (qb := TeamRoster.QB roster). set (rb := TeamRoster.RB roster).
  set (wr := TeamRoster.WR roster). set (te := TeamRoster.TE roster).
  set (flex := take 1 (Js.sort byPointsDesc _)).
  assert (Hflex : flex ⊆+ drop 2 rb ++ drop 2 wr ++ drop 1 te).
  { unfold flex.
    transitivity (Js.sort byPointsDesc (drop 2 rb ++ drop 2 wr ++ drop 1 te)).
    - apply sublist_submseteq, sublist_take.
    - apply Permutation_submseteq, sort_Permutation. }
  split.
  - rewrite <- (take_drop 1 qb) at 2. rewrite <- (take_drop 2 rb) at 2.
    rewrite <- (take_drop 2 wr) at 2. rewrite <- (take_drop 1 te) at 2.
    transitivity (take 1 qb ++ take 2 rb ++ take 2 wr ++ take 1 te
                  ++ (drop 1 qb ++ drop 2 rb ++ drop 2 wr ++ drop 1 te)).
    + repeat (apply submseteq_app; [reflexivity|]).
      by apply submseteq_inserts_l.
    + apply Permutation_submseteq. rewrite <- !app_assoc.
      solve_Permutation.
  - assert (Hone : (length flex <= 1)%nat)
      by (unfold flex; rewrite length_take; lia).
    rewrite !length_app, !length_take. lia.
Qed.

Lemma filter_index_below {A} (n k : nat) (l : list A) :
  snd <$> filter (fun ip : nat * A => (fst ip < n)%nat)
                 (imap (fun i x => ((k + i)%nat, x)) l)
  = take (n - k) l
  /\ snd <$> filter (fun ip : nat * A => ~ (fst ip < n)%nat)
                    (imap (fun i x => ((k + i)%nat, x)) l)
     = drop (n - k) l.
Proof.
  revert k. induction l as [|x l IH]; intros k.
  - simpl. by rewrite take_nil, drop_nil.
  - assert (Hshift : imap ((fun i x => ((k + i)%nat, x)) ∘ S) l
                     = imap (fun i x => ((S k + i)%nat, x)) l).
    { apply imap_ext. intros i y _. simpl. f_equal. lia. }
    destruct (IH (S k)) as [IHt IHd].
    rewrite imap_cons, Hshift. split.
    + destruct (decide (k + 0 < n)%nat) as [Hlt|Hge].
      * rewrite filter_cons_True by exact Hlt.
        rewrite fmap_cons, IHt.
        replace (n - k)%nat with (S (n - S k)) by lia. reflexivity.
      * rewrite filter_cons_False by exact Hge.
        rewrite IHt.
        replace (n - k)%nat with 0%nat by lia.
        replace (n - S k)%nat with 0%nat by lia.
        by rewrite !take_0.
    + destruct (decide (k + 0 < n)%nat) as [Hlt|Hge].
      * rewrite filter_cons_False by (intros H; by apply H).
        rewrite IHd.
        replace (n - k)%nat with (S (n - S k)) by lia. reflexivity.
      * rewrite filter_cons_True by exact Hge.
        rewrite fmap_cons, IHd.
        replace (n - k)%nat with 0%nat by lia.
        replace (n - S k)%nat with 0%nat by lia.
        by rewrite !drop_0.
Qed.

Lemma starterSlot_index (pos : Position) (i : nat) :
  isStarterSlot pos (Z.of_nat i) = true
  <-> (i < match pos with QB | TE => 1 | RB | WR => 2 end)%nat.
Proof.
  destruct pos; simpl; rewrite ?Z.eqb_eq, ?Z.leb_le; lia.
Qed.

Lemma marked_take (pos : Position) (bucket : list DraftPlayer) :
  markedStarters pos bucket
  = take (match pos with QB | TE => 1 | RB | WR => 2 end) bucket
  /\ unmarked pos bucket
     = drop (match pos with QB | TE => 1 | RB | WR => 2 end) bucket.
Proof.
  set (n := match pos with QB | TE => 1%nat | RB | WR => 2%nat end).
  destruct (filter_index_below n 0 bucket) as [Ht Hd].
  rewrite Nat.sub_0_r in Ht, Hd. rewrite <- Ht, <- Hd.
  unfold markedStarters, unmarked. split; f_equal.
  - apply list_filter_iff. intros [i p]. simpl. apply starterSlot_index.
  - apply list_filter_iff. intros [i p]. simpl.
    by rewrite starterSlot_index.
Qed.

(** X4. The display rule and the scoring rule agree: [getStarterPoints]
    sums exactly the players that [isStarterSlot] marks, at every
    position, and adds the highest points value among the RB, WR and TE
    it does not mark. *)
Theorem starter_slots_are_scored (roster : TeamRoster) :
  (getStarterPoints roster
   == sumPoints (markedStarters QB (TeamRoster.QB roster))
      + sumPoints (markedStarters RB (TeamRoster.RB roster))
      + sumPoints (markedStarters WR (TeamRoster.WR roster))
      + sumPoints (markedStarters TE (TeamRoster.TE roster))
      + flexPoints_spec (unmarked RB (TeamRoster.RB roster)
                         ++ unmarked WR (TeamRoster.WR roster)
                         ++ unmarked TE (TeamRoster.TE roster)))%Q.
Proof.
  rewrite getStarterPoints_unfold.
  destruct (marked_take QB (TeamRoster.QB roster)) as [-> _].
  destruct (marked_take RB (TeamRoster.RB roster)) as [-> ->].
  destruct (marked_take WR (TeamRoster.WR roster)) as [-> ->].
  destruct (marked_take TE (TeamRoster.TE roster)) as [-> ->].
  reflexivity.
Qed.
End RosterPoints.

Section DraftMore.
Import Scoring Constants Utils Hooks DraftPage.

Lemma dispatch_cases (st st' : State) (ev : Event) :
  dispatch st ev = Some st' ->
  (exists byName, draftPhase st = setup
                  /\ st' = playersLoaded (loadPlayers byName) st)
  \/ (exists pos, draftPhase st = setup /\ (1 <= pos <= 12)%Z
                  /\ st' = setUserPickPosition pos st)
  \/ (draftPhase st = setup /\ st' = startDraft st)
  \/ (exists v, draftPhase st = drafting /\ st' = setAutopick v st)
  \/ st' = resetDraft st
  \/ st' = st
  \/ (draftPhase st = drafting
      /\ exists player, player ∈ availablePlayers st
                        /\ makePick st player = Some st').
Proof.
  unfold dispatch.
  destruct ev as [byName|pos| |row|v| | |random].
  - destruct (draftPhase st) eqn:Hd; try discriminate.
    intros [= <-]. left. by exists byName.
  - destruct (draftPhase st) eqn:Hd; try discriminate.
    destruct (_ && _) eqn:Hrange; [|discriminate]. intros [= <-].
    right. left. exists pos. apply andb_true_iff in Hrange as [H1 H2].
    apply Z.leb_le in H1, H2. done.
  - destruct (draftPhase st) eqn:Hd; try discriminate.
    intros [= <-]. do 2 right. by left.
  - destruct (draftPhase st) eqn:Hd; try discriminate.
    destruct (availablePlayers st !! row) as [player|] eqn:Hrow; [|discriminate].
    intros [->|(_ & _ & Hpick)]%handleUserPick_cases; [by do 5 right; left|].
    do 6 right. split; [done|]. exists player. split; [|done].
    by eapply list_elem_of_lookup_2.
  - destruct (draftPhase st) eqn:Hd; try discriminate.
    intros [= <-]. do 3 right. left. by exists v.
  - destruct (draftPhase st) eqn:Hd; try discriminate.
    intros [= <-]. do 4 right. by left.
  - destruct (draftPhase st) eqn:Hd; try discriminate.
    intros [= <-]. do 4 right. by left.
  - assert (Hgen : autoDraft random st = Some st' ->
              st' = st
              \/ (draftPhase st = drafting
                  /\ exists player, player ∈ availablePlayers st
                                    /\ makePick st player = Some st')).
    { intros [->|(Hd & r & p & _ & Hcpu & Hpick)]%autoDraft_cases; [by left|].
      right. split; [done|]. exists p. split; [|done].
      by apply getCPUPick_pick in Hcpu as [Hin _]. }
    destruct (draftPhase st); intros H; apply Hgen in H as [->|H];
      solve [by do 5 right; left | by do 6 right].
Qed.

(** Induction over the states the page can reach. *)
Lemma reachable_induction (P : State -> Prop) :
  P mounted ->
  (forall st ev st', invariant st -> P st -> dispatch st ev = Some st' -> P st') ->
  forall st, reachable st -> P st.
Proof.
  intros Hinit Hstep st [events Hrun].
  assert (Hgen : forall events s s',
             invariant s -> P s -> run s events = Some s' -> P s').
  { clear events Hrun. induction events as [|ev events IH]; intros s s' Hinv Hs; simpl.
    - by intros [= <-].
    - destruct (dispatch s ev) as [s1|] eqn:Hd; [|discriminate].
      apply IH; [by eapply dispatch_invariant|by eapply Hstep]. }
  eapply Hgen; [apply mounted_invariant|exact Hinit|exact Hrun].
Qed.

(** The ledger after [makePick]. *)
Lemma makePick_entry (st st' : State) (player : DraftPlayer) :
  makePick st player = Some st' ->
  draftPicks st'
  = draftPicks st
    ++ [DraftPick.mk
          (Z.of_nat (length (draftPicks st)) `div` NUM_TEAMS + 1)%Z
          (Z.of_nat (length (draftPicks st)) `mod` NUM_TEAMS + 1)%Z
          (Z.of_nat (length (draftPicks st)) + 1)%Z
          (currentTeamIndex st) player].
Proof.
  unfold makePick. cbv zeta.
  destruct (teamRosters st !! _) as [roster|]; [|discriminate].
  intros [= <-]. simpl. unfold Js.floorDiv.
  rewrite remainder_nonneg by (unfold NUM_TEAMS; lia). reflexivity.
Qed.

Lemma currentTeamIndex_nat (st : State) :
  Z.of_nat (Z.to_nat (currentTeamIndex st)) = currentTeamIndex st.
Proof.
  pose proof (snake_range (currentPick st) NUM_TEAMS) as H.
  unfold currentTeamIndex, currentPick, NUM_TEAMS in *. lia.
Qed.

Lemma ledgerNumbered_nil : ledgerNumbered [].
Proof. intros i pick Hi. by rewrite lookup_nil in Hi. Qed.

Lemma ledgerNumbered_pick (st st' : State) (player : DraftPlayer) :
  ledgerNumbered (draftPicks st) -> makePick st player = Some st' ->
  ledgerNumbered (draftPicks st').
Proof.
  intros Hnum Hpick i pick. rewrite (makePick_entry _ _ _ Hpick).
  intros [Hi|[Hi Hlast]]%lookup_app_Some; [by apply Hnum|].
  apply list_lookup_singleton_Some in Hlast as [Hzero <-].
  assert (i = length (draftPicks st)) as -> by lia.
  simpl. repeat split; reflexivity.
Qed.

(** X5. The ledger is numbered by the scheduler: in every state the page
    can reach, entry [i] (from 0) has overall number [i + 1], round
    [i div 12 + 1], pick-in-round [i mod 12 + 1] and the team the turn
    scheduler gives pick [i]; so overall numbers go up by one from 1, and
    the round and the pick lie within 1..15 and 1..12. *)
Theorem ledger_numbering (st : State) :
  reachable st ->
  ledgerNumbered (draftPicks st)
  /\ (forall i pick, draftPicks st !! i = Some pick ->
        (1 <= DraftPick.round pick <= ROUNDS)%Z
        /\ (1 <= DraftPick.pick pick <= NUM_TEAMS)%Z
        /\ (0 <= DraftPick.teamIndex pick < NUM_TEAMS)%Z).
Proof.
  intros Hreach.
  assert (Hnum : ledgerNumbered (draftPicks st)).
  { revert st Hreach. apply reachable_induction.
    - apply ledgerNumbered_nil.
    - intros st ev st' [_ Hphase _] Hnum Hd.
      unfold phaseLedger in Hphase.
      apply dispatch_cases in Hd
        as [(b & Hs & ->)|[(p & Hs & _ & ->)|[[Hs ->]|[(v & _ & ->)
            |[->|[->|(_ & player & _ & Hpick)]]]]]]; simpl;
        first [exact Hnum | apply ledgerNumbered_nil
              | by eapply ledgerNumbered_pick]. }
  split; [exact Hnum|].
  intros i pick Hi. destruct (Hnum i pick Hi) as (_ & -> & -> & ->).
  apply reachable_invariant in Hreach as [_ Hphase _].
  apply lookup_lt_Some in Hi. unfold phaseLedger in Hphase.
  assert (Hlen : (Z.of_nat i < ROUNDS * NUM_TEAMS)%Z).
  { destruct (draftPhase st); [rewrite Hphase in Hi; simpl in Hi| |]; lia. }
  pose proof (snake_range (Z.of_nat i) NUM_TEAMS) as Hsnake.
  unfold ROUNDS, NUM_TEAMS in *.
  pose proof (Z.mod_pos_bound (Z.of_nat i) 12).
  assert (0 <= Z.of_nat i `div` 12 < 15)%Z
    by (split; [apply Z.div_pos; lia|apply Z.div_lt_upper_bound; lia]).
  lia.
Qed.

Lemma ledger_numbering_witness :
  match run mounted overdraftEvents with
  | Some st => ledgerNumbered (draftPicks st)
  | None => False
  end.
Proof.
  destruct (run mounted overdraftEvents) as [st|] eqn:Hrun.
  - apply (ledger_numbering st). by exists overdraftEvents.
  - vm_compute in Hrun. discriminate Hrun.
Defined.
End DraftMore.

Section Rosters.
Import Scoring Constants Utils Hooks DraftPage.

Lemma emptyRosters_lookup (t : nat) (roster : TeamRoster) :
  emptyRosters !! t = Some roster -> roster = createEmptyRoster.
Proof.
  unfold emptyRosters. intros H. by apply lookup_replicate in H as [-> _].
Qed.

Lemma picksOf_snoc (team : Z) (pos : Position) (ledger : list DraftPick)
    (pick : DraftPick) :
  picksOf team pos (ledger ++ [pick])
  = picksOf team pos ledger
    ++ (if decide (DraftPick.teamIndex pick = team
                   /\ DraftPlayer.position (DraftPick.player pick) = pos)
        then [DraftPick.player pick] else []).
Proof.
  unfold picksOf. rewrite filter_app, fmap_app. f_equal.
  rewrite filter_cons, filter_nil. by destruct (decide _).
Qed.

Lemma rostersFromLedger_pick (st st' : State) (player : DraftPlayer) :
  rostersFromLedger st -> makePick st player = Some st' ->
  rostersFromLedger st'.
Proof.
  intros Hros Hpick t roster pos.
  rewrite (makePick_entry _ _ _ Hpick), picksOf_snoc. simpl.
  apply makePick_Some in Hpick
    as (_ & _ & _ & (before & Hbefore & ->) & _).
  destruct (decide (t = Z.to_nat (currentTeamIndex st))) as [->|Hne].
  - rewrite list_lookup_insert_eq by (by eapply lookup_lt_Some).
    intros [= <-]. pose proof (Hros _ _ pos Hbefore) as Hold.
    rewrite currentTeamIndex_nat in Hold.
    rewrite get_set, currentTeamIndex_nat, <- Hold.
    destruct (decide (pos = DraftPlayer.position player)) as [->|Hpos].
    + by rewrite decide_True.
    + rewrite decide_False by (intros [_ Heq]; by apply Hpos).
      by rewrite app_nil_r.
  - rewrite list_lookup_insert_ne by done. intros Hroster.
    rewrite decide_False.
    + rewrite app_nil_r. by apply Hros.
    + intros [Heq _]. apply Hne. rewrite Heq. lia.
Qed.

Lemma rostersFromLedger_empty (st : State) :
  teamRosters st = emptyRosters -> draftPicks st = [] -> rostersFromLedger st.
Proof.
  intros Hr Hp t roster pos. rewrite Hr, Hp.
  intros ->%emptyRosters_lookup. by destruct pos.
Qed.

(** X6. The rosters are the ledger, team by team: in every state the page
    can reach, each bucket of each roster holds exactly the players of the
    ledger entries of that team and position, in pick order. *)
Theorem rosters_follow_ledger (st : State) :
  reachable st -> rostersFromLedger st.
Proof.
  revert st. apply reachable_induction.
  - by apply rostersFromLedger_empty.
  - intros st ev st' _ Hros Hd.
    apply dispatch_cases in Hd
      as [(b & Hs & ->)|[(p & Hs & _ & ->)|[[Hs ->]|[(v & _ & ->)
          |[->|[->|(_ & player & _ & Hpick)]]]]]];
      first [exact Hros | by apply rostersFromLedger_empty
            | by eapply rostersFromLedger_pick].
Qed.

Lemma rosters_follow_ledger_witness :
  match run mounted overdraftEvents with
  | Some st => rostersFromLedger st
  | None => False
  end.
Proof.
  destruct (run mounted overdraftEvents) as [st|] eqn:Hrun.
  - apply (rosters_follow_ledger st). by exists overdraftEvents.
  - vm_compute in Hrun. discriminate Hrun.
Defined.

Lemma filter_split_unique (player : DraftPlayer) (pool : list DraftPlayer) :
  NoDup (ids pool) -> player ∈ pool ->
  pool ≡ₚ player :: filter (fun p => DraftPlayer.id p ≠ DraftPlayer.id player) pool.
Proof.
  induction pool as [|q pool IH]; [intros _ H; by apply elem_of_nil in H|].
  unfold ids. rewrite fmap_cons, NoDup_cons. intros [Hq Hnd].
  intros [->|Hin]%elem_of_cons.
  - rewrite filter_cons_False by (intros H; by apply H).
    by rewrite filter_absent.
  - rewrite filter_cons_True.
    + rewrite (IH Hnd Hin) at 1. apply perm_swap.
    + intros Heq. apply Hq. rewrite Heq.
      apply list_elem_of_fmap. by exists player.
Qed.

(** X7. No player is drafted twice and none is lost: when the ids of the
    valuated pool are pairwise distinct, in every state the page can
    reach the drafted players together with the available pool are a
    rearrangement of the valuated pool, and no two ledger entries carry
    the same id. *)
Theorem drafted_and_available_partition (st : State) :
  reachable st -> NoDup (ids (allPlayers st)) ->
  drafted st ++ availablePlayers st ≡ₚ allPlayers st
  /\ NoDup (ids (drafted st))
  /\ (forall p, p ∈ drafted st ->
                DraftPlayer.id p ∉ ids (availablePlayers st)).
Proof.
  intros Hreach Hnd.
  assert (Hperm : NoDup (ids (allPlayers st)) ->
                  drafted st ++ availablePlayers st ≡ₚ allPlayers st).
  { clear Hnd. revert st Hreach.
    apply (reachable_induction
             (fun st => NoDup (ids (allPlayers st)) ->
                        drafted st ++ availablePlayers st ≡ₚ allPlayers st)).
    - reflexivity.
    - intros st ev st' [_ Hphase Hpool] Hperm Hd.
      unfold phaseLedger in Hphase.
      apply dispatch_cases in Hd
        as [(b & Hs & ->)|[(p & Hs & _ & ->)|[[Hs ->]|[(v & _ & ->)
            |[->|[->|(_ & player & Hin & Hpick)]]]]]];
        unfold drafted in *; simpl; try done.
      + rewrite Hs in Hphase. by rewrite Hphase.
      + pose proof (makePick_entry _ _ _ Hpick) as Hentry.
        apply makePick_Some in Hpick as (-> & -> & _).
        intros Hnd. destruct (Hpool Hnd) as [_ Hnd'].
        rewrite Hentry, fmap_app. simpl. rewrite <- app_assoc. simpl.
        rewrite <- (filter_split_unique player _ Hnd' Hin). by apply Hperm. }
  specialize (Hperm Hnd).
  assert (Hall : NoDup (ids (drafted st ++ availablePlayers st))).
  { unfold ids in *. by rewrite Hperm. }
  unfold ids in Hall. rewrite fmap_app in Hall.
  apply NoDup_app in Hall as (Hd & Hdisj & _).
  split; [exact Hperm|]. split; [exact Hd|].
  intros p Hp. apply Hdisj. apply list_elem_of_fmap. by exists p.
Qed.

Lemma drafted_and_available_partition_witness :
  match run mounted overdraftEvents with
  | Some st => drafted st ++ availablePlayers st ≡ₚ allPlayers st
  | None => False
  end.
Proof.
  destruct (run mounted overdraftEvents) as [st|] eqn:Hrun.
  - apply (drafted_and_available_partition st); [by exists overdraftEvents|].
    vm_compute in Hrun. injection Hrun as <-.
    match goal with |- ?P => apply (bool_decide_unpack P) end.
    vm_compute. exact I.
  - vm_compute in Hrun. discriminate Hrun.
Defined.
End Rosters.

Section TeamSizes.
Import Scoring Constants Utils Hooks DraftPage.

Lemma turnsBefore_S (n t : nat) :
  turnsBefore (S n) t
  = (turnsBefore n t
     + if decide (getSnakeDraftTeamIndex (Z.of_nat n) NUM_TEAMS = Z.of_nat t)
       then 1 else 0)%nat.
Proof.
  unfold turnsBefore. rewrite seq_S, filter_app, length_app. simpl.
  rewrite filter_cons, filter_nil. by destruct (decide _).
Qed.

Lemma turnsBefore_mono (n m t : nat) :
  (n <= m)%nat -> (turnsBefore n t <= turnsBefore m t)%nat.
Proof.
  induction 1 as [|m _ IH]; [done|]. rewrite turnsBefore_S. lia.
Qed.

Lemma turnsBefore_full (t : nat) :
  (t < 12)%nat -> turnsBefore 180 t = 15%nat.
Proof.
  intros Ht.
  do 12 (destruct t as [|t]; [vm_compute; reflexivity|]). lia.
Qed.

Lemma rosterSize_set (pos : Position) (player : DraftPlayer)
    (roster : TeamRoster) :
  rosterSize
    (TeamRoster.set pos (TeamRoster.get pos roster ++ [player]) roster)
  = S (rosterSize roster).
Proof.
  destruct pos; unfold rosterSize; simpl; rewrite length_app; simpl; lia.
Qed.

Lemma rosterSizes_turns (st : State) :
  reachable st ->
  forall t roster, teamRosters st !! t = Some roster ->
                   rosterSize roster = turnsBefore (length (draftPicks st)) t.
Proof.
  revert st.
  assert (Hempty : forall st, teamRosters st = emptyRosters ->
             draftPicks st = [] ->
             forall t roster, teamRosters st !! t = Some roster ->
               rosterSize roster = turnsBefore (length (draftPicks st)) t).
  { intros st -> -> t roster ->%emptyRosters_lookup. reflexivity. }
  apply (reachable_induction
           (fun st => forall t roster, teamRosters st !! t = Some roster ->
              rosterSize roster = turnsBefore (length (draftPicks st)) t)).
  - by apply Hempty.
  - intros st ev st' _ IH Hd.
    apply dispatch_cases in Hd
      as [(b & Hs & ->)|[(p & Hs & _ & ->)|[[Hs ->]|[(v & _ & ->)
          |[->|[->|(_ & player & _ & Hpick)]]]]]];
      first [exact IH | by apply Hempty | idtac].
    intros t roster.
    rewrite (makePick_entry _ _ _ Hpick), length_app. simpl.
    rewrite Nat.add_1_r, turnsBefore_S.
    change (getSnakeDraftTeamIndex (Z.of_nat (length (draftPicks st))) NUM_TEAMS)
      with (currentTeamIndex st).
    apply makePick_Some in Hpick
      as (_ & _ & _ & (before & Hbefore & ->) & _).
    destruct (decide (t = Z.to_nat (currentTeamIndex st))) as [->|Hne].
    + rewrite list_lookup_insert_eq by (by eapply lookup_lt_Some).
      intros [= <-]. rewrite rosterSize_set, (IH _ _ Hbefore).
      rewrite decide_True by (by rewrite currentTeamIndex_nat). lia.
    + rewrite list_lookup_insert_ne by done. intros Hroster.
      rewrite (IH _ _ Hroster).
      rewrite decide_False by (intros Heq; apply Hne; rewrite Heq; lia). lia.
Qed.

(** X8. Every team drafts once per round: in every state the page can
    reach no roster holds more than [ROSTER_SIZE] = 15 players; while the
    draft is on, the team whose turn it is holds fewer than 15; and when
    the draft is complete every roster holds exactly 15. *)
Theorem roster_sizes (st : State) (t : nat) (roster : TeamRoster) :
  reachable st -> teamRosters st !! t = Some roster ->
  (Z.of_nat (rosterSize roster) <= ROSTER_SIZE)%Z
  /\ (draftPhase st = drafting -> t = Z.to_nat (currentTeamIndex st) ->
      (Z.of_nat (rosterSize roster) < ROSTER_SIZE)%Z)
  /\ (draftPhase st = complete ->
      Z.of_nat (rosterSize roster) = ROSTER_SIZE).
Proof.
  intros Hreach Hroster.
  rewrite (rosterSizes_turns st Hreach t roster Hroster).
  apply reachable_invariant in Hreach as [Hlen Hphase _].
  assert (Ht : (t < 12)%nat).
  { apply lookup_lt_Some in Hroster. rewrite Hlen in Hroster.
    unfold NUM_TEAMS in Hroster. lia. }
  pose proof (turnsBefore_full t Ht) as Hfull.
  unfold phaseLedger, ROUNDS, NUM_TEAMS in Hphase. unfold ROSTER_SIZE.
  assert (Hn : (length (draftPicks st) <= 180)%nat)
    by (destruct (draftPhase st); [rewrite Hphase; simpl; lia|lia|lia]).
  set (n := length (draftPicks st)) in *.
  split; [|split].
  - pose proof (turnsBefore_mono n 180 t ltac:(lia)). lia.
  - intros Hd ->. rewrite Hd in Hphase.
    pose proof (turnsBefore_mono (S n) 180 _ ltac:(lia) : _ <= turnsBefore 180 (Z.to_nat (currentTeamIndex st)))%nat as Hmono.
    rewrite turnsBefore_S in Hmono.
    rewrite decide_True in Hmono by (by rewrite currentTeamIndex_nat).
    lia.
  - intros Hc. rewrite Hc in Hphase.
    assert (n = 180)%nat as -> by lia. lia.
Qed.

Lemma roster_sizes_witness :
  match run mounted overdraftEvents with
  | Some st =>
      match teamRosters st !! 0%nat with
      | Some roster => (Z.of_nat (rosterSize roster) <= ROSTER_SIZE)%Z
      | None => False
      end
  | None => False
  end.
Proof.
  destruct (run mounted overdraftEvents) as [st|] eqn:Hrun.
  - destruct (teamRosters st !! 0%nat) as [roster|] eqn:Hroster.
    + apply (roster_sizes st 0 roster); [by exists overdraftEvents|exact Hroster].
    + vm_compute in Hrun. injection Hrun as <-. discriminate Hroster.
  - vm_compute in Hrun. discriminate Hrun.
Defined.
End TeamSizes.

Section HeuristicMore.
Import Scoring Constants Utils Hooks DraftPage.

(** X9. The heuristic returns no player exactly when no player is
    available. *)
Theorem cpu_pick_none_iff_empty (random : nat -> Q)
    (available : list DraftPlayer) (teamRoster : TeamRoster) (round : Z) :
  getCPUPick random available teamRoster round = None <-> available = [].
Proof.
  unfold getCPUPick. split.
  - destruct available as [|a available]; [done|]. simpl length. simpl Nat.eqb.
    cbv zeta. destruct (head (Js.sort _ _)) as [first|]; discriminate.
  - intros ->. reflexivity.
Qed.

Lemma needs_belowMax (roster : TeamRoster) (p : DraftPlayer) :
  needsPosition roster (DraftPlayer.position p) -> belowMax roster p.
Proof.
  unfold needsPosition, belowMax.
  destruct (DraftPlayer.position p); simpl; lia.
Qed.

(** X10. The urgency override: when the roster is short of its minimum at
    some position, has no more than that many picks plus two left, and a
    player at a position it is short of is available, the heuristic
    returns a player at a position the roster is short of. *)
Theorem cpu_pick_urgent (random : nat -> Q) (available : list DraftPlayer)
    (teamRoster : TeamRoster) (round : Z) (p : DraftPlayer) :
  urgent teamRoster ->
  (exists q, q ∈ available
             /\ needsPosition teamRoster (DraftPlayer.position q)) ->
  getCPUPick random available teamRoster round = Some p ->
  p ∈ available /\ needsPosition teamRoster (DraftPlayer.position p).
Proof.
  intros [Hneeded Hleft] (q & Hq & Hqneeds). unfold getCPUPick.
  destruct (length available =? 0)%nat eqn:Hempty; [discriminate|].
  cbv zeta.
  change (filter (fun pos => (countRosterPositions teamRoster pos
                              < min (ROSTER_TARGETS pos))%Z) [QB; RB; WR; TE])
    with (neededPositions teamRoster).
  set (open := filter _ available).
  set (cands1 := if (length open =? 0)%nat then available else open).
  assert (Hlen : (0 <? length (neededPositions teamRoster))%nat = true).
  { apply Nat.ltb_lt. destruct (neededPositions teamRoster); [done|simpl; lia]. }
  rewrite Hlen. rewrite (proj2 (Z.leb_le _ _) Hleft). simpl andb.
  set (urgentCandidates := filter _ cands1).
  assert (Hqopen : q ∈ open).
  { subst open. apply list_elem_of_filter. split; [|done].
    by apply needs_belowMax. }
  assert (Hc1 : cands1 = open).
  { subst cands1. destruct open; [by apply elem_of_nil in Hqopen|done]. }
  assert (Hqurgent : q ∈ urgentCandidates).
  { subst urgentCandidates. apply list_elem_of_filter. rewrite Hc1.
    split; [|done]. unfold neededPositions. apply list_elem_of_filter.
    split; [done|]. destruct (DraftPlayer.position q); set_solver. }
  assert (Hu : (0 <? length urgentCandidates)%nat = true).
  { apply Nat.ltb_lt. destruct urgentCandidates; [by apply elem_of_nil in Hqurgent|simpl; lia]. }
  rewrite Hu.
  destruct (head (Js.sort _ _)) as [[w score]|] eqn:Hhead.
  - intros [= <-]. simpl.
    apply head_sort_elem in Hhead.
    apply elem_of_lookup_imap in Hhead as (i & y & [= -> _] & Hy).
    apply list_elem_of_lookup_2 in Hy. subst urgentCandidates.
    apply list_elem_of_filter in Hy as [Hneeds Hy].
    split.
    + rewrite Hc1 in Hy. subst open.
      by apply list_elem_of_filter in Hy as [_ Hy].
    + unfold neededPositions in Hneeds.
      by apply list_elem_of_filter in Hneeds as [Hneeds _].
  - apply head_sort_None in Hhead.
    destruct urgentCandidates; [discriminate Hu|]. simpl in Hhead.
    discriminate Hhead.
Qed.

Lemma cpu_pick_urgent_witness :
  match getCPUPick alwaysHalf shortPool shortRoster 13 with
  | Some p => needsPosition shortRoster (DraftPlayer.position p)
  | None => False
  end.
Proof.
  destruct (getCPUPick alwaysHalf shortPool shortRoster 13) as [p|] eqn:Hpick.
  - apply (cpu_pick_urgent alwaysHalf shortPool shortRoster 13 p);
      [|exists (DraftPlayer.mk "QB-z" "z" QB 60 1 3 ∅)|exact Hpick].
    + split; vm_compute; discriminate.
    + split; [|vm_compute; reflexivity].
      apply (list_elem_of_lookup_2 _ 2%nat). reflexivity.
  - vm_compute in Hpick. discriminate Hpick.
Defined.

Lemma head_sort_max {A} (key : A -> Q) (compareFn : A -> A -> Q)
    (l : list A) (x : A) :
  (forall a b, (compareFn a b == key b - key a)%Q) ->
  head (Js.sort compareFn l) = Some x ->
  forall y, y ∈ l -> (key y <= key x)%Q.
Proof.
  intros Hcmp Hhead y Hy.
  pose proof (sort_sorted key compareFn Hcmp l) as Hsorted.
  rewrite <- (sort_Permutation compareFn l) in Hy.
  destruct (Js.sort compareFn l) as [|h rest]; [discriminate|].
  injection Hhead as ->.
  apply elem_of_cons in Hy as [->|Hy]; [lra|].
  apply StronglySorted_inv in Hsorted as [_ Hall].
  rewrite Forall_forall in Hall. exact (Hall y Hy).
Qed.

(** X11. Without urgency, and with some available player at a position
    below its maximum, the heuristic returns one of those players whose
    score, random factor included, no other of them exceeds. *)
Theorem cpu_pick_best_score (random : nat -> Q)
    (available : list DraftPlayer) (teamRoster : TeamRoster) (round : Z)
    (p : DraftPlayer) :
  let score i q :=
    candidateScore (countRosterPositions teamRoster)
      (neededPositions teamRoster) round (random i) q in
  ~ urgent teamRoster ->
  openPlayers teamRoster available <> [] ->
  getCPUPick random available teamRoster round = Some p ->
  exists i,
    openPlayers teamRoster available !! i = Some p
    /\ forall j q, openPlayers teamRoster available !! j = Some q ->
                   (score j q <= score i p)%Q.
Proof.
  cbv zeta. intros Hcalm Hopen. unfold getCPUPick.
  destruct (length available =? 0)%nat eqn:Hempty; [discriminate|].
  cbv zeta.
  change (filter (fun pos => (countRosterPositions teamRoster pos
                              < min (ROSTER_TARGETS pos))%Z) [QB; RB; WR; TE])
    with (neededPositions teamRoster).
  change (filter (fun p0 => (countRosterPositions teamRoster (DraftPlayer.position p0)
                    < max (ROSTER_TARGETS (DraftPlayer.position p0)))%Z)
                 available)
    with (openPlayers teamRoster available).
  set (open := openPlayers teamRoster available) in *.
  assert (Ho : (length open =? 0)%nat = false)
    by (destruct open; [done|reflexivity]).
  rewrite Ho.
  assert (Hcond : ((0 <? length (neededPositions teamRoster))%nat
                   && (ROSTER_SIZE
                       - (countRosterPositions teamRoster QB
                          + countRosterPositions teamRoster RB
                          + countRosterPositions teamRoster WR
                          + countRosterPositions teamRoster TE)
                       <=? Z.of_nat (length (neededPositions teamRoster)) + 2)%Z)
                  = false).
  { apply not_true_is_false. intros [H1 H2]%andb_true_iff. apply Hcalm.
    apply Nat.ltb_lt in H1. apply Z.leb_le in H2. split; [|exact H2].
    intros Hnil. rewrite Hnil in H1. simpl in H1. lia. }
  rewrite Hcond.
  destruct (head (Js.sort _ _)) as [[w s]|] eqn:Hhead.
  - intros [= <-]. simpl.
    pose proof (head_sort_max snd _ _ _ (fun a b => Qeq_refl _) Hhead) as Hmax.
    apply head_sort_elem in Hhead.
    apply elem_of_lookup_imap in Hhead as (i & y & [= -> ->] & Hy).
    exists i. split; [exact Hy|]. intros j q Hq.
    apply (Hmax (q, _)). apply elem_of_lookup_imap. by exists j, q.
  - apply head_sort_None in Hhead.
    destruct open; [done|]. simpl in Hhead. discriminate Hhead.
Qed.

Lemma cpu_pick_best_score_witness :
  match getCPUPick alwaysHalf shortPool createEmptyRoster 1 with
  | Some p =>
      exists i, openPlayers createEmptyRoster shortPool !! i = Some p
                /\ forall j q,
                     openPlayers createEmptyRoster shortPool !! j = Some q ->
                     (candidateScore (countRosterPositions createEmptyRoster)
                        (neededPositions createEmptyRoster) 1 (alwaysHalf j) q
                      <= candidateScore (countRosterPositions createEmptyRoster)
                           (neededPositions createEmptyRoster) 1
                           (alwaysHalf i) p)%Q
  | None => False
  end.
Proof.
  destruct (getCPUPick alwaysHalf shortPool createEmptyRoster 1) as [p|] eqn:Hpick.
  - apply (cpu_pick_best_score alwaysHalf shortPool createEmptyRoster 1 p);
      [|vm_compute; discriminate|exact Hpick].
    intros [_ Hleft]. vm_compute in Hleft. by apply Hleft.
  - vm_compute in Hpick. discriminate Hpick.
Defined.
End HeuristicMore.

Section ValuationMore.
Import Scoring Constants Utils Hooks DraftPage.

Lemma fmap_imap_same {A B} (f : nat -> A -> A) (g : A -> B) (l : list A) :
  (forall i x, g (f i x) = g x) -> g <$> imap f l = g <$> l.
Proof.
  intros Hg. revert f Hg. induction l as [|x l IH]; intros f Hg; [done|].
  rewrite imap_cons, !fmap_cons, Hg. f_equal. apply IH. intros i y. apply Hg.
Qed.

Lemma valuedPool_listings (pos : Position) (entries : list Entry.t) :
  listingOfPlayer <$> valuedPool pos entries ≡ₚ listingOf pos <$> entries.
Proof.
  unfold valuedPool, calculateVOR, sortedPool. cbv zeta.
  rewrite fmap_imap_same by reflexivity.
  rewrite (sort_Permutation byPointsDesc). by rewrite <- list_fmap_compose.
Qed.

Lemma loadPlayers_listings (byName : Position -> list Entry.t) :
  listingOfPlayer <$> loadPlayers byName ≡ₚ allListings byName.
Proof.
  unfold loadPlayers. cbv zeta. rewrite (sort_Permutation byVorDesc).
  rewrite !fmap_app, !valuedPool_listings. reflexivity.
Qed.

Lemma loadPlayers_id (byName : Position -> list Entry.t) (p : DraftPlayer) :
  p ∈ loadPlayers byName ->
  DraftPlayer.id p
  = String.append (positionName (DraftPlayer.position p))
      (String.append "-" (DraftPlayer.name p)).
Proof.
  unfold loadPlayers. cbv zeta.
  rewrite (sort_Permutation byVorDesc).
  assert (Hpool : forall pos entries q,
             q ∈ valuedPool pos entries ->
             DraftPlayer.id q
             = String.append (positionName (DraftPlayer.position q))
                 (String.append "-" (DraftPlayer.name q))).
  { intros pos entries q. unfold valuedPool, calculateVOR. cbv zeta.
    intros (i & y & -> & Hy)%elem_of_lookup_imap. simpl.
    apply list_elem_of_lookup_2 in Hy. unfold sortedPool in Hy.
    rewrite (sort_Permutation byPointsDesc) in Hy.
    apply list_elem_of_fmap in Hy as (e & -> & _). reflexivity. }
  rewrite !elem_of_app. intros [H|[H|[H|H]]]; by eapply Hpool.
Qed.

Lemma id_injective (pos1 pos2 : Position) (name1 name2 : string) :
  String.append (positionName pos1) (String.append "-" name1)
  = String.append (positionName pos2) (String.append "-" name2) ->
  pos1 = pos2 /\ name1 = name2.
Proof.
  destruct pos1, pos2; cbv [String.append positionName]; intros [= ->]; done.
Qed.

(** X13. When the names of the listings of each position are pairwise
    distinct, the ids of the pool [loadPlayers] returns are pairwise
    distinct. *)
Theorem loadPlayers_ids_distinct (byName : Position -> list Entry.t) :
  (forall pos, NoDup (Entry.name <$> byName pos)) ->
  NoDup (ids (loadPlayers byName)).
Proof.
  intros Hnames.
  assert (Hids : ids (loadPlayers byName)
                 ≡ₚ (fun l : Position * string * Q =>
                       String.append (positionName l.1.1)
                         (String.append "-" l.1.2))
                    <$> allListings byName).
  { pose proof (loadPlayers_listings byName) as Hperm.
    pose proof (loadPlayers_id byName) as Hid.
    rewrite <- Hperm. rewrite <- list_fmap_compose. unfold ids.
    erewrite list_fmap_ext; [reflexivity|].
    intros i p Hp. simpl. apply Hid. by eapply list_elem_of_lookup_2. }
  rewrite Hids. clear Hids.
  assert (Hpart : forall pos,
             NoDup ((fun l : Position * string * Q =>
                       String.append (positionName l.1.1)
                         (String.append "-" l.1.2))
                    <$> (listingOf pos <$> byName pos))).
  { intros pos. rewrite <- list_fmap_compose.
    apply NoDup_fmap_2_strong.
    - intros e1 e2 H1 H2 Heq. simpl in Heq.
      apply id_injective in Heq as [_ Heq].
      specialize (Hnames pos). clear -Hnames H1 H2 Heq.
      induction (byName pos) as [|e l IH]; [by apply elem_of_nil in H1|].
      rewrite fmap_cons, NoDup_cons in Hnames. destruct Hnames as [Hnot Hnd].
      apply elem_of_cons in H1 as [->|H1], H2 as [->|H2]; try done.
      + exfalso. apply Hnot. rewrite Heq. apply list_elem_of_fmap. by exists e2.
      + exfalso. apply Hnot. rewrite <- Heq. apply list_elem_of_fmap. by exists e1.
      + by apply IH.
    - specialize (Hnames pos). by apply NoDup_fmap_1 in Hnames. }
  assert (Hcross : forall pos1 pos2 x,
             pos1 <> pos2 ->
             x ∈ (fun l : Position * string * Q =>
                    String.append (positionName l.1.1)
                      (String.append "-" l.1.2))
                 <$> (listingOf pos1 <$> byName pos1) ->
             x ∉ (fun l : Position * string * Q =>
                    String.append (positionName l.1.1)
                      (String.append "-" l.1.2))
                 <$> (listingOf pos2 <$> byName pos2)).
  { intros pos1 pos2 x Hne.
    rewrite <- !list_fmap_compose.
    intros (e1 & -> & _)%list_elem_of_fmap (e2 & Heq & _)%list_elem_of_fmap.
    simpl in Heq. apply id_injective in Heq as [Heq _]. by apply Hne. }
  unfold allListings. rewrite !fmap_app.
  repeat (apply NoDup_app; split; [apply Hpart|split; [|]]);
    try apply Hpart.
  - intros x Hx. rewrite !not_elem_of_app.
    repeat split; by apply (Hcross QB).
  - intros x Hx. rewrite !not_elem_of_app.
    repeat split; by apply (Hcross RB).
  - intros x Hx. by apply (Hcross WR).
Qed.

Lemma loadPlayers_ids_distinct_witness : NoDup (ids (loadPlayers demoListings)).
Proof.
  apply (loadPlayers_ids_distinct demoListings).
  intros pos. match goal with |- ?P => apply (bool_decide_unpack P) end.
  destruct pos; vm_compute; exact I.
Defined.
End ValuationMore.

Section ValuationProfile.
Import Scoring Constants Utils Hooks DraftPage.

Lemma sorted_lookup_le {A} (key : A -> Q) (l : list A) (i j : nat) (a b : A) :
  StronglySorted (notBelow key) l -> (i <= j)%nat ->
  l !! i = Some a -> l !! j = Some b -> (key b <= key a)%Q.
Proof.
  intros Hs. revert i j. induction Hs as [|x l Hs IH Hx]; intros i j Hij Ha Hb.
  - by rewrite lookup_nil in Ha.
  - destruct i as [|i], j as [|j]; simpl in *; try lia.
    + injection Ha as <-. injection Hb as <-. lra.
    + injection Ha as <-. rewrite Forall_forall in Hx. apply Hx.
      by eapply list_elem_of_lookup_2.
    + eapply (IH i j); [lia|done|done].
Qed.

(** X14. Within a position the valuation is ordered: a player further down
    the pool never has more points or a higher VOR, and never a lower tier;
    the tier of the player at sort-index [i] is [i div 4 + 1]; players above
    the replacement rank have a VOR of at least 0 and players from the
    replacement rank on a VOR of at most 0. *)
Theorem valuation_profile (pos : Position) (entries : list Entry.t)
    (i j : nat) (a b : DraftPlayer) :
  let pool := valuedPool pos entries in
  let k := Z.to_nat (REPLACEMENT_RANK pos) in
  pool !! i = Some a -> pool !! j = Some b -> (i <= j)%nat ->
  (DraftPlayer.points b <= DraftPlayer.points a)%Q
  /\ (DraftPlayer.vor b <= DraftPlayer.vor a)%Q
  /\ DraftPlayer.tier a = (Z.of_nat i `div` 4 + 1)%Z
  /\ (DraftPlayer.tier a <= DraftPlayer.tier b)%Z
  /\ ((k <= length pool)%nat -> (i < k)%nat -> (0 <= DraftPlayer.vor a)%Q)
  /\ ((k - 1 <= i)%nat -> (DraftPlayer.vor a <= 0)%Q).
Proof.
  cbv zeta. intros Ha Hb Hij.
  pose proof (valuedPool_descending pos entries) as Hsorted.
  pose proof (sorted_lookup_le _ _ _ _ _ _ Hsorted Hij Ha Hb) as Hpoints.
  assert (Hk : Z.to_nat (REPLACEMENT_RANK pos - 1)
               = (Z.to_nat (REPLACEMENT_RANK pos) - 1)%nat)
    by (destruct pos; reflexivity).
  assert (Hform : forall n p, valuedPool pos entries !! n = Some p ->
             (DraftPlayer.vor p
              == DraftPlayer.points p
                 - replacementValue pos (sortedPool pos entries))%Q
             /\ DraftPlayer.tier p = (Z.of_nat n `div` 4 + 1)%Z).
  { intros n p. unfold valuedPool. rewrite calculateVOR_lookup.
    destruct (sortedPool pos entries !! n) as [q|]; [|discriminate].
    intros [= <-]. simpl. split; reflexivity. }
  assert (Hrepl : forall r,
             valuedPool pos entries !! (Z.to_nat (REPLACEMENT_RANK pos) - 1)%nat
             = Some r ->
             replacementValue pos (sortedPool pos entries) = DraftPlayer.points r).
  { intros r. unfold valuedPool, replacementValue.
    rewrite calculateVOR_lookup, Hk.
    destruct (sortedPool pos entries !! _) as [q|]; [|discriminate].
    by intros [= <-]. }
  destruct (Hform i a Ha) as [Hva Hta], (Hform j b Hb) as [Hvb Htb].
  split; [exact Hpoints|]. split; [lra|]. split; [exact Hta|].
  split; [rewrite Hta, Htb; apply Z.add_le_mono_r, Z.div_le_mono; lia|].
  split.
  - intros Hlen Hik.
    destruct (lookup_lt_is_Some_2 (valuedPool pos entries)
                (Z.to_nat (REPLACEMENT_RANK pos) - 1)) as [r Hr]; [lia|].
    assert (Hle : (i <= Z.to_nat (REPLACEMENT_RANK pos) - 1)%nat) by lia.
    pose proof (sorted_lookup_le _ _ _ _ _ _ Hsorted Hle Ha Hr).
    rewrite (Hrepl r Hr) in Hva. lra.
  - intros Hki.
    destruct (valuedPool pos entries !! (Z.to_nat (REPLACEMENT_RANK pos) - 1)%nat)
      as [r|] eqn:Hr.
    + pose proof (sorted_lookup_le _ _ _ _ _ _ Hsorted Hki Hr Ha).
      rewrite (Hrepl r eq_refl) in Hva. lra.
    + apply lookup_ge_None in Hr. apply lookup_lt_Some in Ha. lia.
Qed.

Lemma valuation_profile_witness :
  match valuedPool RB (listings "R" 30 300 5) !! 2%nat,
        valuedPool RB (listings "R" 30 300 5) !! 27%nat with
  | Some a, Some b =>
      (DraftPlayer.vor b <= DraftPlayer.vor a)%Q
      /\ DraftPlayer.tier a = 1%Z
      /\ (0 <= DraftPlayer.vor a)%Q
  | _, _ => False
  end.
Proof.
  destruct (valuedPool RB (listings "R" 30 300 5) !! 2%nat) as [a|] eqn:Ha;
    [|vm_compute in Ha; discriminate Ha].
  destruct (valuedPool RB (listings "R" 30 300 5) !! 27%nat) as [b|] eqn:Hb;
    [|vm_compute in Hb; discriminate Hb].
  destruct (valuation_profile RB (listings "R" 30 300 5) 2 27 a b Ha Hb
              ltac:(lia)) as (_ & Hvor & Htier & _ & Hpos & _).
  split; [exact Hvor|]. split; [exact Htier|].
  apply Hpos; [vm_compute; lia|vm_compute; lia].
Defined.
End ValuationProfile.

Section ScoringMore.
Import Scoring.

Lemma round_hundredths_mono (x y : Q) :
  (x <= y)%Q ->
  (inject_Z (Js.round (x * 100)) / 100
   <= inject_Z (Js.round (y * 100)) / 100)%Q.
Proof.
  intros Hxy. unfold Js.round, Qdiv.
  apply Qmult_le_compat_r; [|by compute].
  rewrite <- Zle_Qle. apply Qfloor_resp_le. lra.
Qed.

(** X15. For a row whose receptions are not negative, a point per
    reception never scores less than half a point, and half a point never
    less than none: STANDARD <= HALF_PPR <= PPR. *)
Theorem scoring_formats_ordered (row : CSVRow) (position : Position) :
  (0 <= toNumber (row !! "ReceivingRec_pred"%string) 0)%Q ->
  (computeFantasyPoints row position STANDARD
   <= computeFantasyPoints row position HALF_PPR)%Q
  /\ (computeFantasyPoints row position HALF_PPR
      <= computeFantasyPoints row position PPR)%Q.
Proof.
  intros Hrec. unfold computeFantasyPoints. cbv zeta.
  split; apply round_hundredths_mono; lra.
Qed.

Lemma scoring_formats_ordered_witness :
  (computeFantasyPoints receiverRow WR STANDARD
   <= computeFantasyPoints receiverRow WR HALF_PPR)%Q
  /\ (computeFantasyPoints receiverRow WR HALF_PPR
      <= computeFantasyPoints receiverRow WR PPR)%Q.
Proof.
  apply (scoring_formats_ordered receiverRow WR). vm_compute. discriminate.
Defined.
End ScoringMore.

Section Upcoming.
Import Scoring Constants Utils Hooks DraftPage.

Lemma upcomingFrom_lookup (st : State) (steps : nat) (i k : nat) :
  upcomingFrom st (Z.of_nat i) steps !! k
  = if decide ((k < steps)%nat
               /\ (currentPick st + Z.of_nat (i + k) < ROUNDS * NUM_TEAMS)%Z)
    then Some (upcomingEntry st (i + k)) else None.
Proof.
  revert i k. induction steps as [|steps IH]; intros i k; cbn [upcomingFrom].
  - rewrite lookup_nil. case_decide as Hd; [lia|done].
  - destruct (_ >=? _)%Z eqn:Hstop.
    + apply Z.geb_le in Hstop. rewrite lookup_nil.
      case_decide as Hd; [lia|done].
    + rewrite Z.geb_leb in Hstop. apply Z.leb_gt in Hstop.
      destruct k as [|k].
      * rewrite Nat.add_0_r. cbn [lookup list_lookup].
        case_decide as Hd; [done|lia].
      * cbn [lookup list_lookup].
        replace (Z.of_nat i + 1)%Z with (Z.of_nat (S i)) by lia.
        change (upcomingFrom st (Z.of_nat (S i)) steps !! k
                = if decide ((S k < S steps)%nat
                             /\ (currentPick st + Z.of_nat (i + S k)
                                 < ROUNDS * NUM_TEAMS)%Z)
                  then Some (upcomingEntry st (i + S k)) else None).
        rewrite IH. replace (S i + k)%nat with (i + S k)%nat by lia.
        repeat case_decide; first [done|lia].
Qed.

Lemma upcomingFrom_length (st : State) (steps : nat) (i : Z) :
  length (upcomingFrom st i steps)
  = Z.to_nat (Z.min (Z.of_nat steps) (ROUNDS * NUM_TEAMS - (currentPick st + i))).
Proof.
  revert i. induction steps as [|steps IH]; intros i; simpl.
  - lia.
  - destruct (_ >=? _)%Z eqn:Hstop.
    + apply Z.geb_le in Hstop. simpl. lia.
    + rewrite Z.geb_leb in Hstop. apply Z.leb_gt in Hstop.
      simpl. rewrite IH. lia.
Qed.

(** X16. The list of upcoming picks holds, in order, the picks from the
    current one on: [count] of them, fewer when the draft ends before, none
    at all once the ledger is full.  Entry [k] shows pick number
    [currentPick + k + 1], the team whose turn that is (numbered from 1) and
    whether it is the user's. *)
Theorem upcoming_picks (st : State) (count : Z) :
  length (getUpcomingPicks st count)
  = Z.to_nat (Z.min count (ROUNDS * NUM_TEAMS - currentPick st))
  /\ (forall k u, getUpcomingPicks st count !! k = Some u ->
        u = upcomingEntry st k
        /\ (UpcomingPick.pick u <= ROUNDS * NUM_TEAMS)%Z
        /\ (1 <= UpcomingPick.team u <= NUM_TEAMS)%Z).
Proof.
  unfold getUpcomingPicks. split.
  - rewrite upcomingFrom_length. lia.
  - intros k u.
    pose proof (upcomingFrom_lookup st (Z.to_nat count) 0 k) as Hl.
    change (Z.of_nat 0) with 0%Z in Hl. rewrite Hl. clear Hl.
    case_decide as Hd; [|discriminate]. intros [= <-].
    rewrite Nat.add_0_l in *. unfold upcomingEntry. cbn [UpcomingPick.pick UpcomingPick.team].
    split; [done|]. split; [lia|].
    assert (Hpick : (0 <= currentPick st + Z.of_nat k)%Z)
      by (unfold currentPick; lia).
    pose proof (snake_range (currentPick st + Z.of_nat k) NUM_TEAMS
                  Hpick ltac:(unfold NUM_TEAMS; lia)).
    lia.
Qed.
End Upcoming.

Section Rankings.
Import Scoring Constants Utils Hooks DraftPage Components.

Lemma byStarterPointsDesc_key (a b : TeamRanking) :
  (byStarterPointsDesc a b
   == TeamRanking.starterPoints b - TeamRanking.starterPoints a)%Q.
Proof. reflexivity. Qed.

Lemma fmap_imap_index {A B} (f : nat -> A -> B) (g : B -> nat) (l : list A)
    (n : nat) :
  (forall i a, g (f i a) = i) ->
  g <$> imap (fun i => f (n + i)%nat) l = seq n (length l).
Proof.
  intros Hg. revert n. induction l as [|a l IH]; intros n; [done|].
  simpl. rewrite Nat.add_0_r, Hg. f_equal.
  rewrite <- (IH (S n)). f_equal. apply imap_ext. intros i x _. simpl.
  f_equal. lia.
Qed.

Lemma rankings_teams (st : State) :
  TeamRanking.teamIndex <$> teamRankings st
  ≡ₚ Z.of_nat <$> seq 0 (length (teamRosters st)).
Proof.
  unfold teamRankings.
  set (entry := fun idx roster => TeamRanking.mk (Z.of_nat idx) _ roster _ _ _).
  rewrite (sort_Permutation byStarterPointsDesc).
  assert (Hidx : (fun t => Z.to_nat (TeamRanking.teamIndex t))
                 <$> imap entry (teamRosters st)
                 = seq 0 (length (teamRosters st))).
  { apply (fmap_imap_index entry _ (teamRosters st) 0).
    intros i a. simpl. lia. }
  rewrite <- Hidx, <- list_fmap_compose.
  erewrite list_fmap_ext; [reflexivity|].
  intros i t Ht. simpl.
  apply list_lookup_imap_Some in Ht as (roster & _ & ->). simpl. lia.
Qed.

Lemma rankings_entries (st : State) (t : TeamRanking) :
  t ∈ teamRankings st ->
  teamRosters st !! Z.to_nat (TeamRanking.teamIndex t)
  = Some (TeamRanking.roster t)
  /\ (0 <= TeamRanking.teamIndex t)%Z
  /\ TeamRanking.starterPoints t = getStarterPoints (TeamRanking.roster t)
  /\ TeamRanking.totalPoints t = getTeamTotalPoints (TeamRanking.roster t)
  /\ TeamRanking.isUser t = (TeamRanking.teamIndex t =? userTeamIndex st)%Z.
Proof.
  unfold teamRankings. intros Ht.
  rewrite (sort_Permutation byStarterPointsDesc) in Ht.
  apply list_elem_of_lookup in Ht as [i Ht].
  apply list_lookup_imap_Some in Ht as (roster & Hroster & ->). simpl.
  rewrite Nat2Z.id. repeat split; [done|lia].
Qed.

(** X17. The final standings list every team once, the team with more
    starter points first; each entry carries the roster of its team, the
    points computed from that roster, and the user mark exactly on the
    user's team. *)
Theorem rankings_order (st : State) :
  TeamRanking.teamIndex <$> teamRankings st
  ≡ₚ Z.of_nat <$> seq 0 (length (teamRosters st))
  /\ StronglySorted (notBelow TeamRanking.starterPoints) (teamRankings st)
  /\ (forall t, t ∈ teamRankings st ->
        teamRosters st !! Z.to_nat (TeamRanking.teamIndex t)
        = Some (TeamRanking.roster t)
        /\ (0 <= TeamRanking.teamIndex t)%Z
        /\ TeamRanking.starterPoints t = getStarterPoints (TeamRanking.roster t)
        /\ TeamRanking.totalPoints t = getTeamTotalPoints (TeamRanking.roster t)
        /\ TeamRanking.isUser t
           = (TeamRanking.teamIndex t =? userTeamIndex st)%Z).
Proof.
  split; [apply rankings_teams|]. split; [|apply rankings_entries].
  apply (sort_sorted _ _ byStarterPointsDesc_key).
Qed.

Lemma makePick_userPickPosition (st st' : State) (player : DraftPlayer) :
  makePick st player = Some st' -> userPickPosition st' = userPickPosition st.
Proof.
  unfold makePick. destruct (teamRosters st !! _); [|discriminate].
  by intros [= <-].
Qed.

Lemma reachable_userPickPosition (st : State) :
  reachable st -> (1 <= userPickPosition st <= NUM_TEAMS)%Z.
Proof.
  apply (reachable_induction
           (fun st => (1 <= userPickPosition st <= NUM_TEAMS)%Z)).
  - unfold NUM_TEAMS. simpl. lia.
  - intros s ev s' _ IH Hd.
    destruct (dispatch_cases _ _ _ Hd)
      as [(b & _ & ->)|[(pos & _ & Hpos & ->)|[(_ & ->)|[(v & _ & ->)
         |[->|[->|(_ & player & _ & Hpick)]]]]]]; simpl; try done.
    by rewrite (makePick_userPickPosition _ _ _ Hpick).
Qed.

Lemma findIndexFrom_spec (l : list TeamRanking) (i : Z) (k : nat)
    (t : TeamRanking) :
  l !! k = Some t -> TeamRanking.isUser t = true ->
  exists k' t', (k' <= k)%nat /\ l !! k' = Some t'
    /\ TeamRanking.isUser t' = true
    /\ findIndexFrom l i = (i + Z.of_nat k')%Z
    /\ List.find TeamRanking.isUser l = Some t'.
Proof.
  revert i k. induction l as [|x l IH]; intros i k Hk Ht.
  - by rewrite lookup_nil in Hk.
  - simpl. destruct (TeamRanking.isUser x) eqn:Hx.
    + exists 0%nat, x. repeat split; [lia|done|lia].
    + destruct k as [|k]; simpl in Hk; [congruence|].
      destruct (IH (i + 1)%Z k Hk Ht) as (k' & t' & Hle & Hk' & Ht' & Hi & Hf).
      exists (S k'), t'. repeat split; [lia|done|done|lia|done].
Qed.

(** X18. When a draft is over (and in every other state the page can
    reach) the results screen finds the user's team in the standings: the
    rank it shows is between 1 and 12, and the team it shows is the entry
    at that rank, the one of the user's draft position, with the user's
    roster. *)
Theorem user_rank (st : State) :
  reachable st ->
  let standings := teamRankings st in
  (1 <= userRank standings <= NUM_TEAMS)%Z
  /\ exists t,
       standings !! Z.to_nat (userRank standings - 1) = Some t
       /\ userTeam standings = Some t
       /\ TeamRanking.teamIndex t = userTeamIndex st
       /\ TeamRanking.roster t = userRoster st.
Proof.
  intros Hreach. cbv zeta.
  pose proof (reachable_userPickPosition st Hreach) as Hpos.
  pose proof (inv_rosters _ (reachable_invariant st Hreach)) as Hlen.
  pose proof (rankings_teams st) as Hperm.
  pose proof (rankings_entries st) as Hentries.
  assert (Hin : userTeamIndex st ∈ TeamRanking.teamIndex <$> teamRankings st).
  { rewrite Hperm. apply list_elem_of_fmap.
    exists (Z.to_nat (userTeamIndex st)). unfold userTeamIndex.
    split; [lia|]. apply elem_of_seq. rewrite Hlen. unfold NUM_TEAMS in *. lia. }
  apply list_elem_of_fmap in Hin as (t & Hidx & Ht).
  pose proof Ht as Hk. apply list_elem_of_lookup in Hk as [k Hk].
  assert (Huser : TeamRanking.isUser t = true).
  { destruct (Hentries t Ht) as (_ & _ & _ & _ & ->). rewrite Hidx.
    apply Z.eqb_refl. }
  destruct (findIndexFrom_spec _ 0 k t Hk Huser)
    as (k' & t' & Hle & Hk' & Huser' & Hfind & Hteam).
  assert (Ht' : t' ∈ teamRankings st) by (by eapply list_elem_of_lookup_2).
  destruct (Hentries t' Ht') as (Hroster & Hnonneg & _ & _ & Hmark).
  rewrite Huser' in Hmark. symmetry in Hmark. apply Z.eqb_eq in Hmark.
  assert (Hbound : (k' < length (teamRankings st))%nat)
    by (by eapply lookup_lt_Some).
  assert (Hsize : length (teamRankings st) = Z.to_nat NUM_TEAMS).
  { rewrite <- Hlen, <- (length_fmap TeamRanking.teamIndex), Hperm.
    by rewrite length_fmap, length_seq. }
  unfold userRank. rewrite Hfind. split; [unfold NUM_TEAMS in *; lia|].
  exists t'. replace (Z.to_nat (0 + Z.of_nat k' + 1 - 1)) with k' by lia.
  repeat split; [done|done|done|].
  unfold userRoster, Js.at_. rewrite <- Hmark.
  destruct (_ <? 0)%Z eqn:Hneg; [apply Z.ltb_lt in Hneg; lia|].
  by rewrite Hroster.
Qed.

Lemma user_rank_witness :
  (1 <= userRank (teamRankings draftedLeague) <= NUM_TEAMS)%Z.
Proof.
  apply (user_rank draftedLeague).
  destruct full_draft_completes as (st & Hrun & _).
  exists fullDraftEvents. unfold draftedLeague. by rewrite Hrun.
Defined.
End Rankings.

Section Board.
Import Scoring Constants Utils Hooks DraftPage.
Variable toLowerCase : string -> string.

Lemma includes_empty (s : string) : Js.includes s EmptyString = true.
Proof. by destruct s. Qed.

(** X19. A search text whose lower-case form is empty matches every
    name: the board then shows exactly the available players of the chosen
    position, in the order of the pool, and all of them when the position
    filter is ALL. *)
Theorem empty_search_shows_all (available : list DraftPlayer)
    (searchQuery : string) (filterPosition : option Position) :
  toLowerCase searchQuery = EmptyString ->
  filteredPlayers toLowerCase available searchQuery filterPosition
  = List.filter (ofPosition filterPosition) available
  /\ filteredPlayers toLowerCase available searchQuery None = available.
Proof.
  intros Hq. unfold filteredPlayers. rewrite Hq. split.
  - apply List.filter_ext. intros p. by rewrite includes_empty.
  - induction available as [|p l IH]; [done|].
    simpl. rewrite includes_empty. simpl. by f_equal.
Qed.

End Board.

Section NameKeyFacts.
Import Scoring.
Variable toLowerCase : string -> string.

Lemma find_candidate (keys : list string) (l : list string) (c : string) :
  List.find (fun c => bool_decide (c ∈ keys)) l = Some c -> c ∈ keys /\ c ∈ l.
Proof.
  intros Hfind. apply List.find_some in Hfind as [Hin Hc].
  apply bool_decide_eq_true in Hc. apply list_elem_of_In in Hin. done.
Qed.

(** X20. The column [detectPlayerNameKey] names is a column of the row.
    It is one of the six known names whenever the row has one of them, and
    otherwise the first column whose lower-case form contains "name" or
    "player"; there is no answer only when the row has no such column at
    all. *)
Theorem name_key_is_a_column (keys : list string) :
  match detectPlayerNameKey toLowerCase keys with
  | Some k =>
      k ∈ keys
      /\ (k ∈ nameCandidates
          \/ ((forall c, c ∈ nameCandidates -> c ∉ keys)
              /\ fuzzyName toLowerCase k = true))
  | None =>
      forall k, k ∈ keys ->
        (k ∉ nameCandidates) /\ fuzzyName toLowerCase k = false
  end.
Proof.
  unfold detectPlayerNameKey.
  destruct (List.find _ nameCandidates) as [c|] eqn:Hexact.
  - apply find_candidate in Hexact as [Hkeys Hcand]. split; [done|by left].
  - assert (Hnone : forall c, c ∈ nameCandidates -> c ∉ keys).
    { intros c Hc%list_elem_of_In.
      pose proof (List.find_none _ _ Hexact c Hc) as Hdec.
      by apply bool_decide_eq_false in Hdec. }
    destruct (List.find _ keys) as [k|] eqn:Hfuzzy.
    + apply List.find_some in Hfuzzy as [Hin Hk].
      split; [by apply list_elem_of_In|]. right. by split.
    + intros k Hk. split.
      * intros Hc. by apply (Hnone k Hc).
      * apply list_elem_of_In in Hk. apply (List.find_none _ _ Hfuzzy k Hk).
Qed.

Lemma find_first_candidate (keys : list string) (l : list string) (i : nat)
    (c : string) :
  l !! i = Some c -> c ∈ keys ->
  (forall j c', (j < i)%nat -> l !! j = Some c' -> c' ∉ keys) ->
  List.find (fun c => bool_decide (c ∈ keys)) l = Some c.
Proof.
  revert i. induction l as [|x l IH]; intros i Hi Hc Hearlier.
  - by rewrite lookup_nil in Hi.
  - simpl. destruct i as [|i]; simpl in Hi.
    + injection Hi as ->. by rewrite bool_decide_eq_true_2.
    + rewrite bool_decide_eq_false_2.
      * apply (IH i Hi Hc). intros j c' Hj Hc'.
        apply (Hearlier (S j) c'); [lia|done].
      * apply (Hearlier 0%nat x); [lia|done].
Qed.

(** X21. The known names take precedence in their listed order, whatever
    the order of the columns: when the row has the candidate number [i] and
    none of the candidates before it, that candidate is the answer, even if
    an earlier column matches the fuzzy search. *)
Theorem name_key_priority (keys : list string) (i : nat) (c : string) :
  nameCandidates !! i = Some c -> c ∈ keys ->
  (forall j c', (j < i)%nat -> nameCandidates !! j = Some c' -> c' ∉ keys) ->
  detectPlayerNameKey toLowerCase keys = Some c.
Proof.
  intros Hi Hc Hearlier. unfold detectPlayerNameKey.
  by rewrite (find_first_candidate keys nameCandidates i c Hi Hc Hearlier).
Qed.
End NameKeyFacts.

Section BoardScenarios.
Import Scoring Constants Utils Hooks DraftPage.

Lemma empty_search_shows_all_witness :
  filteredPlayers asciiLower (loadPlayers twoListings) EmptyString None
  = loadPlayers twoListings.
Proof.
  apply (empty_search_shows_all asciiLower (loadPlayers twoListings) EmptyString None).
  reflexivity.
Defined.

Lemma name_key_priority_witness :
  detectPlayerNameKey asciiLower ["Team Name"; "name"; "player_name"]%string
  = Some "player_name"%string.
Proof.
  apply (name_key_priority asciiLower _ 2 "player_name").
  - reflexivity.
  - match goal with |- ?P => apply (bool_decide_unpack P) end.
    vm_compute. exact I.
  - intros j c' Hj Hc'.
    destruct j as [|[|j]]; [| |lia]; injection Hc' as <-;
      match goal with |- ?P => apply (bool_decide_unpack P) end;
      vm_compute; exact I.
Defined.
End BoardScenarios.

Section CsvFacts.
Import Scoring Csv.

Lemma append_nil_l (s : string) : String.append EmptyString s = s.
Proof. reflexivity. Qed.

Lemma append_cons (c : ascii) (s t : string) :
  String.append (String c s) t = String c (String.append s t).
Proof. reflexivity. Qed.

Lemma append_nil_r (s : string) : String.append s EmptyString = s.
Proof.
  induction s as [|c s IH]; [done|]. by rewrite append_cons, IH.
Qed.

Lemma append_assoc (a b c : string) :
  String.append (String.append a b) c = String.append a (String.append b c).
Proof.
  induction a as [|x a IH]; [done|]. by rewrite !append_cons, IH.
Qed.

Lemma push_append (current : string) (c : ascii) (rest : string) :
  String.append (push current c) rest = String.append current (String c rest).
Proof. unfold push. by rewrite append_assoc. Qed.

Lemma parseLineFrom_open (line : string) (result : list string)
    (current : string) :
  parseLineFrom (String QUOTE line) result current false
  = parseLineFrom line result current true.
Proof. by destruct line. Qed.

Lemma parseLineFrom_comma (line : string) (result : list string)
    (current : string) :
  parseLineFrom (String COMMA line) result current false
  = parseLineFrom line (result ++ [current]) EmptyString false.
Proof. reflexivity. Qed.

Lemma parseLineFrom_char (c : ascii) (line : string) (result : list string)
    (current : string) (inQuotes : bool) :
  Ascii.eqb c QUOTE = false ->
  Ascii.eqb c COMMA && negb inQuotes = false ->
  parseLineFrom (String c line) result current inQuotes
  = parseLineFrom line result (push current c) inQuotes.
Proof. intros Hq Hc. cbn [parseLineFrom]. by rewrite Hq, Hc. Qed.

Lemma parseLineFrom_bare (text rest : string) (result : list string)
    (current : string) :
  isBare text = true ->
  parseLineFrom (String.append text rest) result current false
  = parseLineFrom rest result (String.append current text) false.
Proof.
  revert current. induction text as [|c text IH]; intros current Hbare.
  - by rewrite append_nil_r.
  - cbn [isBare] in Hbare.
    apply andb_true_iff in Hbare as [[Hq Hc]%andb_true_iff Hbare].
    apply negb_true_iff in Hq, Hc.
    rewrite append_cons, parseLineFrom_char; [|done|by rewrite Hc].
    rewrite (IH _ Hbare). by rewrite push_append.
Qed.

Lemma parseLineFrom_quoted (text rest : string) (result : list string)
    (current : string) :
  afterCell rest ->
  parseLineFrom (String.append (escapeQuotes text) (String QUOTE rest))
    result current true
  = parseLineFrom rest result (String.append current text) false.
Proof.
  intros Hrest. revert current.
  induction text as [|c text IH]; intros current.
  - rewrite append_nil_r. cbn [escapeQuotes]. rewrite append_nil_l.
    by destruct Hrest as [->|[rest' ->]].
  - cbn [escapeQuotes]. destruct (Ascii.eqb c QUOTE) eqn:Hq.
    + apply Ascii.eqb_eq in Hq as ->. rewrite !append_cons.
      change (parseLineFrom
                (String QUOTE
                   (String QUOTE
                      (String.append (escapeQuotes text) (String QUOTE rest))))
                result current true)
        with (parseLineFrom
                (String.append (escapeQuotes text) (String QUOTE rest))
                result (push current QUOTE) true).
      rewrite IH. by rewrite push_append.
    + rewrite append_cons.
      rewrite parseLineFrom_char; [|done|by rewrite andb_false_r].
      rewrite IH. by rewrite push_append.
Qed.

Lemma parseLineFrom_cell (c : Cell) (rest : string) (result : list string) :
  writable c -> afterCell rest ->
  parseLineFrom (String.append (render c) rest) result EmptyString false
  = parseLineFrom rest result (cellText c) false.
Proof.
  intros Hc Hrest. destruct c as [text|text]; simpl in Hc.
  - by rewrite parseLineFrom_bare.
  - cbn [render cellText].
    rewrite append_cons, parseLineFrom_open, append_assoc, append_cons.
    rewrite append_nil_l. by rewrite parseLineFrom_quoted.
Qed.

Lemma parseLineFrom_cells (cells : list Cell) (result : list string) :
  cells <> [] -> Forall writable cells ->
  parseLineFrom (joinCommas (render <$> cells)) result EmptyString false
  = result ++ (cellText <$> cells).
Proof.
  revert result. induction cells as [|c cells IH]; intros result Hne Hw; [done|].
  apply Forall_cons in Hw as [Hc Hw].
  destruct cells as [|c' cells].
  - cbn [fmap list_fmap joinCommas].
    rewrite <- (append_nil_r (render c)).
    rewrite parseLineFrom_cell; [done|done|by left].
  - change (joinCommas (render <$> c :: c' :: cells))
      with (String.append (render c)
              (String COMMA (joinCommas (render <$> c' :: cells)))).
    rewrite parseLineFrom_cell; [|done|right; by eexists].
    rewrite parseLineFrom_comma, IH; [|done|done].
    by rewrite <- app_assoc.
Qed.

(** X22. Reading back a written line: when the cells of a line are
    joined by commas, each either bare (no comma, no quote) or put between
    quotes with its quotes doubled, [parseLine] returns the texts of the
    cells, one field per cell, with the white space at both ends of each
    trimmed. *)
Theorem parseLine_reads_back (cells : list Cell) :
  cells <> [] -> Forall writable cells ->
  parseLine (joinCommas (render <$> cells)) = Js.trim <$> (cellText <$> cells).
Proof.
  intros Hne Hw. unfold parseLine. by rewrite parseLineFrom_cells.
Qed.

Lemma parseLine_reads_back_witness :
  parseLine (joinCommas (render <$> [Plain "Ann"; Quoted "Kansas City, MO";
                                     Quoted (String QUOTE "KC"); Plain EmptyString]))
  = ["Ann"; "Kansas City, MO"; String QUOTE "KC"; EmptyString]%string.
Proof.
  apply (parseLine_reads_back
           [Plain "Ann"; Quoted "Kansas City, MO"; Quoted (String QUOTE "KC");
            Plain EmptyString]).
  - discriminate.
  - repeat constructor.
Defined.

Lemma assign_lookup_ne (row : CSVRow) (h v k : string) :
  k <> h -> assign row h v !! k = row !! k.
Proof.
  intros Hne. unfold assign. destruct (String.eqb h "__proto__"); [done|].
  by rewrite lookup_insert_ne.
Qed.

Lemma fillRow_lookup_other (hs : list string) (idx : nat) (values : list string)
    (row : CSVRow) (k : string) :
  k ∉ hs \/ k = "__proto__"%string ->
  fillRow hs idx values row !! k = row !! k.
Proof.
  revert idx row. induction hs as [|h hs IH]; intros idx row Hk; [done|].
  cbn [fillRow]. rewrite IH.
  - unfold assign. destruct (String.eqb h "__proto__") eqn:Hproto; [done|].
    apply String.eqb_neq in Hproto.
    rewrite lookup_insert_ne; [done|].
    destruct Hk as [Hk| ->]; [|done].
    intros ->. apply Hk. by left.
  - destruct Hk as [Hk|Hk]; [left|by right].
    intros Hin. apply Hk. by right.
Qed.

Lemma fillRow_lookup_last (hs : list string) (idx : nat) (values : list string)
    (row : CSVRow) (i : nat) (h : string) :
  hs !! i = Some h -> h <> "__proto__"%string ->
  (forall i' h', (i < i')%nat -> hs !! i' = Some h' -> h' <> h) ->
  fillRow hs idx values row !! h
  = Some (default EmptyString (values !! (idx + i)%nat)).
Proof.
  revert idx row i. induction hs as [|h0 hs IH]; intros idx row i Hi Hproto Hlast.
  - by rewrite lookup_nil in Hi.
  - cbn [fillRow]. destruct i as [|i]; simpl in Hi.
    + injection Hi as ->. rewrite fillRow_lookup_other.
      * unfold assign. apply String.eqb_neq in Hproto. rewrite Hproto.
        by rewrite lookup_insert_eq, Nat.add_0_r.
      * left. intros [i' Hi']%list_elem_of_lookup.
        apply (Hlast (S i') h); [lia|done|done].
    + rewrite (IH (S idx) _ i Hi Hproto).
      * f_equal. f_equal. f_equal. lia.
      * intros i' h' Hlt Hi'. apply (Hlast (S i') h'); [lia|done].
Qed.

Lemma fillRow_columns (hs : list string) (idx : nat) (values : list string)
    (row : CSVRow) (k : string) :
  is_Some (fillRow hs idx values row !! k)
  <-> (k ∈ hs /\ k <> "__proto__"%string) \/ is_Some (row !! k).
Proof.
  revert idx row. induction hs as [|h hs IH]; intros idx row.
  - cbn [fillRow]. split; [by right|]. intros [[Hin _]|Hrow]; [|done].
    by apply elem_of_nil in Hin.
  - cbn [fillRow]. rewrite IH, elem_of_cons. unfold assign.
    destruct (String.eqb h "__proto__") eqn:Hproto.
    + apply String.eqb_eq in Hproto as ->. tauto.
    + apply String.eqb_neq in Hproto.
      destruct (decide (k = h)) as [->|Hne].
      * rewrite lookup_insert_eq. split; [intros _; left; by split; [left|]|].
        intros _. right. by eexists.
      * rewrite lookup_insert_ne by done. tauto.
Qed.

Lemma parseCSV_unfold (text first : string) (others : list string) :
  dataLines text = first :: others ->
  parseCSV text
  = {| headers := Js.trim <$> parseLine first;
       rows := (fun line => fillRow (Js.trim <$> parseLine first) 0
                              (parseLine line) ∅) <$> others |}.
Proof. unfold dataLines, parseCSV. by intros ->. Qed.

(** X23. The table read from a text has one row for every non-blank
    line after the first; a text without a non-blank line gives no header
    and no row.  Every row has exactly the columns named in the header
    line, the inherited name __proto__ apart, which never becomes a
    column. *)
Theorem parseCSV_shape (text : string) :
  length (rows (parseCSV text)) = (length (dataLines text) - 1)%nat
  /\ (dataLines text = [] -> parseCSV text = {| headers := []; rows := [] |})
  /\ (forall row k, row ∈ rows (parseCSV text) ->
        is_Some (row !! k)
        <-> k ∈ headers (parseCSV text) /\ k <> "__proto__"%string).
Proof.
  destruct (dataLines text) as [|first others] eqn:Hlines.
  - unfold parseCSV. unfold dataLines in Hlines. rewrite Hlines. simpl.
    split; [done|]. split; [done|]. intros row k Hin.
    by apply elem_of_nil in Hin.
  - rewrite (parseCSV_unfold _ _ _ Hlines). cbn [rows headers].
    split; [rewrite length_fmap; simpl; lia|]. split; [done|].
    intros row k (line & -> & _)%list_elem_of_fmap.
    rewrite fillRow_columns, lookup_empty. split; [|by left].
    intros [Hk|Hnone]; [done|]. by destruct Hnone.
Qed.

(** X24. Cell by cell: the row read from a data line holds, under the
    header of column [i], field [i] of that line, and the empty text when
    the line has fewer fields; fields beyond the last header are dropped.
    When a header name occurs more than once, its last column counts. *)
Theorem parseCSV_cells (text : string) (j i : nat) (row : CSVRow) (h : string) :
  rows (parseCSV text) !! j = Some row ->
  headers (parseCSV text) !! i = Some h ->
  h <> "__proto__"%string ->
  (forall i' h', (i < i')%nat -> headers (parseCSV text) !! i' = Some h' ->
                 h' <> h) ->
  exists line,
    dataLines text !! S j = Some line
    /\ row !! h = Some (default EmptyString (parseLine line !! i)).
Proof.
  destruct (dataLines text) as [|first others] eqn:Hlines.
  - unfold parseCSV. unfold dataLines in Hlines. rewrite Hlines. simpl.
    by rewrite lookup_nil.
  - rewrite (parseCSV_unfold _ _ _ Hlines). cbn [rows headers].
    intros Hrow Hh Hproto Hlast.
    apply list_lookup_fmap_Some in Hrow as (line & -> & Hline).
    exists line. split; [done|].
    by rewrite (fillRow_lookup_last _ 0 _ _ i h Hh Hproto Hlast).
Qed.

Lemma parseCSV_cells_witness :
  exists line,
    dataLines sampleText !! 2%nat = Some line
    /\ ({[ "Name" := "Bob"; "Team" := "SF"; "Yds" := EmptyString ]} : CSVRow)%string
       !! "Yds"%string
       = Some (default EmptyString (parseLine line !! 2%nat)).
Proof.
  apply (parseCSV_cells sampleText 1 2 _ "Yds").
  - vm_compute. reflexivity.
  - vm_compute. reflexivity.
  - discriminate.
  - intros i' h' Hlt Hi'. vm_compute in Hi'.
    destruct i' as [|[|[|i']]]; [lia|lia|lia|discriminate].
Defined.
End CsvFacts.

Section TeamBuilder.
Import Scoring MyTeam.

Lemma toggleSlot_toggled (roster : list RosterPlayer) (playerId : string) :
  toggleSlot roster playerId = toggled roster playerId <$> roster.
Proof. reflexivity. Qed.

Lemma rosterCounts_cons (x : RosterPlayer) (l : list RosterPlayer)
    (pos : Position) :
  rosterCounts (x :: l) pos
  = ((if decide (RosterPlayer.position x = pos) then 1 else 0)
     + rosterCounts l pos)%Z.
Proof.
  unfold rosterCounts. rewrite filter_cons.
  destruct (decide (RosterPlayer.position x = pos)); simpl; lia.
Qed.

Lemma starterCounts_cons (x : RosterPlayer) (l : list RosterPlayer)
    (pos : Position) :
  starterCounts (x :: l) pos
  = ((if decide (RosterPlayer.slot x = starter /\ RosterPlayer.position x = pos)
      then 1 else 0)
     + starterCounts l pos)%Z.
Proof.
  unfold starterCounts. rewrite filter_cons.
  destruct (decide (RosterPlayer.slot x = starter)) as [Hs|Hs].
  - rewrite filter_cons.
    destruct (decide (RosterPlayer.position x = pos)) as [Hp|Hp].
    + rewrite decide_True by done. simpl. lia.
    + rewrite decide_False by tauto. simpl. lia.
  - rewrite decide_False by tauto. simpl. lia.
Qed.

Lemma rosterCounts_nonneg (l : list RosterPlayer) (pos : Position) :
  (0 <= rosterCounts l pos)%Z.
Proof. unfold rosterCounts. lia. Qed.

Lemma starterCounts_nonneg (l : list RosterPlayer) (pos : Position) :
  (0 <= starterCounts l pos)%Z.
Proof. unfold starterCounts. lia. Qed.

Lemma rosterCounts_app (l k : list RosterPlayer) (pos : Position) :
  rosterCounts (l ++ k) pos = (rosterCounts l pos + rosterCounts k pos)%Z.
Proof.
  induction l as [|x l IH]; [unfold rosterCounts; simpl; lia|].
  rewrite <- app_comm_cons, !rosterCounts_cons, IH. lia.
Qed.

Lemma starterCounts_app (l k : list RosterPlayer) (pos : Position) :
  starterCounts (l ++ k) pos = (starterCounts l pos + starterCounts k pos)%Z.
Proof.
  induction l as [|x l IH]; [unfold starterCounts; simpl; lia|].
  rewrite <- app_comm_cons, !starterCounts_cons, IH. lia.
Qed.

Lemma currentStarters_count (prev : list RosterPlayer) (pos : Position) :
  Z.of_nat
    (length (filter (fun x => RosterPlayer.position x = pos
                              /\ RosterPlayer.slot x = starter) prev))
  = starterCounts prev pos.
Proof.
  induction prev as [|x l IH]; [done|].
  rewrite starterCounts_cons, <- IH, filter_cons.
  destruct (decide (RosterPlayer.position x = pos
                    /\ RosterPlayer.slot x = starter)) as [Hd|Hd].
  - rewrite decide_True by tauto. simpl. lia.
  - rewrite decide_False by tauto. lia.
Qed.

Lemma existsb_ids (roster : list RosterPlayer) (id : string) :
  existsb (fun p => String.eqb (RosterPlayer.id p) id) roster = true
  <-> id ∈ rosterIds roster.
Proof.
  unfold rosterIds. rewrite existsb_exists, list_elem_of_fmap. split.
  - intros (p & Hin & Heq). apply String.eqb_eq in Heq.
    exists p. split; [done|by apply list_elem_of_In].
  - intros (p & -> & Hin). exists p. split; [by apply list_elem_of_In|].
    apply String.eqb_refl.
Qed.

Lemma addPlayer_cases (roster : list RosterPlayer) (player : Player) :
  addPlayer roster player = roster
  \/ ((Player.id player ∉ rosterIds roster)
      /\ (rosterCounts roster (Player.position player)
          < POSITION_LIMITS (Player.position player))%Z
      /\ exists slot,
           addPlayer roster player
           = roster ++ [RosterPlayer.mk (Player.id player) (Player.name player)
                          (Player.position player) (Player.points player)
                          (Player.raw player) slot]
           /\ (slot = starter ->
               (starterCounts roster (Player.position player)
                < STARTER_LIMITS (Player.position player))%Z)).
Proof.
  unfold addPlayer, canAddPlayer.
  destruct (existsb _ roster) eqn:Hon; [by left|].
  destruct (_ <? _)%Z eqn:Hroom; [|by left]. right.
  apply Z.ltb_lt in Hroom. split; [|split; [done|]].
  - intros Hin%existsb_ids. congruence.
  - simpl. eexists. split; [reflexivity|].
    destruct (_ <? _)%Z eqn:Hstart; [|discriminate].
    intros _. by apply Z.ltb_lt.
Qed.

Lemma addPlayer_withinLimits (roster : list RosterPlayer) (player : Player) :
  withinLimits roster -> withinLimits (addPlayer roster player).
Proof.
  intros (Hids & Hcount & Hstart).
  destruct (addPlayer_cases roster player)
    as [->|(Hnew & Hroom & slot & -> & Hslot)]; [done|].
  split; [|split].
  - unfold rosterIds. rewrite fmap_app. apply NoDup_app. split; [done|].
    split; [|apply NoDup_singleton].
    intros id Hin Hid. apply list_elem_of_singleton in Hid as ->. simpl in *.
    by apply Hnew.
  - intros pos. rewrite rosterCounts_app, rosterCounts_cons. simpl.
    specialize (Hcount pos). unfold rosterCounts at 2. simpl.
    destruct (decide (Player.position player = pos)) as [<-|]; lia.
  - intros pos. rewrite starterCounts_app, starterCounts_cons. simpl.
    specialize (Hstart pos). unfold starterCounts at 2. simpl.
    destruct (decide (slot = starter /\ Player.position player = pos))
      as [[Hs <-]|]; [specialize (Hslot Hs)|]; lia.
Qed.

Lemma filter_counts (P : RosterPlayer -> Prop) `{!forall p, Decision (P p)}
    (roster : list RosterPlayer) (pos : Position) :
  (rosterCounts (filter P roster) pos <= rosterCounts roster pos)%Z
  /\ (starterCounts (filter P roster) pos <= starterCounts roster pos)%Z.
Proof.
  induction roster as [|x l [IH1 IH2]]; [done|].
  rewrite filter_cons. destruct (decide (P x)).
  - rewrite !rosterCounts_cons, !starterCounts_cons. lia.
  - rewrite rosterCounts_cons, starterCounts_cons.
    repeat case_decide; lia.
Qed.

Lemma removePlayer_withinLimits (roster : list RosterPlayer) (playerId : string) :
  withinLimits roster -> withinLimits (removePlayer roster playerId).
Proof.
  intros (Hids & Hcount & Hstart). unfold removePlayer. split; [|split].
  - assert (Hsub : sublist (rosterIds (filter (fun p => RosterPlayer.id p ≠ playerId)
                                         roster))
                           (rosterIds roster))
      by apply fmap_sublist, sublist_filter.
    by apply (sublist_NoDup _ _ Hids Hsub).
  - intros pos.
    pose proof (filter_counts (fun p => RosterPlayer.id p ≠ playerId) roster pos).
    specialize (Hcount pos). lia.
  - intros pos.
    pose proof (filter_counts (fun p => RosterPlayer.id p ≠ playerId) roster pos).
    specialize (Hstart pos). lia.
Qed.

Lemma fmap_same_shape (f : RosterPlayer -> RosterPlayer)
    (roster : list RosterPlayer) :
  (forall p, RosterPlayer.id (f p) = RosterPlayer.id p
             /\ RosterPlayer.position (f p) = RosterPlayer.position p) ->
  rosterIds (f <$> roster) = rosterIds roster
  /\ forall pos, rosterCounts (f <$> roster) pos = rosterCounts roster pos.
Proof.
  intros Hf. split.
  - unfold rosterIds. rewrite <- list_fmap_compose. apply list_fmap_ext.
    intros i p _. apply Hf.
  - intros pos. induction roster as [|x l IH]; [done|].
    rewrite fmap_cons, !rosterCounts_cons, IH.
    by rewrite (proj2 (Hf x)).
Qed.

Lemma toggled_shape (prev : list RosterPlayer) (playerId : string)
    (p : RosterPlayer) :
  RosterPlayer.id (toggled prev playerId p) = RosterPlayer.id p
  /\ RosterPlayer.position (toggled prev playerId p) = RosterPlayer.position p.
Proof.
  unfold toggled. destruct (negb _); [done|].
  destruct (bool_decide _); [done|]. by destruct (_ <? _)%Z.
Qed.

Lemma toggled_other (prev : list RosterPlayer) (playerId : string)
    (p : RosterPlayer) :
  RosterPlayer.id p <> playerId -> toggled prev playerId p = p.
Proof.
  intros Hne. unfold toggled. apply String.eqb_neq in Hne. by rewrite Hne.
Qed.

Lemma toggled_others (prev l : list RosterPlayer) (playerId : string) :
  playerId ∉ rosterIds l -> toggled prev playerId <$> l = l.
Proof.
  intros Hnot. induction l as [|x l IH]; [done|].
  rewrite fmap_cons, IH, toggled_other; [done| |].
  - intros Heq. apply Hnot. rewrite <- Heq. by left.
  - intros Hin. apply Hnot. by right.
Qed.

Lemma toggled_self (prev : list RosterPlayer) (p : RosterPlayer) :
  toggled prev (RosterPlayer.id p) p
  = match RosterPlayer.slot p with
    | starter => RosterPlayer.withSlot p bench
    | bench =>
        if (starterCounts prev (RosterPlayer.position p)
            <? STARTER_LIMITS (RosterPlayer.position p))%Z
        then RosterPlayer.withSlot p starter else p
    end.
Proof.
  unfold toggled. rewrite String.eqb_refl. cbn [negb].
  rewrite currentStarters_count.
  destruct (RosterPlayer.slot p) eqn:Hslot; [by rewrite bool_decide_eq_true_2|].
  by rewrite bool_decide_eq_false_2.
Qed.

Lemma toggled_starters (prev l : list RosterPlayer) (playerId : string)
    (pos : Position) :
  NoDup (rosterIds l) ->
  (starterCounts (toggled prev playerId <$> l) pos
   <= starterCounts l pos
      + (if decide (starterCounts prev pos < STARTER_LIMITS pos)%Z
         then 1 else 0))%Z.
Proof.
  induction l as [|x l IH]; intros Hids.
  - unfold starterCounts. simpl. case_decide; lia.
  - apply NoDup_cons in Hids as [Hx Hids]. rewrite fmap_cons.
    destruct (decide (RosterPlayer.id x = playerId)) as [<-|Hne].
    + rewrite (toggled_others _ _ _ Hx), toggled_self.
      rewrite !starterCounts_cons.
      destruct (RosterPlayer.slot x) eqn:Hslot; simpl.
      * repeat case_decide; try lia; tauto.
      * destruct (_ <? _)%Z eqn:Hroom.
        -- apply Z.ltb_lt in Hroom. simpl.
           repeat case_decide; try lia; try tauto.
           all: destruct_and?; subst; try lia; try congruence.
        -- rewrite Hslot. repeat case_decide; try lia.
           all: destruct_and?; congruence.
    + rewrite (toggled_other _ _ _ Hne), !starterCounts_cons.
      specialize (IH Hids). lia.
Qed.

Lemma toggleSlot_withinLimits (roster : list RosterPlayer) (playerId : string) :
  withinLimits roster -> withinLimits (toggleSlot roster playerId).
Proof.
  intros (Hids & Hcount & Hstart). rewrite toggleSlot_toggled.
  destruct (fmap_same_shape (toggled roster playerId) roster
              (toggled_shape roster playerId)) as [Hsame Hsize].
  split; [by rewrite Hsame|]. split; [intros pos; by rewrite Hsize|].
  intros pos.
  pose proof (toggled_starters roster roster playerId pos Hids) as Hle.
  specialize (Hstart pos). case_decide; lia.
Qed.

Lemma rescore_withinLimits (scoring : Scoring) (roster : list RosterPlayer) :
  withinLimits roster -> withinLimits (rescore scoring roster).
Proof.
  intros (Hids & Hcount & Hstart). unfold rescore.
  set (f := fun p => RosterPlayer.withPoints p _).
  destruct (fmap_same_shape f roster) as [Hsame Hsize]; [done|].
  split; [by rewrite Hsame|]. split; [intros pos; by rewrite Hsize|].
  intros pos. replace (starterCounts (f <$> roster) pos)
    with (starterCounts roster pos); [done|].
  clear. induction roster as [|x l IH]; [done|].
  by rewrite fmap_cons, !starterCounts_cons, IH.
Qed.

Lemma dispatch_withinLimits (roster : list RosterPlayer) (ev : Event) :
  withinLimits roster -> withinLimits (dispatch roster ev).
Proof.
  destruct ev as [player|playerId|playerId|scoring|]; simpl.
  - apply addPlayer_withinLimits.
  - apply removePlayer_withinLimits.
  - apply toggleSlot_withinLimits.
  - apply rescore_withinLimits.
  - intros _. repeat split; [constructor|intros []; done|intros []; done].
Qed.

Lemma run_withinLimits (events : list Event) : withinLimits (run events).
Proof.
  unfold run. induction events as [|ev events IH] using rev_ind.
  - repeat split; [constructor|intros []; done|intros []; done].
  - rewrite foldl_snoc. by apply dispatch_withinLimits.
Qed.

(** X25. Whatever is clicked on the team builder, in whatever order, the
    roster never holds a player twice, never more than 2 quarterbacks, 5
    running backs, 5 wide receivers and 4 tight ends, and never more
    starters than 1, 2, 2 and 1 at these positions: at most 16 players, 6
    of them starters. *)
Theorem team_within_limits (events : list Event) :
  let roster := run events in
  NoDup (rosterIds roster)
  /\ (forall pos, (rosterCounts roster pos <= POSITION_LIMITS pos)%Z
                  /\ (starterCounts roster pos <= STARTER_LIMITS pos)%Z)
  /\ (length roster <= 16)%nat
  /\ (length (filter (fun p => RosterPlayer.slot p = starter) roster) <= 6)%nat.
Proof.
  cbv zeta. destruct (run_withinLimits events) as (Hids & Hcount & Hstart).
  split; [done|]. split; [by split|].
  assert (Hsplit : forall l : list RosterPlayer,
             Z.of_nat (length l)
             = (rosterCounts l QB + rosterCounts l RB
                + rosterCounts l WR + rosterCounts l TE)%Z).
  { induction l as [|x l IH]; [done|].
    rewrite !rosterCounts_cons. simpl length.
    destruct (RosterPlayer.position x); repeat case_decide; try congruence; lia. }
  split.
  - pose proof (Hsplit (run events)).
    pose proof (Hcount QB). pose proof (Hcount RB).
    pose proof (Hcount WR). pose proof (Hcount TE). simpl in *. lia.
  - pose proof (Hsplit (filter (fun p => RosterPlayer.slot p = starter)
                          (run events))) as Hs.
    pose proof (Hstart QB). pose proof (Hstart RB).
    pose proof (Hstart WR). pose proof (Hstart TE).
    unfold starterCounts in *. unfold rosterCounts in Hs. simpl in *. lia.
Qed.
End TeamBuilder.

Section TeamBuilderMoves.
Import Scoring MyTeam.

Lemma fmap_fixed {A} (f : A -> A) (l : list A) :
  (forall x, x ∈ l -> f x = x) -> f <$> l = l.
Proof.
  intros Hf. induction l as [|x l IH]; [done|].
  rewrite fmap_cons, Hf, IH; [done| |by left].
  intros y Hy. apply Hf. by right.
Qed.

Lemma same_id (l : list RosterPlayer) (x y : RosterPlayer) :
  NoDup (rosterIds l) -> x ∈ l -> y ∈ l ->
  RosterPlayer.id x = RosterPlayer.id y -> x = y.
Proof.
  intros Hids [i Hi]%list_elem_of_lookup [j Hj]%list_elem_of_lookup Heq.
  assert (i = j) as ->; [|congruence].
  apply (NoDup_lookup _ i j (RosterPlayer.id x) Hids); unfold rosterIds;
    rewrite list_lookup_fmap; [by rewrite Hi|by rewrite Hj, Heq].
Qed.

Lemma withSlot_back (p : RosterPlayer) (s : RosterSlot) :
  RosterPlayer.withSlot (RosterPlayer.withSlot p s) (RosterPlayer.slot p) = p.
Proof. by destruct p. Qed.

Lemma toggled_benched_count (prev l : list RosterPlayer) (x : RosterPlayer) :
  NoDup (rosterIds l) -> x ∈ l -> RosterPlayer.slot x = starter ->
  starterCounts (toggled prev (RosterPlayer.id x) <$> l) (RosterPlayer.position x)
  = (starterCounts l (RosterPlayer.position x) - 1)%Z.
Proof.
  intros Hids Hx Hslot. induction l as [|y l IH]; [by apply elem_of_nil in Hx|].
  apply NoDup_cons in Hids as [Hy Hids]. rewrite fmap_cons.
  apply elem_of_cons in Hx as [<-|Hx].
  - rewrite (toggled_others _ _ _ Hy), toggled_self, Hslot.
    rewrite !starterCounts_cons.
    rewrite (decide_False (P := _ (RosterPlayer.withSlot x bench) = _ /\ _))
      by (intros [Hbad _]; discriminate Hbad).
    rewrite decide_True by done. lia.
  - assert (Hne : RosterPlayer.id y <> RosterPlayer.id x).
    { intros Heq. apply Hy. rewrite Heq. unfold rosterIds.
      apply list_elem_of_fmap. by exists x. }
    rewrite (toggled_other _ _ _ Hne), !starterCounts_cons, (IH Hids Hx). lia.
Qed.

(** X26. Toggling the same player twice leaves the roster as it was: a
    starter is benched and started again, a benched player is started and
    benched again, or stays on the bench both times when the starter slots
    of the position are taken. *)
Theorem toggle_twice (roster : list RosterPlayer) (playerId : string) :
  withinLimits roster ->
  toggleSlot (toggleSlot roster playerId) playerId = roster.
Proof.
  intros (Hids & _ & Hstart). rewrite !toggleSlot_toggled.
  set (roster' := toggled roster playerId <$> roster).
  destruct (decide (playerId ∈ rosterIds roster)) as [Hin|Hnot].
  - apply list_elem_of_fmap in Hin as (x & -> & Hx).
    assert (Hcases :
              roster' = roster
              \/ (RosterPlayer.slot x = starter
                  /\ (starterCounts roster' (RosterPlayer.position x)
                      < STARTER_LIMITS (RosterPlayer.position x))%Z)
              \/ (RosterPlayer.slot x = bench
                  /\ toggled roster (RosterPlayer.id x) x
                     = RosterPlayer.withSlot x starter)).
    { pose proof (toggled_self roster x) as Hself.
      destruct (RosterPlayer.slot x) eqn:Hslot.
      - right. left. split; [done|]. unfold roster'.
        rewrite (toggled_benched_count _ _ _ Hids Hx Hslot).
        specialize (Hstart (RosterPlayer.position x)). lia.
      - destruct (_ <? _)%Z; [by right; right|]. left.
        apply fmap_fixed. intros y Hy.
        destruct (decide (RosterPlayer.id y = RosterPlayer.id x)) as [Heq|Hne].
        + by rewrite (same_id _ _ _ Hids Hy Hx Heq).
        + by apply toggled_other. }
    destruct Hcases as [Hsame|Hcases].
    { rewrite Hsame. exact Hsame. }
    unfold roster' at 2. rewrite <- list_fmap_compose. apply fmap_fixed.
    intros y Hy. simpl.
    destruct (decide (RosterPlayer.id y = RosterPlayer.id x)) as [Heq|Hne].
    + rewrite (same_id _ _ _ Hids Hy Hx Heq).
      destruct Hcases as [[Hslot Hroom]|[Hslot Hto]].
      * rewrite (toggled_self roster x), Hslot.
        change (RosterPlayer.id x)
          with (RosterPlayer.id (RosterPlayer.withSlot x bench)).
        rewrite toggled_self. simpl.
        apply Z.ltb_lt in Hroom. rewrite Hroom.
        rewrite <- Hslot at 1. apply withSlot_back.
      * rewrite Hto.
        change (RosterPlayer.id x)
          with (RosterPlayer.id (RosterPlayer.withSlot x starter)).
        rewrite toggled_self. simpl.
        rewrite <- Hslot at 1. apply withSlot_back.
    + rewrite (toggled_other roster _ _ Hne). by apply toggled_other.
  - unfold roster'. rewrite (toggled_others _ _ _ Hnot).
    by apply toggled_others.
Qed.

Lemma sampleRoster_withinLimits : withinLimits sampleRoster.
Proof. apply run_withinLimits. Qed.

Lemma toggle_twice_witness :
  toggleSlot (toggleSlot sampleRoster "r1") "r1" = sampleRoster.
Proof. apply (toggle_twice sampleRoster "r1"), sampleRoster_withinLimits. Defined.

(** X27. What a click on Start or Bench does to the clicked player: a
    starter is benched; a benched player is started exactly when the page
    offers it ([canSetStarter]), and is left on the bench otherwise.  No
    other player's entry changes, whatever their slots. *)
Theorem toggle_one (roster : list RosterPlayer) (i : nat) (p : RosterPlayer) :
  roster !! i = Some p ->
  toggleSlot roster (RosterPlayer.id p) !! i
  = Some (match RosterPlayer.slot p with
          | starter => RosterPlayer.withSlot p bench
          | bench =>
              if canSetStarter roster p
              then RosterPlayer.withSlot p starter else p
          end)
  /\ forall j q, roster !! j = Some q ->
       RosterPlayer.id q <> RosterPlayer.id p ->
       toggleSlot roster (RosterPlayer.id p) !! j = Some q.
Proof.
  intros Hi. rewrite toggleSlot_toggled. split.
  - rewrite list_lookup_fmap, Hi. simpl. rewrite toggled_self.
    unfold canSetStarter. destruct (RosterPlayer.slot p) eqn:Hslot; [done|].
    by rewrite bool_decide_eq_false_2.
  - intros j q Hj Hne. rewrite list_lookup_fmap, Hj. simpl.
    by rewrite toggled_other.
Qed.

Lemma toggle_one_witness :
  toggleSlot sampleRoster "r3" !! 3%nat
  = Some (RosterPlayer.mk "r3" "r3" RB 150 ∅ bench).
Proof.
  exact (proj1 (toggle_one sampleRoster 3
                  (RosterPlayer.mk "r3" "r3" RB 150 ∅ bench) eq_refl)).
Defined.

Lemma filter_absent_id (roster : list RosterPlayer) (playerId : string) :
  playerId ∉ rosterIds roster -> removePlayer roster playerId = roster.
Proof.
  intros Hnot. unfold removePlayer. induction roster as [|x l IH]; [done|].
  rewrite filter_cons, decide_True, IH; [done| |].
  - intros Hin. apply Hnot. by right.
  - intros Heq. apply Hnot. rewrite <- Heq. by left.
Qed.

(** X28. Removing a player right after adding them gives back the roster
    as it was, for a player who was not on it: whether the player was
    taken on or refused for a full position. *)
Theorem add_then_remove (roster : list RosterPlayer) (player : Player) :
  Player.id player ∉ rosterIds roster ->
  removePlayer (addPlayer roster player) (Player.id player) = roster.
Proof.
  intros Hnot.
  destruct (addPlayer_cases roster player)
    as [->|(_ & _ & slot & -> & _)]; [by apply filter_absent_id|].
  unfold removePlayer. rewrite filter_app.
  fold (removePlayer roster (Player.id player)).
  rewrite (filter_absent_id _ _ Hnot), filter_cons. simpl.
  rewrite decide_False by (intros Hne; by apply Hne).
  by rewrite filter_nil, app_nil_r.
Qed.

Lemma add_then_remove_witness :
  removePlayer (addPlayer sampleRoster (athlete "w1" WR 120)) "w1"
  = sampleRoster.
Proof.
  apply (add_then_remove sampleRoster (athlete "w1" WR 120)).
  match goal with |- ?P => apply (bool_decide_unpack P) end.
  vm_compute. exact I.
Defined.

End TeamBuilderMoves.

Section RankingsTable.
Import Scoring Home.

Lemma byPointsDesc_points (a b : TableRow) :
  (byPointsDesc a b == TableRow.points b - TableRow.points a)%Q.
Proof. reflexivity. Qed.

Lemma defaultSort_points (a b : TableRow) :
  bySortConfig defaultSort a b = (TableRow.points b - TableRow.points a)%Q.
Proof. reflexivity. Qed.

Lemma place_front {A} (compareFn : A -> A -> Q) (key : A -> Q) (x : A)
    (l : list A) :
  (forall a b, compareFn a b == key b - key a)%Q ->
  Forall (notBelow key x) l ->
  Js.place compareFn x l = x :: l.
Proof.
  intros Hcmp Hx. destruct l as [|y l]; [done|]. simpl.
  apply Forall_cons in Hx as [Hy _]. unfold notBelow in Hy.
  destruct (Qle_bool (compareFn x y) 0) eqn:Hle; [done|].
  assert (Hyes : Qle_bool (compareFn x y) 0 = true).
  { apply Qle_bool_iff. rewrite Hcmp. lra. }
  congruence.
Qed.

Lemma sort_of_sorted {A} (compareFn : A -> A -> Q) (key : A -> Q) (l : list A) :
  (forall a b, compareFn a b == key b - key a)%Q ->
  StronglySorted (notBelow key) l ->
  Js.sort compareFn l = l.
Proof.
  intros Hcmp Hsorted. induction Hsorted as [|x l Hs IH Hx]; [done|].
  unfold Js.sort in *. simpl. rewrite IH. by apply (place_front _ key).
Qed.

Lemma load_lookup (r : list CSVRow) (position : Position) (scoring : Scoring)
    (i : nat) :
  load r position scoring !! i
  = (fun t => TableRow.mk (TableRow.row t) (TableRow.points t)
                (Z.of_nat i + 1)%Z)
    <$> Js.sort byPointsDesc
          ((fun row => TableRow.mk row
                         (computeFantasyPoints row position scoring) 0%Z)
           <$> r) !! i.
Proof. unfold load. by rewrite list_lookup_imap. Qed.

Lemma imap_keeps_order {A} (key : A -> Q) (f : nat -> A -> A) (l : list A) :
  (forall i x, key (f i x) = key x) ->
  StronglySorted (notBelow key) l ->
  StronglySorted (notBelow key) (imap f l).
Proof.
  intros Hf Hsorted. revert f Hf.
  induction Hsorted as [|x l Hs IH Hx]; intros f Hf; [constructor|].
  simpl. constructor; [apply IH; intros i y; apply Hf|].
  rewrite Forall_forall in *. intros y [i Hy]%list_elem_of_lookup.
  apply list_lookup_imap_Some in Hy as (y0 & Hy0 & ->).
  unfold notBelow, compose in *. rewrite !Hf.
  apply Hx. by eapply list_elem_of_lookup_2.
Qed.

Lemma load_sorted (r : list CSVRow) (position : Position) (scoring : Scoring) :
  StronglySorted (notBelow TableRow.points) (load r position scoring).
Proof.
  unfold load. apply imap_keeps_order; [done|].
  apply (sort_sorted _ _ byPointsDesc_points).
Qed.

(** X29. The rankings table as loaded keeps every row of the file, each
    once, with the points the scoring function gives it for the chosen
    position and format; the rows stand in descending order of points and
    row number [i] (from 0) has rank [i + 1]. *)
Theorem load_ranks (r : list CSVRow) (position : Position) (scoring : Scoring) :
  let table := load r position scoring in
  TableRow.row <$> table ≡ₚ r
  /\ StronglySorted (notBelow TableRow.points) table
  /\ forall i t, table !! i = Some t ->
       TableRow.rank t = (Z.of_nat i + 1)%Z
       /\ TableRow.points t
          = computeFantasyPoints (TableRow.row t) position scoring.
Proof.
  cbv zeta. split; [|split; [apply load_sorted|]].
  - assert (Hrows : forall l : list TableRow,
               TableRow.row
               <$> imap (fun idx row =>
                           TableRow.mk (TableRow.row row) (TableRow.points row)
                             (Z.of_nat idx + 1)%Z) l
               = TableRow.row <$> l).
    { intros l. apply list_eq. intros i.
      rewrite !list_lookup_fmap, list_lookup_imap. by destruct (l !! i). }
    unfold load. rewrite Hrows, (sort_Permutation byPointsDesc).
    rewrite <- list_fmap_compose.
    induction r as [|row r IH]; [done|]. simpl. by constructor.
  - intros i t. rewrite load_lookup.
    destruct (Js.sort _ _ !! i) as [t0|] eqn:Ht0; [|discriminate].
    intros [= <-]. simpl. split; [done|].
    apply list_elem_of_lookup_2 in Ht0.
    rewrite (sort_Permutation byPointsDesc) in Ht0.
    by apply list_elem_of_fmap in Ht0 as (row & -> & _).
Qed.

(** X30. The table opens sorted by points, highest first, and this
    initial sort changes nothing: the rows are shown in the order of their
    ranks, as loaded. *)
Theorem default_sort_keeps_order (r : list CSVRow) (position : Position)
    (scoring : Scoring) :
  sortedRows (load r position scoring) defaultSort = load r position scoring.
Proof.
  unfold sortedRows.
  apply (sort_of_sorted _ TableRow.points).
  - intros a b. by rewrite defaultSort_points.
  - apply load_sorted.
Qed.
End RankingsTable.

Section PlainObjects.
Context {V : Type}.
Implicit Types (o : PlainObject.t V) (k : string) (v : V).

Lemma getOwn_set o k k' v :
  PlainObject.getOwn (PlainObject.set o k v) k'
  = if String.eqb k k' then Some v else PlainObject.getOwn o k'.
Proof.
  induction o as [|[k0 v0] o IH]; simpl.
  - done.
  - destruct (String.eqb k0 k) eqn:Hk0; simpl.
    + apply String.eqb_eq in Hk0 as ->. by destruct (String.eqb k k').
    + rewrite IH. destruct (String.eqb k0 k') eqn:Hk0'; [|done].
      apply String.eqb_eq in Hk0' as ->. by rewrite String.eqb_sym, Hk0.
Qed.

Lemma getOwn_None o k :
  PlainObject.getOwn o k = None <-> k ∉ fst <$> o.
Proof.
  induction o as [|[k0 v0] o IH]; simpl.
  - split; [intros _; apply not_elem_of_nil|done].
  - rewrite not_elem_of_cons, <- IH.
    destruct (String.eqb k0 k) eqn:Hk0.
    + apply String.eqb_eq in Hk0 as ->. split; [done|]. by intros [? _].
    + apply String.eqb_neq in Hk0. split; [by split|by intros [_ ?]].
Qed.

Lemma getOwn_elem o k v :
  NoDup (fst <$> o) -> PlainObject.getOwn o k = Some v <-> (k, v) ∈ o.
Proof.
  induction o as [|[k0 v0] o IH]; simpl; intros Hkeys.
  - split; [done|]. by intros ?%elem_of_nil.
  - apply NoDup_cons in Hkeys as [Hk0 Hkeys]. rewrite elem_of_cons.
    destruct (String.eqb k0 k) eqn:Heq.
    + apply String.eqb_eq in Heq as ->. split.
      * intros [= ->]. by left.
      * intros [[= ->]|Hin]; [done|]. exfalso. apply Hk0.
        apply list_elem_of_fmap. by exists (k, v).
    + apply String.eqb_neq in Heq. rewrite (IH Hkeys). split; [by right|].
      intros [[= -> _]|Hin]; done.
Qed.

Lemma set_keys o k v :
  fst <$> PlainObject.set o k v
  = match PlainObject.getOwn o k with
    | Some _ => fst <$> o
    | None => (fst <$> o) ++ [k]
    end.
Proof.
  induction o as [|[k0 v0] o IH]; [done|].
  cbn [PlainObject.set PlainObject.getOwn].
  destruct (String.eqb k0 k) eqn:Heq; [done|].
  rewrite !fmap_cons, IH. by destruct (PlainObject.getOwn o k).
Qed.

Lemma set_NoDup o k v :
  NoDup (fst <$> o) -> NoDup (fst <$> PlainObject.set o k v).
Proof.
  intros Hkeys. rewrite set_keys.
  destruct (PlainObject.getOwn o k) eqn:Hown; [done|].
  apply getOwn_None in Hown. apply NoDup_app. split; [done|].
  split; [|apply NoDup_singleton].
  intros k' Hin ->%list_elem_of_singleton. done.
Qed.

Lemma insertByIndex_Permutation (i : Z) (kv : string * V)
    (l : list (Z * (string * V))) :
  PlainObject.insertByIndex i kv l ≡ₚ (i, kv) :: l.
Proof.
  induction l as [|[j kv'] l IH]; simpl; [done|].
  destruct (i <? j)%Z; [done|]. rewrite IH. apply perm_swap.
Qed.

Lemma ordered_Permutation o : PlainObject.ordered o ≡ₚ o.
Proof.
  unfold PlainObject.ordered. induction o as [|kv o IH]; [done|].
  simpl. destruct (PlainObject.arrayIndex (fst kv)) as [i|]; simpl.
  - rewrite insertByIndex_Permutation. simpl. by rewrite IH.
  - rewrite <- Permutation_middle. by rewrite IH.
Qed.

Lemma values_elem o v :
  NoDup (fst <$> o) ->
  v ∈ PlainObject.values o <-> exists k, PlainObject.getOwn o k = Some v.
Proof.
  intros Hkeys. unfold PlainObject.values.
  rewrite ordered_Permutation, list_elem_of_fmap. split.
  - intros ([k v'] & -> & Hin). exists k. by apply getOwn_elem.
  - intros [k Hk]. exists (k, v). split; [done|]. by apply getOwn_elem.
Qed.

Lemma keys_elem o k : k ∈ PlainObject.keys o <-> k ∈ fst <$> o.
Proof. unfold PlainObject.keys. by rewrite ordered_Permutation. Qed.
End PlainObjects.

Section Dedupe.
Import Scoring Hooks.
Variable toLowerCase : string -> string.
Variable scoring : Scoring.
Variable pos : Position.
Variable nameKey : option string.

Lemma get_cases (byName : PlainObject.t Entry.t) (k : string) :
  match PlainObject.get byName k with
  | PlainObject.Own e => PlainObject.getOwn byName k = Some e
  | PlainObject.Inherited =>
      PlainObject.getOwn byName k = None /\ k ∈ PlainObject.prototypeNames
  | PlainObject.Undefined =>
      PlainObject.getOwn byName k = None /\ k ∉ PlainObject.prototypeNames
  end.
Proof.
  unfold PlainObject.get. destruct (PlainObject.getOwn byName k); [done|].
  by case_bool_decide.
Qed.

Lemma bestOfKey_later (done : list CSVRow) (row : CSVRow) (i : nat)
    (r : CSVRow) :
  bestOfKey toLowerCase scoring pos nameKey done i r ->
  (rowKey toLowerCase nameKey (length done) row = rowKey toLowerCase nameKey i r ->
   (computeFantasyPoints row pos scoring <= computeFantasyPoints r pos scoring)%Q) ->
  bestOfKey toLowerCase scoring pos nameKey (done ++ [row]) i r.
Proof.
  intros [Hi Hbest] Hnew. pose proof (lookup_lt_Some _ _ _ Hi) as Hlt.
  split; [by apply lookup_app_l_Some|].
  intros j row' [[Hj Hrow']|[-> <-]]%lookup_snoc_Some Hkey.
  - by apply Hbest.
  - split; [by apply Hnew|lia].
Qed.

Lemma visit_kept (done : list CSVRow) (row : CSVRow)
    (byName : PlainObject.t Entry.t) :
  kept toLowerCase scoring pos nameKey done byName ->
  kept toLowerCase scoring pos nameKey (done ++ [row])
    (Loader.visit toLowerCase scoring pos nameKey byName (length done) row).
Proof.
  intros (Hkeys & Hown & Hall). unfold Loader.visit. cbv zeta.
  fold (dedupeKey toLowerCase (Loader.rawNameOf nameKey row (length done))).
  fold (rowKey toLowerCase nameKey (length done) row).
  set (k := rowKey toLowerCase nameKey (length done) row).
  set (p := computeFantasyPoints row pos scoring).
  fold (entryOfRow scoring pos nameKey (length done) row).
  set (e := entryOfRow scoring pos nameKey (length done) row).
  assert (Hsame : forall byName',
             (forall k', PlainObject.getOwn byName' k'
                         = PlainObject.getOwn byName k') ->
             NoDup (fst <$> byName') ->
             (forall e0, PlainObject.getOwn byName k = Some e0 ->
                         (p <= Entry.points e0)%Q) ->
             (k ∉ PlainObject.prototypeNames ->
              is_Some (PlainObject.getOwn byName k)) ->
             kept toLowerCase scoring pos nameKey (done ++ [row]) byName').
  { intros byName' Hget Hkeys' Hlow Hthere. split; [done|]. split.
    - intros k' e' Hk'. rewrite Hget in Hk'.
      destruct (Hown k' e' Hk') as (Hproto & i & r & Hbest & -> & ->).
      split; [done|]. exists i, r. split; [|done].
      apply bestOfKey_later; [done|]. intros Hkey.
      fold k in Hkey. rewrite <- Hkey in Hk'. apply (Hlow _ Hk').
    - intros i r [[Hi Hr]|[-> <-]]%lookup_snoc_Some Hproto; rewrite Hget.
      + by apply Hall.
      + by apply Hthere. }
  assert (Hstore : PlainObject.getOwn byName k = None
                   \/ (exists e0, PlainObject.getOwn byName k = Some e0
                                  /\ (Entry.points e0 < p)%Q) ->
                   k ∉ PlainObject.prototypeNames ->
                   kept toLowerCase scoring pos nameKey (done ++ [row])
                     (PlainObject.set byName k e)).
  { intros Hold Hproto. split; [by apply set_NoDup|]. split.
    - intros k' e'. rewrite getOwn_set.
      destruct (String.eqb k k') eqn:Hk.
      + apply String.eqb_eq in Hk as <-. intros [= <-]. split; [done|].
        exists (length done), row. split; [|done]. split.
        * by rewrite lookup_app_r, Nat.sub_diag.
        * intros j row' [[Hj Hrow']|[-> <-]]%lookup_snoc_Some Hkey;
            [|split; [apply Qle_refl|lia]].
          fold k in Hkey.
          destruct (Hall j row' Hrow') as [e0 He0]; [by rewrite Hkey|].
          rewrite Hkey in He0.
          destruct Hold as [Hnone|(e1 & He1 & Hless)]; [congruence|].
          assert (e1 = e0) as -> by congruence.
          destruct (Hown k e0 He0) as (_ & i & r & [Hi Hbest] & -> & Hk).
          destruct (Hbest j row' Hrow') as [Hle _]; [by rewrite <- Hk|].
          simpl in Hless. fold p. split; [lra|intros _; lra].
      + apply String.eqb_neq in Hk. intros Hk'.
        destruct (Hown k' e' Hk') as (Hproto' & i & r & Hbest & -> & ->).
        split; [done|]. exists i, r. split; [|done].
        apply bestOfKey_later; [done|]. intros Hkey. by fold k in Hkey.
    - intros i r [[Hi Hr]|[-> <-]]%lookup_snoc_Some Hproto'; rewrite getOwn_set.
      + destruct (String.eqb k _); [by eexists|by apply Hall].
      + fold k. rewrite String.eqb_refl. by eexists. }
  pose proof (get_cases byName k) as Hget.
  destruct (PlainObject.get byName k) as [e0| |].
  - destruct (Qle_bool p (Entry.points e0)) eqn:Hle; simpl.
    + apply Qle_bool_iff in Hle. apply Hsame; [done|done| |by eexists].
      intros e1 He1. by assert (e1 = e0) as -> by congruence.
    + assert (Hlt : (Entry.points e0 < p)%Q).
      { apply Qnot_le_lt. intros Hle'. apply Qle_bool_iff in Hle'. congruence. }
      apply Hstore; [right; by exists e0|].
      by destruct (Hown k e0 Hget) as [Hproto _].
  - destruct Hget as [Hnone Hproto]. apply Hsame; [done|done| |done].
    intros e0 He0. congruence.
  - destruct Hget as [Hnone Hproto]. apply Hstore; [by left|done].
Qed.

Lemma dedupeFrom_kept (done later : list CSVRow)
    (byName : PlainObject.t Entry.t) :
  kept toLowerCase scoring pos nameKey done byName ->
  kept toLowerCase scoring pos nameKey (done ++ later)
    (Loader.dedupeFrom toLowerCase scoring pos nameKey later (length done)
       byName).
Proof.
  revert done byName. induction later as [|row later IH]; intros done byName Hk.
  - by rewrite app_nil_r.
  - simpl. rewrite (cons_middle row done later), app_assoc.
    replace (S (length done)) with (length (done ++ [row]))
      by (rewrite length_app; simpl; lia).
    apply IH. by apply visit_kept.
Qed.

Lemma dedupe_kept (rows : list CSVRow) :
  kept toLowerCase scoring pos nameKey rows
    (Loader.dedupeFrom toLowerCase scoring pos nameKey rows 0 []).
Proof.
  apply (dedupeFrom_kept [] rows []). split; [constructor|]. split.
  - intros k e. discriminate.
  - intros i row. by rewrite lookup_nil.
Qed.
End Dedupe.

Section FileLoading.
Import Scoring Hooks Csv.
Variable toLowerCase : string -> string.
Variable scoring : Scoring.

Lemma headerObject_keys (headers : list string) (o : PlainObject.t unit)
    (k : string) :
  k ∈ fst <$> foldl (fun (o : PlainObject.t unit) h =>
                       if String.eqb h "__proto__" then o
                       else PlainObject.set o h tt) o headers
  <-> k ∈ fst <$> o \/ (k ∈ headers /\ k <> "__proto__"%string).
Proof.
  revert o. induction headers as [|h headers IH]; intros o; simpl.
  - split; [by left|]. intros [Hin|[Hin _]]; [done|].
    by apply elem_of_nil in Hin.
  - rewrite IH, elem_of_cons. destruct (String.eqb h "__proto__") eqn:Hproto.
    + apply String.eqb_eq in Hproto as ->. tauto.
    + apply String.eqb_neq in Hproto. rewrite set_keys.
      destruct (PlainObject.getOwn o h) eqn:Hown.
      * assert (Hin : h ∈ fst <$> o).
        { destruct (decide (h ∈ fst <$> o)) as [|Hnot]; [done|].
          apply getOwn_None in Hnot. congruence. }
        split; [tauto|]. intros [Hk|[[->|Hk] Hne]]; tauto.
      * rewrite elem_of_app, list_elem_of_singleton.
        split; [intros [[Hk| ->]|Hk]; tauto|].
        intros [Hk|[[->|Hk] Hne]]; tauto.
Qed.

Lemma rowKeys_elem (headers : list string) (k : string) :
  k ∈ Loader.rowKeys headers <-> k ∈ headers /\ k <> "__proto__"%string.
Proof.
  unfold Loader.rowKeys. rewrite keys_elem, headerObject_keys.
  split; [|by right]. intros [Hin|Hk]; [|done]. by apply elem_of_nil in Hin.
Qed.

Lemma detectPlayerNameKey_elem (keys : list string) (k : string) :
  detectPlayerNameKey toLowerCase keys = Some k -> k ∈ keys.
Proof.
  unfold detectPlayerNameKey.
  destruct (List.find _ nameCandidates) as [c|] eqn:Hexact.
  - intros [= <-]. by apply find_candidate in Hexact as [Hin _].
  - intros Hfuzzy. apply List.find_some in Hfuzzy as [Hin _].
    by apply list_elem_of_In.
Qed.

Lemma row_has_nameKey (text : string) (row : CSVRow) (k : string) :
  row ∈ rows (parseCSV text) ->
  Loader.nameKeyOf toLowerCase (parseCSV text) = Some k ->
  is_Some (row !! k).
Proof.
  intros Hrow. unfold Loader.nameKeyOf.
  destruct (rows (parseCSV text)) as [|row0 others0] eqn:Hrows;
    [discriminate|].
  intros [Hk Hproto]%detectPlayerNameKey_elem%rowKeys_elem.
  rewrite <- Hrows in Hrow. clear Hrows.
  destruct (dataLines text) as [|first others] eqn:Hlines.
  - unfold parseCSV in Hrow. unfold dataLines in Hlines.
    rewrite Hlines in Hrow. by apply elem_of_nil in Hrow.
  - rewrite (parseCSV_unfold _ _ _ Hlines) in Hrow, Hk. cbn [rows headers] in *.
    apply list_elem_of_fmap in Hrow as (line & -> & _).
    apply fillRow_columns. by left.
Qed.

Lemma bestOfKey_unique (pos : Position) (nameKey : option string)
    (rows : list CSVRow) (i j : nat) (r row : CSVRow) :
  bestOfKey toLowerCase scoring pos nameKey rows i r ->
  bestOfKey toLowerCase scoring pos nameKey rows j row ->
  rowKey toLowerCase nameKey i r = rowKey toLowerCase nameKey j row ->
  i = j /\ r = row.
Proof.
  intros [Hi Hbi] [Hj Hbj] Hkey.
  destruct (Hbi j row Hj) as [Hle1 Hlt1]; [done|].
  destruct (Hbj i r Hi) as [Hle2 Hlt2]; [done|].
  assert (i = j) as ->.
  { destruct (Nat.lt_trichotomy i j) as [Hlt|[->|Hlt]]; [|done|].
    - specialize (Hlt2 Hlt). lra.
    - specialize (Hlt1 Hlt). lra. }
  split; [done|congruence].
Qed.

(** X12. What [loadPlayers] keeps of the files.  The pool consists, up
    to order, of the entries of the four positions, each with its position,
    name and points; a position whose file cannot be fetched has none.  Of
    the rows of a file exactly those become an entry that are the best of
    their key (the name in lower case, trimmed): no row of that key has
    more points and every earlier one has fewer.  So no two entries share a
    key, and every row is represented by an entry of its key with at least
    its points, except the rows whose key is a property name of
    [Object.prototype], such as constructor: these are dropped.  The name
    of a row is its cell in the column of [detectPlayerNameKey]. *)
Theorem loadPlayers_from_files (responses : Position -> option string) :
  let entries pos :=
    Loader.entriesOf toLowerCase scoring pos (responses pos) in
  listingOfPlayer <$> Loader.loadPlayers toLowerCase scoring responses
  ≡ₚ allListings entries
  /\ forall pos,
       match responses pos with
       | None => entries pos = []
       | Some text =>
           let rows := rows (parseCSV text) in
           let nameKey := Loader.nameKeyOf toLowerCase (parseCSV text) in
           NoDup ((fun e => dedupeKey toLowerCase (Entry.name e))
                  <$> entries pos)
           /\ (forall e, e ∈ entries pos <->
                 exists idx row,
                   bestOfKey toLowerCase scoring pos nameKey rows idx row
                   /\ (rowKey toLowerCase nameKey idx row
                       ∉ PlainObject.prototypeNames)
                   /\ e = entryOfRow scoring pos nameKey idx row)
           /\ (forall idx row, rows !! idx = Some row ->
                 (rowKey toLowerCase nameKey idx row
                  ∉ PlainObject.prototypeNames)
                 <-> exists e,
                       e ∈ entries pos
                       /\ dedupeKey toLowerCase (Entry.name e)
                          = rowKey toLowerCase nameKey idx row
                       /\ (computeFantasyPoints row pos scoring
                           <= Entry.points e)%Q)
           /\ (forall idx row k, rows !! idx = Some row ->
                 nameKey = Some k -> k <> EmptyString ->
                 row !! k = Some (Loader.rawNameOf nameKey row idx))
       end.
Proof.
  cbv zeta. split; [apply loadPlayers_listings|].
  intros pos. unfold Loader.entriesOf.
  destruct (responses pos) as [text|]; [|reflexivity]. cbv zeta.
  set (nameKey := Loader.nameKeyOf toLowerCase (parseCSV text)).
  set (byName := Loader.dedupeFrom _ _ _ _ _ _ _).
  destruct (dedupe_kept toLowerCase scoring pos nameKey (rows (parseCSV text)))
    as (Hkeys & Hown & Hall).
  fold byName in Hkeys, Hown, Hall.
  assert (Hentry : forall e, e ∈ PlainObject.values byName <->
             exists idx row,
               bestOfKey toLowerCase scoring pos nameKey
                 (rows (parseCSV text)) idx row
               /\ (rowKey toLowerCase nameKey idx row
                   ∉ PlainObject.prototypeNames)
               /\ e = entryOfRow scoring pos nameKey idx row).
  { intros e. rewrite (values_elem _ _ Hkeys). split.
    - intros [k Hk]. destruct (Hown k e Hk) as (Hproto & i & r & Hbest & -> & ->).
      by exists i, r.
    - intros (idx & row & Hbest & Hproto & ->).
      destruct (Hall idx row (proj1 Hbest) Hproto) as [e0 He0].
      exists (rowKey toLowerCase nameKey idx row).
      destruct (Hown _ e0 He0) as (_ & i & r & Hbest' & -> & Hkey).
      symmetry in Hkey.
      by destruct (bestOfKey_unique _ _ _ _ _ _ _ Hbest' Hbest Hkey) as [-> ->]. }
  split; [|split; [exact Hentry|split]].
  - unfold PlainObject.values. rewrite <- list_fmap_compose.
    rewrite ordered_Permutation.
    replace ((fun e => dedupeKey toLowerCase (Entry.name e)) ∘ snd <$> byName)
      with (fst <$> byName); [done|].
    apply list_fmap_ext. intros i [k e] Hi. simpl.
    apply list_elem_of_lookup_2, (getOwn_elem _ _ _ Hkeys) in Hi.
    by destruct (Hown k e Hi) as (_ & idx & row & _ & -> & ->).
  - intros idx row Hrow. split.
    + intros Hproto. destruct (Hall idx row Hrow Hproto) as [e He].
      exists e. split; [apply (values_elem _ _ Hkeys); by eexists|].
      destruct (Hown _ e He) as (_ & i & r & [Hi Hbest] & -> & Hkey).
      split; [done|]. simpl. by apply (Hbest idx row Hrow).
    + intros (e & He & Hkey & _). apply Hentry in He
        as (i & r & _ & Hproto & ->).
      simpl in Hkey. unfold rowKey in Hproto. by rewrite Hkey in Hproto.
  - intros idx row k Hrow Hname Hk. unfold Loader.rawNameOf. rewrite Hname.
    destruct k as [|c k]; [done|].
    destruct (row_has_nameKey text row (String c k)) as [v ->]; [|done|done].
    by eapply list_elem_of_lookup_2.
Qed.
End FileLoading.

Section FileScenario.
Import Scoring Hooks Csv.

(** A quarterback file with two lines for Ann and a player named
    Constructor: [loadPlayers] keeps the better line for Ann and nothing
    of Constructor. *)
Example dedupe_file :
  (fun e => (Entry.name e, Qred (Entry.points e)))
  <$> Loader.entriesOf asciiLower PPR QB (Some rosterFile)
  = [("Ann"%string, 12%Q)].
Proof. vm_compute. reflexivity. Qed.
End FileScenario.
